(** * Store definition / reference tracker (src/extension.ts)

    A shallow embedding of [LitStoreReferenceTracker]: the text cache, the
    forward and reverse store indices, the memoized import bindings, the
    debounce table and the reference search, together with the part of the
    JavaScript runtime these rest on (backtracking regular expressions,
    [String.prototype.split], timers).

    Conventions.
    - A JavaScript string is a [list ascii]: one [ascii] per code unit, so
      the development covers texts whose code units are below 256.
    - A [Map] is a [gmap], a [Set] a [gset].
    - An [async] method is embedded as one state transformer; its
      suspension points are named in the comments where they matter. *)

From Stdlib Require Import Ascii String List ZArith Lia Bool DecimalString
  DecimalNat.
From stdpp Require Import gmap strings list fin_maps sorting.

#[local] Set Warnings "-clear-no-such-hyp".

Local Open Scope char_scope.
Local Open Scope list_scope.

Abbreviation text := (list ascii).

(** String literals of the source, as code-unit lists. *)
Definition str (s : string) : text := list_ascii_of_string s.

(** ** Character classes of ECMAScript regular expressions *)

Module Char.

Definition code (c : ascii) : N := N_of_ascii c.

Definition between (lo hi : N) (c : ascii) : bool :=
  ((lo <=? code c) && (code c <=? hi))%N.

(** [\w] is [A-Za-z0-9_]. *)
Definition is_word (c : ascii) : bool :=
  between 65 90 c || between 97 122 c || between 48 57 c || (code c =? 95)%N.

(** [\s]: TAB, LF, VT, FF, CR, SP and NBSP are the white space and line
    terminator code units below 256. *)
Definition is_space (c : ascii) : bool :=
  between 9 13 c || (code c =? 32)%N || (code c =? 160)%N.

(** The two quote characters, by code. *)
Definition QUOTE : ascii := ascii_of_nat 34.
Definition APOSTROPHE : ascii := ascii_of_nat 39.

Definition LF : ascii := "010".
Definition CR : ascii := "013".

(** [.] matches everything but a line terminator. *)
Definition is_line_terminator (c : ascii) : bool :=
  Ascii.eqb c LF || Ascii.eqb c CR.

Definition dot (c : ascii) : bool := negb (is_line_terminator c).

Definition is_not (x : ascii) (c : ascii) : bool := negb (Ascii.eqb c x).

Definition one_of (x y : ascii) (c : ascii) : bool :=
  Ascii.eqb c x || Ascii.eqb c y.

End Char.

(** ** Regular expressions

    The matcher follows the ECMAScript definition: a pattern denotes a
    function from a continuation and a match state to a result, and
    backtracking is the order in which alternatives call the continuation.
    The syntax covers what the patterns of the program use; every
    quantifier of the program applies to a single-character atom. *)

Module RegExp.

Inductive regex : Type :=
| Eps
| Chr (c : ascii)
| Cls (p : ascii -> bool)
| Seq (r1 r2 : regex)
| Alt (r1 r2 : regex)
| Star (greedy : bool) (p : ascii -> bool)
| Group (n : nat) (r : regex)
| Backref (n : nat)
| WordB
| Bol
| Eol.

(** [p+], [p+?] and [r?]. *)
Definition Plus (greedy : bool) (p : ascii -> bool) : regex :=
  Seq (Cls p) (Star greedy p).

Definition Opt (r : regex) : regex := Alt r Eps.

(** A literal run of characters. *)
Fixpoint Lit (w : text) : regex :=
  match w with
  | [] => Eps
  | c :: w' => Seq (Chr c) (Lit w')
  end.

(** The match state: the code unit before the current position (for [\b]),
    the input from the current position on, the position, and the
    captures, most recent first. *)
Record mstate : Type := MState {
  ms_prev : option ascii;
  ms_rest : text;
  ms_pos : nat;
  ms_caps : list (nat * text)
}.

Definition cap (n : nat) (caps : list (nat * text)) : option text :=
  snd <$> List.find (fun e => Nat.eqb (fst e) n) caps.

Definition is_word_at (o : option ascii) : bool :=
  match o with
  | Some c => Char.is_word c
  | None => false
  end.

Fixpoint starts_with (w s : text) : bool :=
  match w, s with
  | [], _ => true
  | c :: w', x :: s' => Ascii.eqb x c && starts_with w' s'
  | _ :: _, [] => false
  end.

(** The state after consuming [w], a prefix of the remaining input. *)
Definition advance (w : text) (st : mstate) : mstate :=
  MState (from_option Some (ms_prev st) (last w)) (skipn (length w) (ms_rest st))
         (ms_pos st + length w) (ms_caps st).

Definition step (c : ascii) (s' : text) (st : mstate) : mstate :=
  MState (Some c) s' (S (ms_pos st)) (ms_caps st).

Fixpoint star (greedy : bool) (p : ascii -> bool)
    (k : mstate -> option mstate)
    (prev : option ascii) (pos : nat) (caps : list (nat * text))
    (s : text) : option mstate :=
  let here := k (MState prev s pos caps) in
  match s with
  | c :: s' =>
      if p c then
        if greedy then
          match star greedy p k (Some c) (S pos) caps s' with
          | Some r => Some r
          | None => here
          end
        else
          match here with
          | Some r => Some r
          | None => star greedy p k (Some c) (S pos) caps s'
          end
      else here
  | [] => here
  end.

Fixpoint run (r : regex) (k : mstate -> option mstate) (st : mstate)
    : option mstate :=
  match r with
  | Eps => k st
  | Chr c =>
      match ms_rest st with
      | x :: s' => if Ascii.eqb x c then k (step x s' st) else None
      | [] => None
      end
  | Cls p =>
      match ms_rest st with
      | x :: s' => if p x then k (step x s' st) else None
      | [] => None
      end
  | Seq r1 r2 => run r1 (run r2 k) st
  | Alt r1 r2 =>
      match run r1 k st with
      | Some res => Some res
      | None => run r2 k st
      end
  | Star greedy p =>
      star greedy p k (ms_prev st) (ms_pos st) (ms_caps st) (ms_rest st)
  | Group n r1 =>
      run r1 (fun st' =>
                k (MState (ms_prev st') (ms_rest st') (ms_pos st')
                     ((n, firstn (ms_pos st' - ms_pos st) (ms_rest st))
                        :: ms_caps st'))) st
  | Backref n =>
      match cap n (ms_caps st) with
      | None => k st
      | Some w => if starts_with w (ms_rest st) then k (advance w st) else None
      end
  | WordB =>
      if xorb (is_word_at (ms_prev st)) (is_word_at (head (ms_rest st)))
      then k st else None
  | Bol => match ms_prev st with None => k st | Some _ => None end
  | Eol => match ms_rest st with [] => k st | _ :: _ => None end
  end.

(** A successful match, as [exec] reports it: [index], [match[0]] and the
    numbered groups. *)
Record rmatch : Type := RMatch {
  m_index : nat;
  m_text : text;
  m_caps : list (nat * text)
}.

Definition m_end (m : rmatch) : nat := m_index m + length (m_text m).

Definition group (n : nat) (m : rmatch) : option text := cap n (m_caps m).

(** One attempt at position [pos], where [s] is the input from [pos] on. *)
Definition exec_at (r : regex) (prev : option ascii) (pos : nat) (s : text)
    : option rmatch :=
  match run r Some (MState prev s pos []) with
  | Some st' => Some (RMatch pos (firstn (ms_pos st' - pos) s) (ms_caps st'))
  | None => None
  end.

(** The leftmost match at or after the current position: what [exec],
    [test] and [String.prototype.match] find for a pattern without the
    [g] flag, scanning start positions up to and including the end. *)
Fixpoint search (r : regex) (prev : option ascii) (pos : nat) (s : text)
    : option rmatch :=
  match exec_at r prev pos s with
  | Some m => Some m
  | None =>
      match s with
      | c :: s' => search r (Some c) (S pos) s'
      | [] => None
      end
  end.

Definition exec (r : regex) (s : text) : option rmatch := search r None 0 s.

Definition test (r : regex) (s : text) : bool :=
  match exec r s with Some _ => true | None => false end.

(** The successive results of [exec] on a [g] pattern whose [lastIndex] is
    0, up to the [null] that ends a [while ((m = re.exec(s)) !== null)]
    loop and resets [lastIndex] to 0: the leftmost match, then the
    leftmost match from its end on, and so on.  [skip] counts the code
    units still covered by the previous match.  An empty match would leave
    [lastIndex] where it is; [scan] steps over it, and [exec_all_consumes]
    below shows that no pattern the program loops over meets that case. *)
Fixpoint scan (r : regex) (prev : option ascii) (pos skip : nat) (s : text)
    : list rmatch :=
  match skip with
  | S j =>
      match s with
      | c :: s' => scan r (Some c) (S pos) j s'
      | [] => []
      end
  | 0 =>
      match exec_at r prev pos s with
      | Some m =>
          m :: match s with
               | c :: s' => scan r (Some c) (S pos) (length (m_text m) - 1) s'
               | [] => []
               end
      | None =>
          match s with
          | c :: s' => scan r (Some c) (S pos) 0 s'
          | [] => []
          end
      end
  end.

Definition exec_all (r : regex) (s : text) : list rmatch := scan r None 0 0 s.

Arguments exec : simpl never.
Arguments test : simpl never.
Arguments exec_all : simpl never.

End RegExp.

Import RegExp.

(** ** The patterns of the program *)

(** [/export\s+(const|let|var)\s+(\w+)\s*=/g] *)
Definition EXPORT_PATTERN : regex :=
  Seq (Lit (str "export"))
  (Seq (Plus true Char.is_space)
  (Seq (Group 1 (Alt (Lit (str "const")) (Alt (Lit (str "let")) (Lit (str "var")))))
  (Seq (Plus true Char.is_space)
  (Seq (Group 2 (Plus true Char.is_word))
  (Seq (Star true Char.is_space)
       (Chr "=")))))).

(** [/import\s+{([^}]+)}\s+from\s+Q(.+?)Q/g], where [Q] stands for the
    class of the two quote characters. *)
Definition IMPORT_PATTERN : regex :=
  Seq (Lit (str "import"))
  (Seq (Plus true Char.is_space)
  (Seq (Chr "{")
  (Seq (Group 1 (Plus true (Char.is_not "}")))
  (Seq (Chr "}")
  (Seq (Plus true Char.is_space)
  (Seq (Lit (str "from"))
  (Seq (Plus true Char.is_space)
  (Seq (Cls (Char.one_of Char.APOSTROPHE Char.QUOTE))
  (Seq (Group 2 (Plus false Char.dot))
       (Cls (Char.one_of Char.APOSTROPHE Char.QUOTE))))))))))).

(** [/\r?\n|\r|\n/], the line separator of [getPositionFromOffset]. *)
Definition LINE_SEPARATOR : regex :=
  Alt (Seq (Opt (Chr Char.CR)) (Chr Char.LF)) (Alt (Chr Char.CR) (Chr Char.LF)).

(** [/\.store\.ts?$/] *)
Definition STORE_SUFFIX : regex :=
  Seq (Chr ".") (Seq (Lit (str "store")) (Seq (Chr ".") (Seq (Chr "t")
    (Seq (Opt (Chr "s")) Eol)))).

(** [/\.ts$/] and [/\.(ts)$/] *)
Definition TS_SUFFIX : regex := Seq (Chr ".") (Seq (Lit (str "ts")) Eol).

Definition TS_SUFFIX_GROUP : regex :=
  Seq (Chr ".") (Seq (Group 1 (Lit (str "ts"))) Eol).

(** [/^(\w+)(?:\s+as\s+(\w+))?/] *)
Definition IMPORT_NAME : regex :=
  Seq Bol
  (Seq (Group 1 (Plus true Char.is_word))
       (Opt (Seq (Plus true Char.is_space)
            (Seq (Lit (str "as"))
            (Seq (Plus true Char.is_space)
                 (Group 2 (Plus true Char.is_word))))))).

(** A fragment of pattern source spliced into a [new RegExp(...)] template.
    Every code unit other than a syntax character stands for itself and
    [.] for any code unit but a line terminator; a fragment with another
    syntax character is outside what this development models, and the
    functions that build such a pattern return [None] for it.  The one
    exception is a base name that begins with [*] or [+], at which
    [hasImportedStore] raises. *)
Definition syntax_character (c : ascii) : bool :=
  existsb (Ascii.eqb c) (str "^$\.*+?()[]{}|").

Definition atom_of (c : ascii) : regex :=
  if Ascii.eqb c "." then Cls Char.dot else Chr c.

Fixpoint atoms (w : text) : regex :=
  match w with
  | [] => Eps
  | c :: w' => Seq (atom_of c) (atoms w')
  end.

Definition plain (c : ascii) : bool :=
  Ascii.eqb c "." || negb (syntax_character c).

Definition of_source (w : text) : option regex :=
  if forallb plain w then Some (atoms w) else None.

(** ** Strings *)

Module JsString.

Fixpoint index_from (w s : text) (i : nat) : option nat :=
  if starts_with w s then Some i
  else match s with
       | [] => None
       | _ :: s' => index_from w s' (S i)
       end.

(** [s.indexOf(w)]: the first position where [w] occurs, or -1. *)
Definition indexOf (s w : text) : Z :=
  match index_from w s 0 with
  | Some i => Z.of_nat i
  | None => (-1)%Z
  end.

Definition includes (s w : text) : bool :=
  match index_from w s 0 with Some _ => true | None => false end.

Definition startsWith (s w : text) : bool := starts_with w s.

(** [s.slice(0, e)]: a negative [e] counts from the end. *)
Definition slice0 (s : text) (e : Z) : text :=
  let len := Z.of_nat (length s) in
  let e' := if (e <? 0)%Z then Z.max (len + e) 0 else Z.min e len in
  firstn (Z.to_nat e') s.

(** [s.split(sep)] for a separator without groups, as the runtime does
    it: a walk over [s] that tries the separator at each position; a match
    that ends where the current piece began does not split; any other
    match closes the piece gathered so far and the walk resumes at its
    end.  [skip] counts the code units still covered by the last match. *)
Fixpoint split_from (sep : regex) (prev : option ascii) (skip : nat)
    (piece s : text) : list text :=
  match s with
  | [] => [piece]
  | c :: s' =>
      match skip with
      | S j => split_from sep (Some c) j piece s'
      | 0 =>
          match exec_at sep prev 0 s with
          | Some m =>
              match length (m_text m), piece with
              | 0, [] => split_from sep (Some c) 0 [c] s'
              | 0, _ => piece :: split_from sep (Some c) 0 [c] s'
              | S j, _ => piece :: split_from sep (Some c) j [] s'
              end
          | None => split_from sep (Some c) 0 (piece ++ [c]) s'
          end
      end
  end.

Definition split (sep : regex) (s : text) : list text :=
  split_from sep None 0 [] s.

Fixpoint trimStart (s : text) : text :=
  match s with
  | c :: s' => if Char.is_space c then trimStart s' else s
  | [] => []
  end.

Definition trim (s : text) : text := rev (trimStart (rev (trimStart s))).

(** The decimal digits of a number, as template literals print it. *)
Definition of_nat (n : nat) : text :=
  list_ascii_of_string (NilEmpty.string_of_uint (Nat.to_uint n)).

End JsString.

(** ** Positions and locations *)

Record Position : Type := mkPosition { line : nat; character : nat }.

Record Range : Type := mkRange { r_start : Position; r_end : Position }.

Record Location : Type := mkLocation { uri : text; range : Range }.

#[global] Instance Position_eq_dec : EqDecision Position.
Proof. solve_decision. Defined.

#[global] Instance Range_eq_dec : EqDecision Range.
Proof. solve_decision. Defined.

#[global] Instance Location_eq_dec : EqDecision Location.
Proof. solve_decision. Defined.

(** [getPositionFromOffset] *)
Definition getPositionFromOffset (t : text) (offset : Z) : Position :=
  let lines := JsString.split LINE_SEPARATOR (JsString.slice0 t offset) in
  let line := length lines - 1 in
  let character :=
    match nth_error lines line with
    | Some [] | None => 0
    | Some l => length l
    end in
  mkPosition line character.

(** [new vscode.Range(start, end)] orders its two ends. *)
Definition isBeforeOrEqual (a b : Position) : bool :=
  ((line a <? line b) || ((line a =? line b) && (character a <=? character b)))%nat.

Definition newRange (a b : Position) : Range :=
  if isBeforeOrEqual a b then mkRange a b else mkRange b a.

(** ** The host

    What the editor and Node provide.  A rejected promise or a thrown
    exception is [Throw]. *)

Inductive result (A : Type) : Type :=
| Ok (a : A)
| Throw.

Arguments Ok {A} a.
Arguments Throw {A}.

#[global] Instance result_eq_dec {A : Type} `{EqDecision A} :
  EqDecision (result A).
Proof. solve_decision. Defined.

(** Node's [path] module. *)
Class PathModule : Type := {
  dirname : text -> text;
  basename : text -> text;
  resolve : text -> text -> text
}.

Record Host : Type := mkHost {
  (** [vscode.workspace.textDocuments]: the path and the live text of
      every open buffer. *)
  textDocuments : list (text * text);
  (** [vscode.workspace.fs.readFile(uri)], decoded. *)
  readFile : text -> result text;
  (** [fs.existsSync] *)
  existsSync : text -> bool;
  (** What [findFiles] resolves to for the glob of all [.ts] files outside
      [node_modules]. *)
  findFiles : list text
}.

(** [vscode.Uri.file(p).fsPath] on a POSIX host, for a path without a
    drive letter or a UNC prefix: a path that does not start with a slash
    gets one, and every other path is its own [fsPath].  The paths that
    the editor hands over ([document.uri.fsPath], [doc.fileName], the
    [fsPath] of a file found) are of the second kind, and where the source
    calls [vscode.Uri.file] on one of them the model passes it on as it
    is; the target of a binding need not be of that kind. *)
Definition uriFile (p : text) : text :=
  if JsString.startsWith p (str "/") then p else "/" :: p.

(** ** The tracker

    The six fields of [LitStoreReferenceTracker], followed by the timer
    queue of the runtime: the live timeouts (due time and file of the
    callback), the next timeout identity and the clock in milliseconds. *)

Record state : Type := mkState {
  storeFileToNamesMap : gmap text (gset text);
  storeNameToFilesMap : gmap text (gset text);
  componentImportsMap : gmap text (gmap text text);
  fileCache : gmap text text;
  analyzedFiles : gset text;
  pendingAnalysis : gmap text nat;
  timers : gmap nat (nat * text);
  nextTimer : nat;
  clock : nat
}.

#[global] Instance state_eq_dec : EqDecision state.
Proof. solve_decision. Defined.

(** What a request comes to: it returns, or a [new RegExp] in it raises a
    [SyntaxError], which ends the request and leaves the tracker as it is
    at that moment. *)
Inductive outcome (A : Type) : Type :=
| Returns (a : A)
| Raises (st : state).

Arguments Returns {A} a.
Arguments Raises {A} st.

#[global] Instance outcome_eq_dec {A : Type} `{EqDecision A} :
  EqDecision (outcome A).
Proof. solve_decision. Defined.

#[global] Instance outcome_fmap : FMap outcome := fun A B f o =>
  match o with
  | Returns a => Returns (f a)
  | Raises st => Raises st
  end.

Definition initial : state := mkState ∅ ∅ ∅ ∅ ∅ ∅ ∅ 0 0.

Definition with_index (fwd rev : gmap text (gset text)) (st : state) : state :=
  mkState fwd rev (componentImportsMap st) (fileCache st) (analyzedFiles st)
    (pendingAnalysis st) (timers st) (nextTimer st) (clock st).

Definition with_componentImportsMap (m : gmap text (gmap text text))
    (st : state) : state :=
  mkState (storeFileToNamesMap st) (storeNameToFilesMap st) m (fileCache st)
    (analyzedFiles st) (pendingAnalysis st) (timers st) (nextTimer st)
    (clock st).

Definition with_fileCache (m : gmap text text) (st : state) : state :=
  mkState (storeFileToNamesMap st) (storeNameToFilesMap st)
    (componentImportsMap st) m (analyzedFiles st) (pendingAnalysis st)
    (timers st) (nextTimer st) (clock st).

Definition with_analyzedFiles (s : gset text) (st : state) : state :=
  mkState (storeFileToNamesMap st) (storeNameToFilesMap st)
    (componentImportsMap st) (fileCache st) s (pendingAnalysis st)
    (timers st) (nextTimer st) (clock st).

Definition with_pendingAnalysis (m : gmap text nat) (st : state) : state :=
  mkState (storeFileToNamesMap st) (storeNameToFilesMap st)
    (componentImportsMap st) (fileCache st) (analyzedFiles st) m
    (timers st) (nextTimer st) (clock st).

Definition with_timers (m : gmap nat (nat * text)) (n : nat) (st : state)
    : state :=
  mkState (storeFileToNamesMap st) (storeNameToFilesMap st)
    (componentImportsMap st) (fileCache st) (analyzedFiles st)
    (pendingAnalysis st) m n (clock st).

Definition with_clock (t : nat) (st : state) : state :=
  mkState (storeFileToNamesMap st) (storeNameToFilesMap st)
    (componentImportsMap st) (fileCache st) (analyzedFiles st)
    (pendingAnalysis st) (timers st) (nextTimer st) t.

(** [setTimeout(callback, delay)], where the callback is the one of
    [scheduleAnalysisForStore] for [file]; returns the new timeout. *)
Definition setTimeout (file : text) (delay : nat) (st : state) : nat * state :=
  (nextTimer st,
   with_timers (<[nextTimer st := (clock st + delay, file)]> (timers st))
     (S (nextTimer st)) st).

Definition clearTimeout (id : nat) (st : state) : state :=
  with_timers (delete id (timers st)) (nextTimer st) st.

(** [isStoreFile] *)
Definition isStoreFile (filePath : text) : bool := test STORE_SUFFIX filePath.

(** [isStoreVariable] *)
Definition isStoreVariable (filePath varName : text) (st : state) : bool :=
  match storeFileToNamesMap st !! filePath with
  | Some names => bool_decide (varName ∈ names)
  | None => false
  end.

(** [scheduleAnalysisForStore] *)
Definition scheduleAnalysisForStore (filePath : text) (st : state) : state :=
  let st1 :=
    match pendingAnalysis st !! filePath with
    | Some id => clearTimeout id st
    | None => st
    end in
  let '(timeoutId, st2) := setTimeout filePath 300 st1 in
  with_pendingAnalysis (<[filePath := timeoutId]> (pendingAnalysis st2)) st2.

(** [getDocumentText].  The whole body is inside [try]; the one operation
    that can fail is [readFile], and the [catch] turns its failure into
    [undefined], here [None]. *)
Definition getDocumentText (h : Host) (filePath : text) (st : state)
    : option text * state :=
  match List.find (fun doc => bool_decide (fst doc = filePath)) (textDocuments h) with
  | Some openDocument =>
      let t := snd openDocument in
      if bool_decide (fileCache st !! filePath = Some t) then (Some t, st)
      else
        let st1 := with_fileCache (<[filePath := t]> (fileCache st)) st in
        let st2 :=
          if isStoreFile filePath then scheduleAnalysisForStore filePath st1
          else st1 in
        (Some t, with_analyzedFiles (analyzedFiles st2 ∖ {[filePath]}) st2)
  | None =>
      match fileCache st !! filePath with
      | Some cached => (Some cached, st)
      | None =>
          match readFile h filePath with
          | Ok t => (Some t, with_fileCache (<[filePath := t]> (fileCache st)) st)
          | Throw => (None, st)
          end
      end
  end.

(** The body of the [while] loop of [analyzeStoreFile] for one match. *)
Definition addExport (filePath : text) (acc : gset text * gmap text (gset text))
    (m : rmatch) : gset text * gmap text (gset text) :=
  let '(newSet, rev) := acc in
  let storeName := default [] (group 2 m) in
  let rev1 :=
    match rev !! storeName with
    | Some _ => rev
    | None => <[storeName := ∅]> rev
    end in
  ({[storeName]} ∪ newSet,
   <[storeName := {[filePath]} ∪ default ∅ (rev1 !! storeName)]> rev1).

(** The body of the [for (const oldName of oldSet)] loop. *)
Definition dropExport (filePath : text) (newSet : gset text)
    (rev : gmap text (gset text)) (oldName : text) : gmap text (gset text) :=
  if bool_decide (oldName ∈ newSet) then rev
  else
    match rev !! oldName with
    | Some setOfFiles =>
        let setOfFiles' := setOfFiles ∖ {[filePath]} in
        if (size setOfFiles' =? 0)%nat then delete oldName rev
        else <[oldName := setOfFiles']> rev
    | None => rev
    end.

(** [analyzeStoreFile].  Everything after the [await] of the text runs
    without suspension.  [!text] holds for [undefined] and for the empty
    string. *)
Definition analyzeStoreFile (h : Host) (filePath : text) (st : state) : state :=
  let '(t, st1) := getDocumentText h filePath st in
  match t with
  | None | Some [] => st1
  | Some t =>
      let oldSet := default ∅ (storeFileToNamesMap st1 !! filePath) in
      let '(newSet, rev1) :=
        foldl (addExport filePath) (∅, storeNameToFilesMap st1)
          (exec_all EXPORT_PATTERN t) in
      let rev2 := foldl (dropExport filePath newSet) rev1 (elements oldSet) in
      with_index (<[filePath := newSet]> (storeFileToNamesMap st1)) rev2 st1
  end.

(** [invalidateCache] *)
Definition invalidateCache (filePath : text) (st : state) : state :=
  let st1 := with_fileCache (delete filePath (fileCache st)) st in
  let st2 := with_analyzedFiles (analyzedFiles st1 ∖ {[filePath]}) st1 in
  if isStoreFile filePath then scheduleAnalysisForStore filePath st2 else st2.

Section Imports.

Context {path : PathModule}.

(** [resolveImportPath] *)
Definition resolveImportPath (h : Host) (importPath baseDir : text) : text :=
  if JsString.startsWith importPath (str "./")
     || JsString.startsWith importPath (str "../")
  then
    let fullPath := resolve baseDir importPath in
    if negb (test TS_SUFFIX fullPath) && existsSync h (fullPath ++ str ".ts")
    then fullPath ++ str ".ts"
    else fullPath
  else importPath.

(** The body of [for (const n of rawNames)]. *)
Definition addBinding (resolved : text) (storeMap : gmap text text) (n : text)
    : gmap text text :=
  match exec IMPORT_NAME n with
  | None => storeMap
  | Some subMatch =>
      let originalName := default [] (group 1 subMatch) in
      let alias :=
        match group 2 subMatch with
        | Some [] | None => originalName
        | Some a => a
        end in
      <[alias := resolved]> storeMap
  end.

(** What one match of [IMPORT_PATTERN] adds to [storeMap]. *)
Definition addImport (h : Host) (filePath : text) (storeMap : gmap text text)
    (m : rmatch) : gmap text text :=
  let rawNames :=
    map JsString.trim (JsString.split (Chr ",") (default [] (group 1 m))) in
  let importPath := default [] (group 2 m) in
  let resolved := resolveImportPath h importPath (dirname filePath) in
  if isStoreFile resolved then foldl (addBinding resolved) storeMap rawNames
  else storeMap.

(** [analyzeComponentImports] *)
Definition analyzeComponentImports (h : Host) (filePath : text) (st : state)
    : state :=
  if bool_decide (filePath ∈ analyzedFiles st) then st
  else
    let '(t, st1) := getDocumentText h filePath st in
    match t with
    | None | Some [] => st1
    | Some t =>
        let storeMap := foldl (addImport h filePath) ∅ (exec_all IMPORT_PATTERN t) in
        with_analyzedFiles ({[filePath]} ∪ analyzedFiles st1)
          (with_componentImportsMap
             (<[filePath := storeMap]> (componentImportsMap st1)) st1)
    end.

(** [ensureImportsAnalyzed] *)
Definition ensureImportsAnalyzed (h : Host) (filePath : text) (st : state)
    : state :=
  match componentImportsMap st !! filePath with
  | None => analyzeComponentImports h filePath st
  | Some _ => st
  end.

End Imports.

(** ** Reference search *)

(** The key of the [visited] set: [`${fsPath}:${line}:${character}`]. *)
Definition visitKey (fsPath : text) (p : Position) : text :=
  fsPath ++ str ":" ++ JsString.of_nat (line p) ++ str ":"
    ++ JsString.of_nat (character p).

(** The location of the [len] code units of [t] from offset [startOff]. *)
Definition locate (fsPath t : text) (startOff : Z) (len : nat) : Location :=
  let endOff := (startOff + Z.of_nat len)%Z in
  mkLocation fsPath
    (newRange (getPositionFromOffset t startOff) (getPositionFromOffset t endOff)).

(** The pattern [`export\\s+(const|let|var)\\s+(${storeName})\\b`]. *)
Definition definitionPattern (name : regex) : regex :=
  Seq (Lit (str "export"))
  (Seq (Plus true Char.is_space)
  (Seq (Group 1 (Alt (Lit (str "const")) (Alt (Lit (str "let")) (Lit (str "var")))))
  (Seq (Plus true Char.is_space)
  (Seq (Group 2 name)
       WordB)))).

(** [findStoreDefinitions].  The text is read, and the locations are
    reported, under [vscode.Uri.file(storeFilePath)]. *)
Definition findStoreDefinitions (h : Host) (storeFilePath storeName : text)
    (st : state) : option (list Location * state) :=
  let storeUri := uriFile storeFilePath in
  let '(t, st1) := getDocumentText h storeUri st in
  match t with
  | None | Some [] => Some ([], st1)
  | Some t =>
      match of_source storeName with
      | None => None
      | Some name =>
          Some (map (fun m =>
                  let startOff :=
                    (Z.of_nat (m_index m)
                     + JsString.indexOf (m_text m) storeName)%Z in
                  locate storeUri t startOff (length storeName))
                  (exec_all (definitionPattern name) t),
                st1)
      end
  end.

(** The pattern [`\\bthis\\.${storeName}\\b`]. *)
Definition thisPattern (name : regex) : regex :=
  Seq WordB (Seq (Lit (str "this")) (Seq (Chr ".") (Seq name WordB))).

(** The guarded [push] shared by the two search loops: a location is kept
    unless the key of its start position was visited. *)
Definition visit (fsPath content : text) (startOff : Z) (len : nat)
    (acc : list Location * gset text) : list Location * gset text :=
  let '(results, visited) := acc in
  let key := visitKey fsPath (getPositionFromOffset content startOff) in
  if bool_decide (key ∈ visited) then (results, visited)
  else (results ++ [locate fsPath content startOff len], {[key]} ∪ visited).

(** [findThisStoreReferences] *)
Definition findThisStoreReferences (fsPath content storeName : text)
    (visited : gset text) : option (list Location * gset text) :=
  match of_source storeName with
  | None => None
  | Some name =>
      Some (foldl (fun acc m =>
                     visit fsPath content (Z.of_nat (m_index m) + 5)%Z
                       (length storeName) acc)
              ([], visited) (exec_all (thisPattern name) content))
  end.

(** [findImportReferences] *)
Definition findImportReferences (fsPath content storeName : text)
    (visited : gset text) : list Location * gset text :=
  foldl (fun acc m =>
           let importBlock := default [] (group 1 m) in
           if JsString.includes importBlock storeName then
             let importPos :=
               (Z.of_nat (m_index m) + JsString.indexOf (m_text m) storeName)%Z in
             if (0 <=? importPos)%Z
             then visit fsPath content importPos (length storeName) acc
             else acc
           else acc)
    ([], visited) (exec_all IMPORT_PATTERN content).

Section Search.

Context {path : PathModule}.

(** The pattern of [hasImportedStore]:
    [`import\\s+{[^}]*\\b${storeName}\\b[^}]*}\\s+from\\s+(Q).*${baseName}\\1`],
    where [Q] stands for the class of the two quote characters. *)
Definition importedPattern (name base : regex) : regex :=
  Seq (Lit (str "import"))
  (Seq (Plus true Char.is_space)
  (Seq (Chr "{")
  (Seq (Star true (Char.is_not "}"))
  (Seq WordB
  (Seq name
  (Seq WordB
  (Seq (Star true (Char.is_not "}"))
  (Seq (Chr "}")
  (Seq (Plus true Char.is_space)
  (Seq (Lit (str "from"))
  (Seq (Plus true Char.is_space)
  (Seq (Group 1 (Cls (Char.one_of Char.APOSTROPHE Char.QUOTE)))
  (Seq (Star true Char.dot)
  (Seq base
       (Backref 1))))))))))))))).

(** [s.replace(/\.(ts)$/, empty)] *)
Definition stripTs (s : text) : text :=
  match exec TS_SUFFIX_GROUP s with
  | Some m => firstn (m_index m) s ++ skipn (m_end m) s
  | None => s
  end.

(** A fragment that begins with [*] or [+]. *)
Definition nothing_to_repeat (w : text) : bool :=
  match w with
  | c :: _ => Ascii.eqb c "*" || Ascii.eqb c "+"
  | [] => false
  end.

(** [hasImportedStore].  The base name is spliced in after [.*]: when it
    begins with [*] or [+], the pattern has a quantifier with nothing to
    repeat, and [new RegExp] raises a [SyntaxError]. *)
Definition hasImportedStore (content storeFilePath storeName : text)
    : option (result bool) :=
  let baseName := stripTs (basename storeFilePath) in
  match of_source storeName with
  | None => None
  | Some name =>
      if nothing_to_repeat baseName then Some Throw
      else
        match of_source baseName with
        | Some base => Some (Ok (test (importedPattern name base) content))
        | None => None
        end
  end.

(** One turn of the [for (const fileUri of allFiles)] loop of
    [findStoreVariableReferences], after the cancellation check. *)
Definition scanFile (h : Host) (storeFilePath storeName fsPath : text)
    (acc : list Location * gset text * state)
    : option (outcome (list Location * gset text * state)) :=
  let '(results, visited, st) := acc in
  if bool_decide (fsPath = storeFilePath) then Some (Returns acc)
  else
    let '(content, st1) := getDocumentText h fsPath st in
    match content with
    | None | Some [] => Some (Returns (results, visited, st1))
    | Some content =>
        match hasImportedStore content storeFilePath storeName with
        | None => None
        | Some Throw => Some (Raises st1)
        | Some (Ok false) => Some (Returns (results, visited, st1))
        | Some (Ok true) =>
            let '(imports, visited1) :=
              findImportReferences fsPath content storeName visited in
            match findThisStoreReferences fsPath content storeName visited1 with
            | None => None
            | Some (accesses, visited2) =>
                Some (Returns (results ++ imports ++ accesses, visited2, st1))
            end
        end
    end.

(** The loop itself.  [token i] is what [token.isCancellationRequested]
    reads at the head of the turn for the file of index [i].  An exception
    in a turn ends the loop and the request. *)
Fixpoint scanFiles (h : Host) (storeFilePath storeName : text)
    (token : nat -> bool) (i : nat) (files : list text)
    (acc : list Location * gset text * state)
    : option (outcome (list Location * gset text * state)) :=
  match files with
  | [] => Some (Returns acc)
  | fsPath :: rest =>
      if token i then Some (Returns acc)
      else
        match scanFile h storeFilePath storeName fsPath acc with
        | None => None
        | Some (Raises st) => Some (Raises st)
        | Some (Returns acc') =>
            scanFiles h storeFilePath storeName token (S i) rest acc'
        end
  end.

(** [findStoreVariableReferences] *)
Definition findStoreVariableReferences (h : Host)
    (storeFilePath storeName : text) (token : nat -> bool) (st : state)
    : option (outcome (list Location * state)) :=
  match findStoreDefinitions h storeFilePath storeName st with
  | None => None
  | Some (definitions, st1) =>
      match scanFiles h storeFilePath storeName token 0 (findFiles h)
              (definitions, ∅, st1) with
      | None => None
      | Some (Raises st2) => Some (Raises st2)
      | Some (Returns (results, _, st2)) => Some (Returns (results, st2))
      end
  end.

(** [findImportedStoreReferences] *)
Definition findImportedStoreReferences (h : Host)
    (componentFilePath storeName : text) (st : state)
    : option (list Location * state) :=
  let st1 := ensureImportsAnalyzed h componentFilePath st in
  match componentImportsMap st1 !! componentFilePath with
  | None => Some ([], st1)
  | Some compMap =>
      match compMap !! storeName with
      | None | Some [] => Some ([], st1)
      | Some storeFilePath =>
          match findStoreDefinitions h storeFilePath storeName st1 with
          | None => None
          | Some (definitions, st2) =>
              let '(content, st3) := getDocumentText h componentFilePath st2 in
              match content with
              | None | Some [] => Some (definitions, st3)
              | Some content =>
                  match findThisStoreReferences componentFilePath content
                          storeName ∅ with
                  | None => None
                  | Some (accesses, _) => Some (definitions ++ accesses, st3)
                  end
              end
          end
      end
  end.

End Search.

(** ** Events

    What the activation code wires to the tracker, and the timer queue.
    A timeout fires no earlier than its due time; its callback starts
    [analyzeStoreFile] and then deletes the entry of the file from
    [pendingAnalysis].  [analyzeStoreFile] is not awaited, but the part of
    it that can reach [scheduleAnalysisForStore] is the synchronous prefix
    of [getDocumentText], which runs before the deletion, and the remainder
    leaves [pendingAnalysis] alone: the two orders give the same state. *)

Definition fireTimeout (h : Host) (id : nat) (st : state) : option state :=
  match timers st !! id with
  | Some (due, file) =>
      if (due <=? clock st)%nat then
        let st1 := with_timers (delete id (timers st)) (nextTimer st) st in
        let st2 := analyzeStoreFile h file st1 in
        Some (with_pendingAnalysis (delete file (pendingAnalysis st2)) st2)
      else None
  | None => None
  end.

Inductive event : Type :=
| Activate (files : list text)
| Save (file : text)
| Change (file : text)
| Elapse (ms : nat)
| Fire (id : nat).

(** [Activate] is the sweep of [activate] over the store files found,
    [Save] the [onDidSaveTextDocument] handler and [Change] the
    [onDidChangeTextDocument] handler. *)
Definition handle (h : Host) (e : event) (st : state) : option state :=
  match e with
  | Activate files => Some (foldl (fun s f => analyzeStoreFile h f s) st files)
  | Save file => Some (invalidateCache file st)
  | Change file => Some (snd (getDocumentText h file st))
  | Elapse ms => Some (with_clock (clock st + ms) st)
  | Fire id => fireTimeout h id st
  end.

(** A run: each event happens under the host as it is at that moment. *)
Fixpoint run_events (es : list (Host * event)) (st : state) : option state :=
  match es with
  | [] => Some st
  | (h, e) :: es' =>
      match handle h e st with
      | Some st' => run_events es' st'
      | None => None
      end
  end.

(** The live timeouts whose callback is for [file]. *)
Definition scheduledFor (file : text) (st : state) : list nat :=
  map fst (filter (fun e => snd (snd e) = file) (map_to_list (timers st))).

(** ** The providers

    [provideReferences] and [provideDefinition] read three things off the
    editor: the path of the document, the text of its lines, and the word
    at the position, which [getWordRangeAtPosition] and [getText] give and
    which is absent where there is no word. *)

Record Document : Type := mkDocument {
  doc_path : text;
  doc_lines : list text
}.

(** [document.lineAt(n).text].  The editor raises for a line outside the
    document; the statements below ask for a line inside it. *)
Definition lineAt (d : Document) (n : nat) : text := nth n (doc_lines d) [].

(** [/^[A-Za-z0-9_]+,?$/] *)
Definition SHORTHAND_PREFIX : regex :=
  Seq Bol (Seq (Plus true Char.is_word) (Seq (Opt (Chr ",")) Eol)).

(** The pattern [`this\\.(${word})\\b`] of the two providers. *)
Definition accessPattern (word : regex) : regex :=
  Seq (Lit (str "this")) (Seq (Chr ".") (Seq (Group 1 word) WordB)).

(** The [for] loop of [isInAddStoresObjectLiteral]: [i] turns are left,
    [curLine] is the line to look at, and after line 0 the loop ends. *)
Fixpoint scanUp (d : Document) (i curLine : nat) (foundBrace : bool) : bool :=
  match i with
  | 0 => false
  | S i' =>
      let txt := lineAt d curLine in
      if negb foundBrace && JsString.includes txt (str "{") then
        match curLine with
        | 0 => false
        | S above => scanUp d i' above true
        end
      else if foundBrace && JsString.includes txt (str "addStores(") then true
      else
        match curLine with
        | 0 => false
        | S above => scanUp d i' above foundBrace
        end
  end.

(** [isInAddStoresObjectLiteral] *)
Definition isInAddStoresObjectLiteral (d : Document) (position : Position)
    : bool :=
  let lineText := lineAt d (line position) in
  let prefix := JsString.trim (firstn (character position) lineText) in
  if negb (test SHORTHAND_PREFIX prefix) then false
  else scanUp d 20 (line position) false.

Section Providers.

Context {path : PathModule}.

(** [provideReferences] *)
Definition provideReferences (h : Host) (d : Document) (position : Position)
    (word : option text) (token : nat -> bool) (st : state)
    : option (outcome (list Location * state)) :=
  match word with
  | None => Some (Returns ([], st))
  | Some word =>
      let filePath := doc_path d in
      if isStoreFile filePath && isStoreVariable filePath word st
      then findStoreVariableReferences h filePath word token st
      else
        let lineText := lineAt d (line position) in
        match of_source word with
        | None => None
        | Some w =>
            match exec (accessPattern w) lineText with
            | Some _ =>
                Returns <$> findImportedStoreReferences h filePath word st
            | None => Some (Returns ([], st))
            end
        end
  end.

(** [findImportedStoreDefinitions] *)
Definition findImportedStoreDefinitions (h : Host)
    (componentFilePath storeName : text) (st : state)
    : option (list Location * state) :=
  let st1 := ensureImportsAnalyzed h componentFilePath st in
  match componentImportsMap st1 !! componentFilePath with
  | None => Some ([], st1)
  | Some compMap =>
      match compMap !! storeName with
      | None | Some [] => Some ([], st1)
      | Some storeFilePath => findStoreDefinitions h storeFilePath storeName st1
      end
  end.

(** [provideDefinition]; [undefined] is the inner [None]. *)
Definition provideDefinition (h : Host) (d : Document) (position : Position)
    (word : option text) (st : state)
    : option (option (list Location) * state) :=
  let found r :=
    match r with
    | Some (locations, st') => Some (Some locations, st')
    | None => None
    end in
  match word with
  | None => Some (None, st)
  | Some word =>
      let filePath := doc_path d in
      if isStoreFile filePath && isStoreVariable filePath word st
      then found (findStoreDefinitions h filePath word st)
      else
        let lineText := lineAt d (line position) in
        match of_source word with
        | None => None
        | Some w =>
            match exec (accessPattern w) lineText with
            | Some _ => found (findImportedStoreDefinitions h filePath word st)
            | None =>
                if isInAddStoresObjectLiteral d position
                then found (findImportedStoreDefinitions h filePath word st)
                else Some (None, st)
            end
        end
  end.

End Providers.

(** ** A POSIX instance of the path module

    Enough of Node's [path] for absolute POSIX paths without trailing
    slashes; the examples below run on it, the theorems hold for every
    instance. *)

Module Posix.

Definition segments (p : text) : list text := JsString.split (Chr "/") p.

Definition join (segs : list text) : text :=
  concat (map (fun seg => "/" :: seg) segs).

(** Drop [.] and empty segments; [..] removes the segment before it. *)
Definition normalize (segs : list text) : list text :=
  foldl (fun acc seg =>
           if bool_decide (seg = []) || bool_decide (seg = str ".") then acc
           else if bool_decide (seg = str "..") then removelast acc
           else acc ++ [seg]) [] segs.

Definition posix_basename (p : text) : text := List.last (segments p) [].

Definition posix_dirname (p : text) : text :=
  match removelast (segments p) with
  | [] => str "."
  | [[]] => str "/"
  | first :: more => first ++ join more
  end.

Definition posix_resolve (base rel : text) : text :=
  let segs :=
    if JsString.startsWith rel (str "/") then segments rel
    else segments base ++ segments rel in
  match normalize segs with
  | [] => str "/"
  | segs' => join segs'
  end.

#[export] Instance posix : PathModule :=
  {| dirname := posix_dirname;
     basename := posix_basename;
     resolve := posix_resolve |}.

End Posix.

(** * Statements

    What the theorems below are stated with: a reading of patterns
    without backtracking order, lines and columns as counts, the
    invariants of the index and of the search loops, and the workspaces
    the examples run on. *)

(** ** Matches *)

(** [matches r w st st']: the pattern [r] can take the matcher from [st]
    to [st'] over the code units [w]. *)
Fixpoint matches (r : regex) (w : text) (st st' : mstate) : Prop :=
  match r with
  | Eps => w = [] ∧ st' = st
  | Chr c => w = [c] ∧ ∃ s', ms_rest st = c :: s' ∧ st' = step c s' st
  | Cls p =>
      ∃ c s', w = [c] ∧ p c = true ∧ ms_rest st = c :: s' ∧ st' = step c s' st
  | Seq r1 r2 =>
      ∃ u v mid, w = u ++ v ∧ matches r1 u st mid ∧ matches r2 v mid st'
  | Alt r1 r2 => matches r1 w st st' ∨ matches r2 w st st'
  | Star _ p =>
      Forall (fun c => p c = true) w ∧ ms_rest st = w ++ ms_rest st'
      ∧ st' = advance w st
  | Group n r1 =>
      ∃ st1, matches r1 w st st1
        ∧ st' = MState (ms_prev st1) (ms_rest st1) (ms_pos st1)
                  ((n, firstn (ms_pos st1 - ms_pos st) (ms_rest st))
                     :: ms_caps st1)
  | Backref n =>
      match cap n (ms_caps st) with
      | None => w = [] ∧ st' = st
      | Some u => w = u ∧ starts_with u (ms_rest st) = true ∧ st' = advance u st
      end
  | WordB =>
      w = [] ∧ st' = st
      ∧ xorb (is_word_at (ms_prev st)) (is_word_at (head (ms_rest st))) = true
  | Bol => w = [] ∧ st' = st ∧ ms_prev st = None
  | Eol => w = [] ∧ st' = st ∧ ms_rest st = []
  end.

(** [st'] is [st] moved over [w]. *)
Definition consumed (w : text) (st st' : mstate) : Prop :=
  ms_rest st = w ++ ms_rest st'
  ∧ ms_pos st' = ms_pos st + length w
  ∧ ms_prev st' = from_option Some (ms_prev st) (last w).

(** The code unit before the position reached after the code units [a]. *)
Definition prev_after (prev : option ascii) (a : text) : option ascii :=
  from_option Some prev (last a).

(** [m] is a match of [r] at its index in [t], with the groups the
    matcher recorded. *)
Definition found (r : regex) (t : text) (m : rmatch) : Prop :=
  ∃ a b prev st',
    t = a ++ m_text m ++ b ∧ m_index m = length a
    ∧ matches r (m_text m) (MState prev (m_text m ++ b) (length a) []) st'
    ∧ m_caps m = ms_caps st'.

(** [m2] starts after [m1] and not before its end. *)
Definition apart (m1 m2 : rmatch) : Prop :=
  m_index m1 < m_index m2 ∧ m_end m1 ≤ m_index m2.

(** A pattern that matches no empty text. *)
Definition consuming (r : regex) : Prop :=
  ∀ w st st', matches r w st st' → w ≠ [].

(** A store name as the tracker knows it: a [\w+] word. *)
Definition identifier (w : text) : Prop :=
  w ≠ [] ∧ Forall (fun c => Char.is_word c = true) w.

(** ** Lines and columns *)

(** The line break at the head of [s], by its length. *)
Definition lineBreak (s : text) : option nat :=
  match s with
  | [] => None
  | c :: s' =>
      if Ascii.eqb c Char.CR then
        match s' with
        | d :: _ => if Ascii.eqb d Char.LF then Some 2 else Some 1
        | [] => Some 1
        end
      else if Ascii.eqb c Char.LF then Some 1
      else None
  end.

(** One more line break before the text counted. *)
Definition bump (r : nat * nat) : nat * nat := (S (fst r), snd r).

(** The number of line breaks in [s], and the number of code units after
    the last of them. *)
Fixpoint lineCol (s : text) : nat * nat :=
  match s with
  | [] => (0, 0)
  | c :: s' =>
      let r := lineCol s' in
      if Ascii.eqb c Char.CR then
        match s' with
        | d :: _ => if Ascii.eqb d Char.LF then r else bump r
        | [] => bump r
        end
      else if Ascii.eqb c Char.LF then bump r
      else (fst r, if (fst r =? 0)%nat then S (snd r) else snd r)
  end.

(** Line and column at the end of [s ++ u], from those of [s] and [u]. *)
Definition lineColApp (r1 r2 : nat * nat) : nat * nat :=
  (fst r1 + fst r2, if (fst r2 =? 0)%nat then snd r1 + snd r2 else snd r2).

(** Positions in the order of [isBeforeOrEqual]. *)
Definition lexLe (r1 r2 : nat * nat) : Prop :=
  fst r1 < fst r2 ∨ (fst r1 = fst r2 ∧ snd r1 ≤ snd r2).

(** ** The cache and the index *)

Definition isOpen (h : Host) (filePath : text) : Prop :=
  filePath ∈ map fst (textDocuments h).

Definition namesOf (fwd : gmap text (gset text)) (file : text) : gset text :=
  default ∅ (fwd !! file).

Definition filesOf (rev : gmap text (gset text)) (name : text) : gset text :=
  default ∅ (rev !! name).

(** The forward and the reverse index agree. *)
Definition consistent (fwd rev : gmap text (gset text)) : Prop :=
  ∀ name file, name ∈ namesOf fwd file ↔ file ∈ filesOf rev name.

(** No entry of the reverse index has an empty file set. *)
Definition noEmptyEntry (rev : gmap text (gset text)) : Prop :=
  ∀ name files, rev !! name = Some files → files ≠ ∅.

(** The names that [analyzeStoreFile] reads off its matches. *)
Definition exported (ms : list rmatch) : list text :=
  map (fun m => default [] (group 2 m)) ms.

Definition indexInvariant (st : state) : Prop :=
  consistent (storeFileToNamesMap st) (storeNameToFilesMap st)
  ∧ noEmptyEntry (storeNameToFilesMap st).

(** The calls of [analyzeStoreFile] in a run, each under the host of its
    moment. *)
Definition analyzeAll (calls : list (Host * text)) (st : state) : state :=
  foldl (fun s c => analyzeStoreFile (fst c) (snd c) s) st calls.

(** Every name in the forward index is a word. *)
Definition wordIndex (st : state) : Prop :=
  ∀ file name, isStoreVariable file name st = true → identifier name.

(** ** Imports *)

(** A specifier that [resolveImportPath] resolves against the directory
    of the importing file. *)
Definition relative (importPath : text) : bool :=
  JsString.startsWith importPath (str "./")
  || JsString.startsWith importPath (str "../").

(** The specifier of an import and what it resolves to for [filePath]. *)
Definition specifier (m : rmatch) : text := default [] (group 2 m).

Definition target_of {path : PathModule} (h : Host) (filePath : text)
    (m : rmatch) : text :=
  resolveImportPath h (specifier m) (dirname filePath).

(** The pieces of the clause of an import, as [analyzeComponentImports]
    takes them: what stands between the commas, trimmed. *)
Definition rawNames (m : rmatch) : list text :=
  map JsString.trim (JsString.split (Chr ",") (default [] (group 1 m))).

(** The alias that a piece stands for: the word after [as] where the piece
    has one, the word the piece begins with otherwise; a piece that does
    not begin with a word stands for none. *)
Definition aliasOf (n : text) : option text :=
  match exec IMPORT_NAME n with
  | None => None
  | Some subMatch =>
      Some match group 2 subMatch with
           | Some [] | None => default [] (group 1 subMatch)
           | Some a => a
           end
  end.

(** The import [m] names [alias]: one of its pieces stands for it. *)
Definition names (m : rmatch) (alias : text) : Prop :=
  ∃ n, n ∈ rawNames m ∧ aliasOf n = Some alias.

(** ** The search loops *)

(** The results so far in front of what a scan adds. *)
Definition prepend (before : list Location)
    (acc : list Location * gset text * state)
    : list Location * gset text * state :=
  let '(results, visited, st) := acc in (before ++ results, visited, st).

(** What two locations are compared by, and the key of [visited]. *)
Definition startKey (l : Location) : text * nat * nat :=
  (uri l, line (r_start (range l)), character (r_start (range l))).

Definition visitedKey (l : Location) : text :=
  visitKey (uri l) (r_start (range l)).

(** What a search loop over one file keeps true of its accumulator:
    the results have distinct keys, all of them visited now and none
    visited before the loop, and all are in the file. *)
Definition fresh (before : gset text) (fsPath : text)
    (acc : list Location * gset text) : Prop :=
  NoDup (visitedKey <$> (fst acc))
  ∧ (∀ l, l ∈ fst acc →
       visitedKey l ∈ snd acc ∧ (visitedKey l ∉ before) ∧ uri l = fsPath)
  ∧ before ⊆ snd acc.

(** What the loop over the workspace keeps true: distinct keys, all of
    them visited, and no result in the store file. *)
Definition distinct (storeFilePath : text)
    (acc : list Location * gset text * state) : Prop :=
  NoDup (visitedKey <$> (fst (fst acc)))
  ∧ ∀ l, l ∈ fst (fst acc) →
      visitedKey l ∈ snd (fst acc) ∧ uri l ≠ storeFilePath.

(** ** The cache and the timers *)

(** The live text of the open buffer for [filePath], if there is one:
    [textDocuments.find(...)] followed by [getText()]. *)
Definition liveText (h : Host) (filePath : text) : option text :=
  snd <$> List.find (fun doc => bool_decide (fst doc = filePath)) (textDocuments h).

(** Every live timeout is the one that [pendingAnalysis] records for its
    file, and timeout identities are not reused. *)
Definition tracked (st : state) : Prop :=
  (∀ id due file, timers st !! id = Some (due, file) →
     pendingAnalysis st !! file = Some id)
  ∧ (∀ id, is_Some (timers st !! id) → id < nextTimer st).

(** The events that never run a timeout callback. *)
Definition quiet (e : event) : bool :=
  match e with
  | Save _ | Change _ | Elapse _ => true
  | Activate _ | Fire _ => false
  end.

(** The two index maps are the same in both states. *)
Definition sameIndex (st st' : state) : Prop :=
  storeFileToNamesMap st' = storeFileToNamesMap st
  ∧ storeNameToFilesMap st' = storeNameToFilesMap st.

(** ** Reachable states *)

(** [st'] differs from [st] at most by text that was cached, timeouts
    that were set for it, and files dropped from [analyzedFiles]. *)
Definition reads (st st' : state) : Prop :=
  sameIndex st st'
  ∧ componentImportsMap st' = componentImportsMap st
  ∧ analyzedFiles st' ⊆ analyzedFiles st.

(** Every memoized binding maps a word to a store path. *)
Definition storeTargets (st : state) : Prop :=
  ∀ file bindings alias target,
    componentImportsMap st !! file = Some bindings →
    bindings !! alias = Some target →
    identifier alias ∧ isStoreFile target = true.

(** Every file in [analyzedFiles] has its bindings memoized. *)
Definition analyzedAreMemoized (st : state) : Prop :=
  ∀ file, file ∈ analyzedFiles st → is_Some (componentImportsMap st !! file).

(** What every reachable state satisfies. *)
Definition stable (st : state) : Prop :=
  indexInvariant st ∧ wordIndex st ∧ storeTargets st ∧ analyzedAreMemoized st.

(** The tracker after a request. *)
Definition after (o : outcome (list Location * state)) : state :=
  match o with
  | Returns (_, st) => st
  | Raises st => st
  end.

(** The tracker after a turn of the search loop. *)
Definition after_scan (o : outcome (list Location * gset text * state)) : state :=
  match o with
  | Returns (_, _, st) => st
  | Raises st => st
  end.

(** The locations of a request that returned. *)
Definition locations (r : option (outcome (list Location * state)))
    : option (list Location) :=
  match r with
  | Some (Returns (results, _)) => Some results
  | _ => None
  end.

(** The states of the extension: the tracker starts empty, and each
    handler, each timeout callback and each request to a provider, taken
    one at a time, moves it on. *)
Inductive reachable {path : PathModule} : state → Prop :=
| reachable_initial : reachable initial
| reachable_event (h : Host) (e : event) (st st' : state) :
    reachable st → handle h e st = Some st' → reachable st'
| reachable_references (h : Host) (d : Document) (position : Position)
    (word : option text) (token : nat → bool) (st : state)
    (o : outcome (list Location * state)) :
    reachable st →
    provideReferences h d position word token st = Some o →
    reachable (after o)
| reachable_definition (h : Host) (d : Document) (position : Position)
    (word : option text) (st st' : state) (result : option (list Location)) :
    reachable st →
    provideDefinition h d position word st = Some (result, st') →
    reachable st'.

(** ** The matcher, step by step *)

(** A pattern without capture groups. *)
Fixpoint groupless (r : regex) : bool :=
  match r with
  | Seq r1 r2 | Alt r1 r2 => groupless r1 && groupless r2
  | Group _ _ => false
  | _ => true
  end.

(** A state with one more capture. *)
Definition with_cap (n : nat) (w : text) (st : mstate) : mstate :=
  MState (ms_prev st) (ms_rest st) (ms_pos st) ((n, w) :: ms_caps st).

(** The code unit at the head of [s], if there is one, is not in [p]. *)
Definition stops (p : ascii → bool) (s : text) : Prop :=
  match s with
  | c :: _ => p c = false
  | [] => True
  end.

(** ** Requests *)

(** What [isInAddStoresObjectLiteral] looks at: the trimmed text before
    the cursor, and which lines have a brace or a call of [addStores]. *)
Definition shorthandPrefix (d : Document) (position : Position) : text :=
  JsString.trim (firstn (character position) (lineAt d (line position))).

Definition hasBrace (d : Document) (n : nat) : bool :=
  JsString.includes (lineAt d n) (str "{").

Definition hasCall (d : Document) (n : nat) : bool :=
  JsString.includes (lineAt d n) (str "addStores(").

(** The line of the request has [this.] followed by the word, with no
    word character after it. *)
Definition accessOnLine (d : Document) (position : Position) (word : text)
    : Prop :=
  ∃ a b, lineAt d (line position) = a ++ str "this." ++ word ++ b
    ∧ is_word_at (head b) = false.

(** What the providers return from a request on a component. *)
Definition definitions_of (r : option (list Location * state))
    : option (option (list Location) * state) :=
  match r with
  | Some (locations, st') => Some (Some locations, st')
  | None => None
  end.

(** ** Workspaces of the examples *)

Import Posix.

(** Nothing open, nothing readable. *)
Definition missing : Host := mkHost [] (fun _ => Throw) (fun _ => false) [].

(** The counter store and three components that use it. *)
Definition counter : text := str "/p/counter.store.ts".

Definition usesCount : text :=
  str "import { count } from './counter.store';
class W { render() { return this.count; } }".

Definition workspace : Host :=
  mkHost
    [(counter, str "export const count = 0;");
     (str "/p/widget.ts", usesCount);
     (str "/p/panel.ts", usesCount);
     (str "/p/footer.ts", usesCount)]
    (fun _ => Throw)
    (fun f => bool_decide (f = counter))
    [str "/p/widget.ts"; str "/p/panel.ts"; str "/p/footer.ts"].

(** Signalled once the first file has been scanned. *)
Definition afterFirst (i : nat) : bool := (1 <=? i)%nat.

(** A store whose file name begins with [+], open in an editor and
    indexed, and a component that imports from it. *)
Definition page : text := str "/p/+page.store.ts".

Definition pageWorkspace : Host :=
  mkHost
    [(page, str "export const count = 0;");
     (str "/p/view.ts", str "import { count } from './+page.store';")]
    (fun _ => Throw)
    (fun f => bool_decide (f = page))
    [str "/p/view.ts"; page].

Definition pageDocument : Document :=
  mkDocument page [str "export const count = 0;"].

Definition pageActivated : state := analyzeStoreFile pageWorkspace page initial.

(** The counter store on disk and indexed, then saved, which evicts its
    cached text. *)
Definition counterOnDisk : Host :=
  mkHost []
    (fun f => if bool_decide (f = counter)
              then Ok (str "export const count = 0;") else Throw)
    (fun f => bool_decide (f = counter))
    [counter].

Definition counterIndexed : state :=
  invalidateCache counter (analyzeStoreFile counterOnDisk counter initial).

(** The counter store open in an editor, and two saves of it 400 ms
    apart; the timeout of the first save fires when it is due. *)
Definition storeOpen : Host :=
  mkHost [(counter, str "export const count = 0;")] (fun _ => Throw)
    (fun _ => false) [counter].

Definition twoSaves : list (Host * event) :=
  [(storeOpen, Save counter);
   (storeOpen, Elapse 300);
   (storeOpen, Fire 0);
   (storeOpen, Elapse 100);
   (storeOpen, Save counter)].

(** A save, an edit and a save of the open counter store, 100 ms apart,
    with no timeout fired in between. *)
Definition threeSaves : list (Host * event) :=
  [(storeOpen, Save counter); (storeOpen, Elapse 100);
   (storeOpen, Change counter); (storeOpen, Elapse 100);
   (storeOpen, Save counter)].

(** A component that imports [count], then is edited to import [total]
    instead. *)
Definition widget : text := str "/p/widget.ts".

Definition stores (f : text) : bool :=
  bool_decide (f = str "/p/counter.store.ts")
  || bool_decide (f = str "/p/totals.store.ts").

Definition widgetBefore : Host :=
  mkHost [(widget, str "import { count } from './counter.store';")]
    (fun _ => Throw) stores [widget].

Definition widgetAfter : Host :=
  mkHost [(widget, str "import { total } from './totals.store';")]
    (fun _ => Throw) stores [widget].

Definition widgetAnalyzed : state :=
  ensureImportsAnalyzed widgetBefore widget initial.

(** A component that imports from a package. *)
Definition sharedImport : Host :=
  mkHost [(widget, str "import { shared } from 'pkg/shared.store.ts';")]
    (fun _ => Throw) (fun _ => false) [widget].

(** The same component with an access to [shared], and the file that
    [vscode.Uri.file] makes of the specifier open beside it. *)
Definition sharedOpen : Host :=
  mkHost
    [(widget, str "import { shared } from 'pkg/shared.store.ts';
class W { render() { return this.shared; } }");
     (str "/pkg/shared.store.ts", str "export const shared = 1;")]
    (fun _ => Throw) (fun _ => false) [widget].

(** A store that exports [port]. *)
Definition settings : text := str "/p/settings.store.ts".

Definition settingsOpen : Host :=
  mkHost [(settings, str "export const port = 8080;")] (fun _ => Throw)
    (fun _ => false) [settings].

(** The counter store open with all of its text deleted. *)
Definition counterEmptied : Host :=
  mkHost [(counter, [])] (fun _ => Throw) (fun _ => false) [counter].

(** The counter store open after [count] was renamed to [total]. *)
Definition counterRenamed : Host :=
  mkHost [(counter, str "export const total = 0;")] (fun _ => Throw)
    (fun _ => false) [counter].

(** The tracker after activation has indexed the open counter store. *)
Definition counterActivated : state := analyzeStoreFile storeOpen counter initial.

(** The widget component as the editor shows it. *)
Definition widgetDocument : Document :=
  mkDocument widget
    [str "import { count } from './counter.store';";
     str "class W { render() { return this.count; } }"].

(** A call of [addStores] with the brace of the object literal on a line
    of its own, and one with the brace on the line of the call. *)
Definition bracedBelow : Document :=
  mkDocument widget
    [str "addStores("; str "  this,"; str "  {"; str "    count,";
     str "  }"; str ");"].

Definition bracedInline : Document :=
  mkDocument widget [str "addStores(this, {"; str "  count,"; str "});"].

(** The text of the widget before its access to [count]. *)
Definition beforeAccess : text :=
  str "import { count } from './counter.store';
class W { render() { return ".

(** * Proofs *)

(** Settle a closed, decidable statement by evaluation. *)
Ltac by_evaluation := apply (bool_decide_unpack _); vm_compute; exact I.

(** Unfold what a pattern says about a match. *)
Ltac inv_matches :=
  repeat match goal with
  | H : matches _ _ _ _ |- _ =>
      progress cbn [matches Lit Plus Opt str list_ascii_of_string] in H
  | H : ∃ _, _ |- _ => destruct H
  | H : _ ∧ _ |- _ => destruct H
  | H : _ ∨ _ |- _ => destruct H
  end.

(** ** The matcher *)

Module RegExpFacts.

Lemma consumed_nil st : consumed [] st st.
Proof. repeat split; simpl; lia. Qed.

Lemma consumed_step c s' st :
  ms_rest st = c :: s' → consumed [c] st (step c s' st).
Proof. intros H. repeat split; simpl; [done | lia]. Qed.

Lemma last_app_from_option (u v : text) (o : option ascii) :
  from_option Some (from_option Some o (last u)) (last v)
  = from_option Some o (last (u ++ v)).
Proof.
  destruct v as [|c v] using rev_ind.
  - by rewrite app_nil_r.
  - by rewrite app_assoc, !last_snoc.
Qed.

Lemma consumed_app u v st mid st' :
  consumed u st mid → consumed v mid st' → consumed (u ++ v) st st'.
Proof.
  intros (Hr1 & Hp1 & Hv1) (Hr2 & Hp2 & Hv2). repeat split.
  - by rewrite Hr1, Hr2, app_assoc.
  - rewrite Hp2, Hp1, length_app. lia.
  - by rewrite Hv2, Hv1, last_app_from_option.
Qed.

Lemma starts_with_spec w s : starts_with w s = true ↔ ∃ s', s = w ++ s'.
Proof.
  revert s. induction w as [|c w IH]; intros s; simpl.
  - split; eauto.
  - destruct s as [|x s]; [split; [done | by intros [? ?]]|].
    rewrite andb_true_iff, IH. split.
    + intros [Hx [s' ->]]. apply Ascii.eqb_eq in Hx. subst. eauto.
    + intros [s' [= -> ->]]. split; [apply Ascii.eqb_refl | eauto].
Qed.

Lemma consumed_advance w st s' :
  ms_rest st = w ++ s' → consumed w st (advance w st).
Proof.
  intros H. repeat split; simpl.
  rewrite H. by rewrite drop_app_length.
Qed.

Lemma matches_consumed r : ∀ w st st', matches r w st st' → consumed w st st'.
Proof.
  induction r as [|c|p|r1 IH1 r2 IH2|r1 IH1 r2 IH2|g p|n r1 IH1|n| | |];
    intros w st st'; simpl.
  - intros [-> ->]. apply consumed_nil.
  - intros [-> (s' & H & ->)]. by apply consumed_step.
  - intros (c & s' & -> & _ & H & ->). by apply consumed_step.
  - intros (u & v & mid & -> & H1 & H2). eapply consumed_app; eauto.
  - intros [H|H]; eauto.
  - intros (_ & H & ->). by eapply consumed_advance.
  - intros (st1 & H & ->). apply IH1 in H. exact H.
  - destruct (cap n (ms_caps st)) as [u|].
    + intros (-> & H & ->). apply starts_with_spec in H as [s' H].
      by eapply consumed_advance.
    + intros [-> ->]. apply consumed_nil.
  - intros (-> & -> & _). apply consumed_nil.
  - intros (-> & -> & _). apply consumed_nil.
  - intros (-> & -> & _). apply consumed_nil.
Qed.

Lemma star_sound greedy p k : ∀ s prev pos caps res,
  star greedy p k prev pos caps s = Some res →
  ∃ w s', s = w ++ s' ∧ Forall (fun c => p c = true) w
    ∧ k (advance w (MState prev s pos caps)) = Some res.
Proof.
  assert (Hhere : ∀ s prev pos caps res,
    k (MState prev s pos caps) = Some res →
    ∃ w s', s = w ++ s' ∧ Forall (fun c => p c = true) w
      ∧ k (advance w (MState prev s pos caps)) = Some res).
  { intros s prev pos caps res H. exists [], s. split; [done|]. split; [constructor|].
    unfold advance; simpl. by rewrite Nat.add_0_r. }
  assert (Hmore : ∀ c s prev pos caps res,
    p c = true →
    (∃ w s', s = w ++ s' ∧ Forall (fun c => p c = true) w
      ∧ k (advance w (MState (Some c) s (S pos) caps)) = Some res) →
    ∃ w s', c :: s = w ++ s' ∧ Forall (fun c => p c = true) w
      ∧ k (advance w (MState prev (c :: s) pos caps)) = Some res).
  { intros c s prev pos caps res Hc (w & s' & -> & Hw & Hk).
    exists (c :: w), s'. split; [done|]. split; [by constructor|].
    revert Hk. unfold advance; simpl.
    replace (pos + S (length w)) with (S (pos + length w)) by lia.
    destruct w as [|x w] using rev_ind; [done|].
    by rewrite app_comm_cons, !last_snoc. }
  induction s as [|c s IH]; intros prev pos caps res; simpl.
  - apply Hhere.
  - destruct (p c) eqn:Hc; [|apply Hhere].
    destruct greedy.
    + destruct (star true p k (Some c) (S pos) caps s) eqn:Hs.
      * intros [= ->]. apply Hmore; [done|]. by apply IH.
      * apply Hhere.
    + destruct (k (MState prev (c :: s) pos caps)) eqn:Hk.
      * intros [= ->]. by apply Hhere.
      * intros Hs. apply Hmore; [done|]. by apply IH.
Qed.

(** Soundness of the matcher: a result comes from a state that the
    pattern reaches and on which the continuation gives that result. *)
Lemma run_sound r : ∀ k st res,
  run r k st = Some res → ∃ w st', matches r w st st' ∧ k st' = Some res.
Proof.
  induction r as [|c|p|r1 IH1 r2 IH2|r1 IH1 r2 IH2|g p|n r1 IH1|n| | |];
    intros k st res; simpl.
  - intros H. by exists [], st.
  - destruct (ms_rest st) as [|x s'] eqn:Hs; [done|].
    destruct (Ascii.eqb_spec x c) as [->|]; [|done].
    intros H. exists [c], (step c s' st). split; [|done]. eauto.
  - destruct (ms_rest st) as [|x s'] eqn:Hs; [done|].
    destruct (p x) eqn:Hp; [|done].
    intros H. exists [x], (step x s' st). split; [|done].
    exists x, s'. eauto.
  - intros H. apply IH1 in H as (u & mid & H1 & H).
    apply IH2 in H as (v & st' & H2 & H).
    exists (u ++ v), st'. split; [|done]. simpl. eauto 10.
  - destruct (run r1 k st) eqn:H1.
    + intros [= ->]. apply IH1 in H1 as (w & st' & ? & ?).
      exists w, st'. simpl. eauto.
    + intros H2. apply IH2 in H2 as (w & st' & ? & ?).
      exists w, st'. simpl. eauto.
  - intros H. apply star_sound in H as (w & s' & Hs & Hw & Hk).
    replace (MState (ms_prev st) (ms_rest st) (ms_pos st) (ms_caps st))
      with st in Hk by by destruct st.
    exists w, (advance w st). split; [|done]. simpl.
    split; [done|]. split; [|done].
    rewrite Hs. by rewrite drop_app_length.
  - intros H. apply IH1 in H as (w & st1 & H1 & H).
    eexists w, _. split; [|exact H]. simpl. eauto.
  - destruct (cap n (ms_caps st)) as [u|] eqn:Hc.
    + destruct (starts_with u (ms_rest st)) eqn:Hu; [|done].
      intros H. by exists u, (advance u st).
    + intros H. by exists [], st.
  - destruct (xorb _ _) eqn:Hx; [|done]. intros H. by exists [], st.
  - destruct (ms_prev st) eqn:Hp; [done|]. intros H. by exists [], st.
  - destruct (ms_rest st) eqn:Hs; [|done]. intros H. by exists [], st.
Qed.

Lemma exec_at_sound r prev pos s m :
  exec_at r prev pos s = Some m →
  ∃ w st', matches r w (MState prev s pos []) st'
    ∧ m = RMatch pos w (ms_caps st') ∧ s = w ++ ms_rest st'.
Proof.
  unfold exec_at. destruct (run r Some _) as [st'|] eqn:H; [|done].
  intros [= <-]. apply run_sound in H as (w & st1 & H & [= ->]).
  exists w, st'. split; [done|].
  apply matches_consumed in H as (Hr & Hp & _). simpl in *.
  rewrite Hp, Hr. replace (pos + length w - pos) with (length w) by lia.
  by rewrite take_app_length.
Qed.

Lemma prev_after_cons prev c a :
  prev_after (Some c) a = prev_after prev (c :: a).
Proof.
  unfold prev_after. destruct a as [|x a] using rev_ind; [done|].
  by rewrite app_comm_cons, !last_snoc.
Qed.

Lemma search_sound r : ∀ s prev pos m,
  search r prev pos s = Some m →
  ∃ a b, s = a ++ b
    ∧ exec_at r (prev_after prev a) (pos + length a) b = Some m.
Proof.
  induction s as [|c s IH]; intros prev pos m; simpl.
  - destruct (exec_at r prev pos []) eqn:H; [|done].
    intros [= ->]. exists [], []. by rewrite Nat.add_0_r.
  - destruct (exec_at r prev pos (c :: s)) eqn:H.
    + intros [= ->]. exists [], (c :: s). by rewrite Nat.add_0_r.
    + intros Hs. apply IH in Hs as (a & b & -> & Hs).
      exists (c :: a), b. split; [done|].
      rewrite <- prev_after_cons. simpl.
      by replace (pos + S (length a)) with (S pos + length a) by lia.
Qed.

Lemma search_complete r : ∀ a b prev pos,
  is_Some (exec_at r (prev_after prev a) (pos + length a) b) →
  is_Some (search r prev pos (a ++ b)).
Proof.
  induction a as [|c a IH]; intros b prev pos; simpl.
  - rewrite Nat.add_0_r. unfold prev_after. simpl.
    destruct b; simpl; intros [m ->]; eauto.
  - intros H. destruct (exec_at r prev pos (c :: a ++ b)); [eauto|].
    apply IH. rewrite (prev_after_cons prev).
    by replace (S pos + length a) with (pos + S (length a)) by lia.
Qed.

Lemma test_true r s :
  test r s = true ↔
  ∃ a b, s = a ++ b ∧ is_Some (exec_at r (prev_after None a) (length a) b).
Proof.
  unfold test, exec. split.
  - destruct (search r None 0 s) as [m|] eqn:H; [|done]. intros _.
    apply search_sound in H as (a & b & -> & H). exists a, b. eauto.
  - intros (a & b & -> & H).
    destruct (search_complete r a b None 0 H) as [m ->]. done.
Qed.

End RegExpFacts.

Import RegExpFacts.

(** ** Store files *)

Lemma matches_STORE_SUFFIX w st st' :
  matches STORE_SUFFIX w st st' →
  ms_rest st = w ∧ (w = str ".store.t" ∨ w = str ".store.ts").
Proof.
  intros H. pose proof (matches_consumed _ _ _ _ H) as (Hr & _).
  unfold STORE_SUFFIX in H. inv_matches; subst; simpl in *; subst; auto.
Qed.

Lemma isStoreFile_true p :
  isStoreFile p = true ↔
  str ".store.t" `suffix_of` p ∨ str ".store.ts" `suffix_of` p.
Proof.
  unfold isStoreFile. rewrite test_true. split.
  - intros (a & b & -> & [m H]).
    apply exec_at_sound in H as (w & st' & H & _).
    apply matches_STORE_SUFFIX in H as [Hr [Hw|Hw]]; simpl in Hr; subst b;
      rewrite Hw; [left|right]; by exists a.
  - intros [[a ->]|[a ->]]; exists a; eexists; (split; [done|]);
      unfold exec_at; simpl; eauto.
Qed.

(** [vscode.Uri.file] keeps the end of a path. *)
Lemma isStoreFile_uriFile p :
  isStoreFile p = true → isStoreFile (uriFile p) = true.
Proof.
  rewrite !isStoreFile_true. unfold uriFile.
  destruct (JsString.startsWith _ _); [done|].
  intros [H|H]; [left|right]; by apply suffix_cons_r.
Qed.

(** C6, as amended.  [isStoreFile] holds for every path that ends in
    [.store.ts], and fails for every path that ends neither in
    [.store.ts] nor in [.store.t]; a path ending in [.store.tsx] is among
    the latter. *)
Theorem isStoreFile_suffix (p : text) :
  (str ".store.ts" `suffix_of` p → isStoreFile p = true)
  ∧ (¬ str ".store.ts" `suffix_of` p → ¬ str ".store.t" `suffix_of` p →
     isStoreFile p = false).
Proof.
  split.
  - intros H. apply isStoreFile_true. by right.
  - intros H1 H2. apply not_true_is_false. rewrite isStoreFile_true. tauto.
Qed.

Lemma suffix_of_length_ne (a b p : text) :
  a `suffix_of` p → length a = length b → a ≠ b → ¬ b `suffix_of` p.
Proof.
  intros [k ->] Hl Hne [k' H]. apply Hne.
  apply app_inj_2 in H; [by destruct H|done].
Qed.

Lemma isStoreFile_suffix_witness :
  isStoreFile (str "/p/counter.store.ts") = true
  ∧ isStoreFile (str "/p/counter.store.tsx") = false.
Proof.
  split.
  - apply (proj1 (isStoreFile_suffix (str "/p/counter.store.ts"))).
    by exists (str "/p/counter").
  - apply (proj2 (isStoreFile_suffix (str "/p/counter.store.tsx"))).
    + apply (suffix_of_length_ne (str "store.tsx")); [|done..].
      by exists (str "/p/counter.").
    + apply (suffix_of_length_ne (str "tore.tsx")); [|done..].
      by exists (str "/p/counter.s").
Defined.

(** C6, counterexample: a path that ends in [.store.tsx] is not a store
    file. *)
Lemma isStoreFile_tsx :
  str ".store.tsx" `suffix_of` str "/p/counter.store.tsx"
  ∧ isStoreFile (str "/p/counter.store.tsx") = false.
Proof. split; [by exists (str "/p/counter")|reflexivity]. Qed.

(** ** The text cache *)

Lemma find_closed (h : Host) (filePath : text) :
  ¬ isOpen h filePath →
  List.find (fun doc => bool_decide (fst doc = filePath)) (textDocuments h) = None.
Proof.
  unfold isOpen. induction (textDocuments h) as [|d l IH]; simpl; [done|].
  intros H. case_bool_decide as Hd.
  - destruct H. rewrite Hd. left.
  - apply IH. intros H'. apply H. by right.
Qed.

(** C9.  A file that is not open, not cached and whose read fails has no
    text: [getDocumentText] gives [undefined] and leaves the tracker as it
    is, and [findStoreDefinitions] gives the empty list, for every name and
    for every path that it is given for this file, that is every path
    whose [vscode.Uri.file] is the file. *)
Theorem getDocumentText_unreadable (h : Host) (filePath : text) (st : state) :
  ¬ isOpen h filePath →
  fileCache st !! filePath = None →
  readFile h filePath = Throw →
  getDocumentText h filePath st = (None, st)
  ∧ ∀ storeFilePath storeName,
      uriFile storeFilePath = filePath →
      findStoreDefinitions h storeFilePath storeName st = Some ([], st).
Proof.
  intros Hopen Hcache Hread.
  assert (Hget : getDocumentText h filePath st = (None, st)).
  { unfold getDocumentText. by rewrite (find_closed _ _ Hopen), Hcache, Hread. }
  split; [done|]. intros storeFilePath storeName Huri.
  unfold findStoreDefinitions. cbv zeta. by rewrite Huri, Hget.
Qed.

(** What [getDocumentText] gives when it gives no text. *)
Lemma getDocumentText_None (h : Host) (filePath : text) (st : state) :
  fst (getDocumentText h filePath st) = None →
  getDocumentText h filePath st = (None, st).
Proof.
  unfold getDocumentText.
  destruct (List.find _ _) as [d|].
  - by case_bool_decide.
  - destruct (fileCache st !! filePath); [done|].
    by destruct (readFile h filePath).
Qed.

(** C10.  When the text of the file is unavailable, [analyzeStoreFile]
    changes neither index, so the names the file exported before are
    still found. *)
Theorem analyzeStoreFile_absent (h : Host) (filePath : text) (st : state) :
  fst (getDocumentText h filePath st) = None →
  storeFileToNamesMap (analyzeStoreFile h filePath st) = storeFileToNamesMap st
  ∧ storeNameToFilesMap (analyzeStoreFile h filePath st) = storeNameToFilesMap st
  ∧ ∀ file name,
      isStoreVariable file name (analyzeStoreFile h filePath st)
      = isStoreVariable file name st.
Proof.
  intros H. apply getDocumentText_None in H.
  unfold analyzeStoreFile. by rewrite H.
Qed.

Lemma getDocumentText_unreadable_witness :
  getDocumentText missing (str "/p/gone.store.ts") initial = (None, initial)
  ∧ findStoreDefinitions missing (str "/p/gone.store.ts") (str "count") initial
    = Some ([], initial)
  ∧ findStoreDefinitions missing (str "p/gone.store.ts") (str "count") initial
    = Some ([], initial).
Proof.
  destruct (getDocumentText_unreadable missing (str "/p/gone.store.ts") initial)
    as [H1 H2].
  - unfold isOpen. simpl. apply not_elem_of_nil.
  - reflexivity.
  - reflexivity.
  - split; [exact H1|]. split; apply H2; reflexivity.
Defined.

Lemma analyzeStoreFile_absent_witness :
  isStoreVariable (str "/p/counter.store.ts") (str "count") counterIndexed = true
  ∧ isStoreVariable (str "/p/counter.store.ts") (str "count")
      (analyzeStoreFile missing (str "/p/counter.store.ts") counterIndexed) = true.
Proof.
  split; [vm_compute; reflexivity|].
  destruct (analyzeStoreFile_absent missing (str "/p/counter.store.ts")
              counterIndexed) as (_ & _ & H).
  - vm_compute. reflexivity.
  - rewrite H. vm_compute. reflexivity.
Defined.

(** ** The store index *)

Section Index.

Implicit Types (fwd rev : gmap text (gset text)) (file name : text).

Lemma addExport_spec file newSet rev m :
  let name := default [] (group 2 m) in
  let acc := addExport file (newSet, rev) m in
  fst acc = {[name]} ∪ newSet
  ∧ (∀ n g, g ∈ filesOf (snd acc) n
            ↔ g ∈ filesOf rev n ∨ (g = file ∧ n = name))
  ∧ (noEmptyEntry rev → noEmptyEntry (snd acc)).
Proof.
  simpl. set (name := default [] (group 2 m)).
  set (rev1 := match rev !! name with Some _ => rev | None => <[name:=∅]> rev end).
  assert (H1 : ∀ n, filesOf rev1 n = filesOf rev n).
  { intros n. unfold rev1, filesOf. destruct (rev !! name) eqn:E; [done|].
    destruct (decide (n = name)) as [->|Hne].
    - by rewrite lookup_insert_eq, E.
    - by rewrite lookup_insert_ne. }
  split; [done|]. split.
  - intros n g. unfold filesOf at 1.
    destruct (decide (n = name)) as [->|Hne].
    + rewrite lookup_insert_eq. simpl. fold (filesOf rev1 name). rewrite H1.
      set_solver.
    + rewrite lookup_insert_ne by done. fold (filesOf rev1 n). rewrite H1.
      naive_solver.
  - intros Hne n files. destruct (decide (n = name)) as [->|Hn].
    + rewrite lookup_insert_eq. intros [= <-]. set_solver.
    + rewrite lookup_insert_ne by done. unfold rev1.
      destruct (rev !! name) eqn:E; [apply Hne|].
      rewrite lookup_insert_ne by done. apply Hne.
Qed.

Lemma foldl_addExport file ms : ∀ newSet rev,
  let acc := foldl (addExport file) (newSet, rev) ms in
  (∀ n, n ∈ fst acc ↔ n ∈ newSet ∨ n ∈ exported ms)
  ∧ (∀ n g, g ∈ filesOf (snd acc) n
            ↔ g ∈ filesOf rev n ∨ (g = file ∧ n ∈ exported ms))
  ∧ (noEmptyEntry rev → noEmptyEntry (snd acc)).
Proof.
  induction ms as [|m ms IH]; intros newSet rev.
  - simpl. split; [|split]; [set_solver..|done].
  - cbn [foldl exported map].
    destruct (addExport_spec file newSet rev m) as (Hnew & Hrev & Hne).
    destruct (addExport file (newSet, rev) m) as [newSet1 rev1].
    simpl in Hnew, Hrev, Hne. subst newSet1.
    destruct (IH ({[default [] (group 2 m)]} ∪ newSet) rev1) as (IH1 & IH2 & IH3).
    split; [|split].
    + intros n. specialize (IH1 n). fold (exported ms).
      rewrite elem_of_union, elem_of_singleton in IH1.
      rewrite elem_of_cons. tauto.
    + intros n g. specialize (IH2 n g). specialize (Hrev n g).
      fold (exported ms). rewrite elem_of_cons. tauto.
    + auto.
Qed.

Lemma dropExport_spec file newSet rev oldName :
  (∀ n g, g ∈ filesOf (dropExport file newSet rev oldName) n
          ↔ g ∈ filesOf rev n ∧ ¬ (g = file ∧ n = oldName ∧ oldName ∉ newSet))
  ∧ (noEmptyEntry rev → noEmptyEntry (dropExport file newSet rev oldName)).
Proof.
  unfold dropExport. case_bool_decide as Hin; [split; [naive_solver|done]|].
  destruct (rev !! oldName) as [files|] eqn:E.
  - destruct (size (files ∖ {[file]}) =? 0)%nat eqn:Hsz.
    + apply Nat.eqb_eq, size_empty_iff in Hsz. split.
      * intros n g. unfold filesOf. destruct (decide (n = oldName)) as [->|Hn].
        -- rewrite lookup_delete_eq, E. simpl. set_solver.
        -- rewrite lookup_delete_ne by done. naive_solver.
      * intros Hne n fs. destruct (decide (n = oldName)) as [->|Hn].
        -- by rewrite lookup_delete_eq.
        -- rewrite lookup_delete_ne by done. apply Hne.
    + apply Nat.eqb_neq in Hsz. rewrite size_empty_iff in Hsz. split.
      * intros n g. unfold filesOf. destruct (decide (n = oldName)) as [->|Hn].
        -- rewrite lookup_insert_eq, E. simpl. set_solver.
        -- rewrite lookup_insert_ne by done. naive_solver.
      * intros Hne n fs. destruct (decide (n = oldName)) as [->|Hn].
        -- rewrite lookup_insert_eq. intros [= <-]. set_solver.
        -- rewrite lookup_insert_ne by done. apply Hne.
  - split; [|done]. intros n g. unfold filesOf.
    destruct (decide (n = oldName)) as [->|Hn]; [|naive_solver].
    rewrite E. set_solver.
Qed.

Lemma foldl_dropExport file newSet names : ∀ rev,
  (∀ n g, g ∈ filesOf (foldl (dropExport file newSet) rev names) n
          ↔ g ∈ filesOf rev n ∧ ¬ (g = file ∧ n ∈ names ∧ n ∉ newSet))
  ∧ (noEmptyEntry rev → noEmptyEntry (foldl (dropExport file newSet) rev names)).
Proof.
  induction names as [|o names IH]; intros rev; simpl.
  - split; [|done]. intros n g. set_solver.
  - destruct (dropExport_spec file newSet rev o) as [H1 H2].
    destruct (IH (dropExport file newSet rev o)) as [IH1 IH2].
    split; [|auto]. intros n g. specialize (IH1 n g). specialize (H1 n g).
    rewrite elem_of_cons. split.
    + intros HA. apply IH1 in HA as [HB Hn1]. apply H1 in HB as [HC Hn2].
      split; [done|]. intros (-> & [->|Hin] & Hnot); [apply Hn2|apply Hn1]; auto.
    + intros [HC Hn]. apply IH1. split.
      * apply H1. split; [done|]. intros (-> & -> & Hnot). apply Hn. auto.
      * intros (-> & Hin & Hnot). apply Hn. auto.
Qed.

End Index.

Lemma getDocumentText_index (h : Host) (filePath : text) (st : state) :
  storeFileToNamesMap (snd (getDocumentText h filePath st)) = storeFileToNamesMap st
  ∧ storeNameToFilesMap (snd (getDocumentText h filePath st)) = storeNameToFilesMap st.
Proof.
  unfold getDocumentText. destruct (List.find _ _) as [d|].
  - case_bool_decide; [done|]. unfold scheduleAnalysisForStore.
    destruct (isStoreFile filePath); [|done].
    simpl. by destruct (pendingAnalysis st !! filePath).
  - destruct (fileCache st !! filePath); [done|].
    by destruct (readFile h filePath).
Qed.

Lemma analyzeStoreFile_invariant (h : Host) (filePath : text) (st : state) :
  indexInvariant st → indexInvariant (analyzeStoreFile h filePath st).
Proof.
  intros [Hc Hne]. unfold analyzeStoreFile.
  destruct (getDocumentText_index h filePath st) as [Hf Hr].
  destruct (getDocumentText h filePath st) as [t st1]. simpl in Hf, Hr.
  assert (Hst1 : indexInvariant st1) by (unfold indexInvariant; by rewrite Hf, Hr).
  destruct t as [[|c t]|]; [done| |done].
  generalize (exec_all EXPORT_PATTERN (c :: t)). intros ms.
  destruct (foldl_addExport filePath ms ∅ (storeNameToFilesMap st1))
    as (Hnew & Hrev1 & Hne1).
  destruct (foldl (addExport filePath) _ _) as [newSet rev1].
  simpl in Hnew, Hrev1, Hne1.
  destruct (foldl_dropExport filePath newSet
              (elements (default ∅ (storeFileToNamesMap st1 !! filePath))) rev1)
    as [Hrev2 Hne2].
  rewrite Hf, Hr in *. split; simpl.
  - intros n g. specialize (Hrev2 n g). specialize (Hrev1 n g).
    specialize (Hnew n). pose proof (Hc n g) as Hcg.
    rewrite elem_of_elements in Hrev2. rewrite elem_of_empty in Hnew.
    fold (namesOf (storeFileToNamesMap st) filePath) in Hrev2.
    unfold namesOf at 1. destruct (decide (g = filePath)) as [->|Hg].
    + rewrite lookup_insert_eq. simpl.
      assert (Heq : filePath = filePath) by done.
      destruct (decide (n ∈ newSet)); tauto.
    + rewrite lookup_insert_ne by done.
      fold (namesOf (storeFileToNamesMap st) g). tauto.
  - auto.
Qed.

Lemma initial_invariant : indexInvariant initial.
Proof.
  split.
  - intros n f. unfold namesOf, filesOf. simpl. by rewrite !lookup_empty.
  - intros n fs. simpl. by rewrite lookup_empty.
Qed.

(** C3.  From the empty tracker, after any sequence of [analyzeStoreFile]
    calls, a name is in the forward entry of a file exactly when the file
    is in the reverse entry of the name, and no reverse entry is empty. *)
Theorem index_consistency (calls : list (Host * text)) :
  let st := analyzeAll calls initial in
  (∀ name file,
     name ∈ default ∅ (storeFileToNamesMap st !! file)
     ↔ file ∈ default ∅ (storeNameToFilesMap st !! name))
  ∧ (∀ name files, storeNameToFilesMap st !! name = Some files → files ≠ ∅).
Proof.
  simpl. change (indexInvariant (analyzeAll calls initial)).
  unfold analyzeAll. generalize initial_invariant. generalize initial.
  induction calls as [|c calls IH]; intros st H; simpl; [done|].
  apply IH. by apply analyzeStoreFile_invariant.
Qed.

(** ** Import bindings *)

(** [invalidateCache] and [getDocumentText] forget that the file was
    analysed but keep its entry of [componentImportsMap], which is what
    [ensureImportsAnalyzed] looks at. *)
Lemma invalidateCache_componentImportsMap (filePath : text) (st : state) :
  componentImportsMap (invalidateCache filePath st) = componentImportsMap st.
Proof.
  unfold invalidateCache. destruct (isStoreFile filePath); [|done].
  unfold scheduleAnalysisForStore. simpl.
  by destruct (pendingAnalysis st !! filePath).
Qed.

Lemma getDocumentText_componentImportsMap (h : Host) (filePath : text)
    (st : state) :
  componentImportsMap (snd (getDocumentText h filePath st))
  = componentImportsMap st.
Proof.
  unfold getDocumentText. destruct (List.find _ _) as [d|].
  - case_bool_decide; [done|]. unfold scheduleAnalysisForStore.
    destruct (isStoreFile filePath); [|done].
    simpl. by destruct (pendingAnalysis st !! filePath).
  - destruct (fileCache st !! filePath); [done|].
    by destruct (readFile h filePath).
Qed.

Lemma ensureImportsAnalyzed_memoized {path : PathModule} (h : Host)
    (filePath : text) (st : state) :
  is_Some (componentImportsMap st !! filePath) →
  ensureImportsAnalyzed h filePath st = st.
Proof. intros [m H]. unfold ensureImportsAnalyzed. by rewrite H. Qed.

(** So bindings, once memoized, survive every invalidation, whatever the
    text has become. *)
Lemma memoized_bindings_survive {path : PathModule} (h : Host)
    (filePath : text) (st : state) (bindings : gmap text text) :
  componentImportsMap st !! filePath = Some bindings →
  componentImportsMap (ensureImportsAnalyzed h filePath (invalidateCache filePath st))
    !! filePath = Some bindings
  ∧ componentImportsMap
      (ensureImportsAnalyzed h filePath (snd (getDocumentText h filePath st)))
    !! filePath = Some bindings.
Proof.
  intros H. split.
  - rewrite ensureImportsAnalyzed_memoized;
      rewrite invalidateCache_componentImportsMap; [done|eauto].
  - rewrite ensureImportsAnalyzed_memoized;
      rewrite getDocumentText_componentImportsMap; [done|eauto].
Qed.

(** C1, the code at the failing input.  The bindings of the first text
    are memoized; after the edit, neither [invalidateCache] nor a
    [getDocumentText] that sees the new text makes
    [ensureImportsAnalyzed] compute the bindings of the new text (the last
    line), although both drop the file from [analyzedFiles]. *)
Theorem stale_import_bindings :
  componentImportsMap widgetAnalyzed !! widget
    = Some {[ str "count" := str "/p/counter.store.ts" ]}
  ∧ bool_decide (widget ∈ analyzedFiles (invalidateCache widget widgetAnalyzed))
    = false
  ∧ componentImportsMap
      (ensureImportsAnalyzed widgetAfter widget
         (invalidateCache widget widgetAnalyzed)) !! widget
    = Some {[ str "count" := str "/p/counter.store.ts" ]}
  ∧ bool_decide
      (widget ∈ analyzedFiles (snd (getDocumentText widgetAfter widget widgetAnalyzed)))
    = false
  ∧ componentImportsMap
      (ensureImportsAnalyzed widgetAfter widget
         (snd (getDocumentText widgetAfter widget widgetAnalyzed))) !! widget
    = Some {[ str "count" := str "/p/counter.store.ts" ]}
  ∧ componentImportsMap (ensureImportsAnalyzed widgetAfter widget initial) !! widget
    = Some {[ str "total" := str "/p/totals.store.ts" ]}.
Proof. by_evaluation. Qed.

(** ** Definitions *)

(** C2, the code at the failing input.  The file exports [port], whose
    identifier is at offsets 13 to 17 of the text; the one location that
    [findStoreDefinitions] returns covers offsets 2 to 6, the letters
    [port] of the keyword [export]. *)
Theorem definition_span_in_keyword :
  isStoreVariable settings (str "port") (analyzeStoreFile settingsOpen settings initial)
    = true
  ∧ firstn 4 (skipn 13 (str "export const port = 8080;")) = str "port"
  ∧ fst <$> findStoreDefinitions settingsOpen settings (str "port") initial
    = Some [mkLocation settings (mkRange (mkPosition 0 2) (mkPosition 0 6))].
Proof. by_evaluation. Qed.

(** ** Which imports bind *)

Section Bindings.

Context {path : PathModule}.

Lemma resolveImportPath_bare (h : Host) (importPath baseDir : text) :
  relative importPath = false → resolveImportPath h importPath baseDir = importPath.
Proof. unfold relative, resolveImportPath. by intros ->. Qed.

(** An import with a bare specifier that is not itself a store path adds
    nothing. *)
Lemma addImport_bare (h : Host) (filePath : text) (storeMap : gmap text text)
    (m : rmatch) :
  relative (specifier m) = false → isStoreFile (specifier m) = false →
  addImport h filePath storeMap m = storeMap.
Proof.
  intros Hr Hs. unfold addImport. fold (specifier m).
  by rewrite (resolveImportPath_bare _ _ _ Hr), Hs.
Qed.

(** What [analyzeComponentImports] stores for a file it analyses. *)
Lemma analyzeComponentImports_stored (h : Host) (filePath : text) (st : state)
    (bindings : gmap text text) :
  componentImportsMap st !! filePath = None →
  componentImportsMap (analyzeComponentImports h filePath st) !! filePath
    = Some bindings →
  ∃ t, fst (getDocumentText h filePath st) = Some t
    ∧ bindings = foldl (addImport h filePath) ∅ (exec_all IMPORT_PATTERN t).
Proof.
  intros Hnone. unfold analyzeComponentImports.
  case_bool_decide; [by rewrite Hnone|].
  pose proof (getDocumentText_componentImportsMap h filePath st) as Hc.
  destruct (getDocumentText h filePath st) as [t st1]. simpl in Hc.
  destruct t as [[|c t]|]; simpl; rewrite ?Hc, ?Hnone; try done.
  rewrite lookup_insert_eq. intros [= <-]. eauto.
Qed.

(** A piece adds the binding of its alias, and nothing else. *)
Lemma addBinding_aliasOf (resolved : text) (storeMap : gmap text text) (n : text) :
  addBinding resolved storeMap n
  = match aliasOf n with
    | Some alias => <[alias := resolved]> storeMap
    | None => storeMap
    end.
Proof. unfold addBinding, aliasOf. by destruct (exec IMPORT_NAME n). Qed.

Lemma foldl_addBinding_named (resolved : text) (pieces : list text) :
  ∀ (storeMap : gmap text text) alias target,
  foldl (addBinding resolved) storeMap pieces !! alias = Some target →
  storeMap !! alias = Some target
  ∨ (target = resolved ∧ ∃ n, n ∈ pieces ∧ aliasOf n = Some alias).
Proof.
  induction pieces as [|n pieces IH]; intros storeMap alias target; simpl; [auto|].
  intros H. apply IH in H as [H|(-> & n' & Hin & Hn')].
  - rewrite addBinding_aliasOf in H. destruct (aliasOf n) as [a|] eqn:Ha; [|auto].
    revert H. rewrite lookup_insert. case_decide as Heq; [|auto].
    intros [= <-]. right. split; [done|]. exists n. subst a. split; [left|done].
  - right. split; [done|]. exists n'. split; [by right|done].
Qed.

Lemma foldl_addBinding_bound (resolved : text) (pieces : list text) :
  ∀ (storeMap : gmap text text) alias,
  is_Some (storeMap !! alias) ∨ (∃ n, n ∈ pieces ∧ aliasOf n = Some alias) →
  is_Some (foldl (addBinding resolved) storeMap pieces !! alias).
Proof.
  induction pieces as [|n pieces IH]; intros storeMap alias; simpl.
  - intros [H|(n & Hin & _)]; [done|]. by apply elem_of_nil in Hin.
  - intros H. apply IH. rewrite addBinding_aliasOf.
    destruct H as [H|(n' & Hin & Hn')].
    + left. destruct (aliasOf n) as [a|]; [|done].
      rewrite lookup_insert. by case_decide.
    + apply elem_of_cons in Hin as [->|Hin].
      * left. rewrite Hn'. by rewrite lookup_insert_eq.
      * right. eauto.
Qed.

Lemma foldl_addImport_named (h : Host) (filePath : text) (ms : list rmatch) :
  ∀ (storeMap : gmap text text) alias target,
  foldl (addImport h filePath) storeMap ms !! alias = Some target →
  storeMap !! alias = Some target
  ∨ ∃ m, m ∈ ms ∧ names m alias
      ∧ target = target_of h filePath m ∧ isStoreFile target = true.
Proof.
  induction ms as [|m ms IH]; intros storeMap alias target; simpl; [auto|].
  intros H. apply IH in H as [H|(m' & Hin & H)].
  - unfold addImport in H. fold (specifier m) in H. fold (rawNames m) in H.
    fold (target_of h filePath m) in H.
    destruct (isStoreFile (target_of h filePath m)) eqn:Hs; [|auto].
    apply foldl_addBinding_named in H as [H|[-> Hn]]; [auto|].
    right. exists m. split; [left|done].
  - right. exists m'. split; [by right|done].
Qed.

Lemma foldl_addImport_bound (h : Host) (filePath : text) (ms : list rmatch) :
  ∀ (storeMap : gmap text text) alias,
  is_Some (storeMap !! alias)
  ∨ (∃ m, m ∈ ms ∧ names m alias ∧ isStoreFile (target_of h filePath m) = true) →
  is_Some (foldl (addImport h filePath) storeMap ms !! alias).
Proof.
  induction ms as [|m ms IH]; intros storeMap alias; simpl.
  - intros [H|(m & Hin & _)]; [done|]. by apply elem_of_nil in Hin.
  - intros H. apply IH.
    unfold addImport. fold (specifier m). fold (rawNames m).
    fold (target_of h filePath m).
    destruct H as [H|(m' & Hin & Hn & Hs)].
    + left. destruct (isStoreFile (target_of h filePath m)); [|done].
      apply foldl_addBinding_bound. by left.
    + apply elem_of_cons in Hin as [->|Hin].
      * left. rewrite Hs. apply foldl_addBinding_bound. by right.
      * right. eauto.
Qed.

(** C5, as amended.  The bindings that [analyzeComponentImports] records
    for a file are those of the imports of its text whose specifier, as
    [resolveImportPath] resolves it, is a store path.  A binding of an
    alias comes from an import that names the alias, and its target is
    what the specifier of that import resolves to, a store path; when the
    specifier starts neither with [./] nor with [../], the specifier
    itself is that store path.  In the other direction, an alias named by
    an import whose specifier resolves to a store path is bound. *)
Theorem bindings_from_store_imports (h : Host) (filePath : text) (st : state)
    (bindings : gmap text text) (alias : text) :
  componentImportsMap st !! filePath = None →
  componentImportsMap (analyzeComponentImports h filePath st) !! filePath
    = Some bindings →
  (∀ target, bindings !! alias = Some target →
     ∃ t m,
       fst (getDocumentText h filePath st) = Some t
       ∧ m ∈ exec_all IMPORT_PATTERN t
       ∧ names m alias
       ∧ target = resolveImportPath h (specifier m) (dirname filePath)
       ∧ isStoreFile target = true
       ∧ (relative (specifier m) = false →
          target = specifier m ∧ isStoreFile (specifier m) = true))
  ∧ (∀ t m,
       fst (getDocumentText h filePath st) = Some t →
       m ∈ exec_all IMPORT_PATTERN t →
       names m alias →
       isStoreFile (resolveImportPath h (specifier m) (dirname filePath)) = true →
       is_Some (bindings !! alias)).
Proof.
  intros Hnone Hstored.
  destruct (analyzeComponentImports_stored _ _ _ _ Hnone Hstored) as (t & Ht & ->).
  split.
  - intros target Hb.
    apply foldl_addImport_named in Hb as [Hb|(m & Hin & Hn & -> & Hs)];
      [by rewrite lookup_empty in Hb|].
    exists t, m. repeat split; try done.
    + unfold target_of. by apply resolveImportPath_bare.
    + unfold target_of in Hs. by rewrite resolveImportPath_bare in Hs.
  - intros t' m Ht' Hin Hn Hs. rewrite Ht in Ht'. injection Ht' as <-.
    apply foldl_addImport_bound. right. by exists m.
Qed.

End Bindings.

Lemma bindings_from_store_imports_witness :
  (∀ target,
     ({[ str "shared" := str "pkg/shared.store.ts" ]} : gmap text text)
       !! str "shared" = Some target →
     ∃ t m,
       fst (getDocumentText sharedImport widget initial) = Some t
       ∧ m ∈ exec_all IMPORT_PATTERN t
       ∧ names m (str "shared")
       ∧ target = resolveImportPath sharedImport (specifier m) (dirname widget)
       ∧ isStoreFile target = true
       ∧ (relative (specifier m) = false →
          target = specifier m ∧ isStoreFile (specifier m) = true))
  ∧ (∀ t m,
       fst (getDocumentText sharedImport widget initial) = Some t →
       m ∈ exec_all IMPORT_PATTERN t →
       names m (str "shared") →
       isStoreFile (resolveImportPath sharedImport (specifier m) (dirname widget))
         = true →
       is_Some (({[ str "shared" := str "pkg/shared.store.ts" ]} : gmap text text)
                  !! str "shared")).
Proof.
  apply (bindings_from_store_imports sharedImport widget initial
           {[ str "shared" := str "pkg/shared.store.ts" ]} (str "shared")).
  - reflexivity.
  - by_evaluation.
Defined.

(** C5, counterexample: an import whose specifier starts neither with
    [./] nor with [../] contributes a binding. *)
Lemma bare_specifier_binds :
  relative (str "pkg/shared.store.ts") = false
  ∧ componentImportsMap (ensureImportsAnalyzed sharedImport widget initial) !! widget
    = Some {[ str "shared" := str "pkg/shared.store.ts" ]}.
Proof. by_evaluation. Qed.

(** ** Cancellation *)

Section Cancellation.

Context {path : PathModule}.

Implicit Types (acc : list Location * gset text * state).

Lemma scanFile_prepend (h : Host) (storeFilePath storeName fsPath : text)
    (before results : list Location) (visited : gset text) (st : state) :
  scanFile h storeFilePath storeName fsPath (before ++ results, visited, st)
  = fmap (M := outcome) (prepend before)
      <$> scanFile h storeFilePath storeName fsPath (results, visited, st).
Proof.
  unfold scanFile. case_bool_decide; [done|].
  destruct (getDocumentText h fsPath st) as [[[|c t]|] st1]; try done.
  destruct (hasImportedStore _ _ _) as [[[|]|]|]; try done.
  destruct (findImportReferences _ _ _ _) as [imports visited1].
  destruct (findThisStoreReferences _ _ _ _) as [[accesses visited2]|]; [|done].
  simpl. by rewrite <- app_assoc.
Qed.

Lemma scanFiles_prepend (h : Host) (storeFilePath storeName : text)
    (token : nat → bool) (before : list Location) (files : list text) :
  ∀ i results visited st,
  scanFiles h storeFilePath storeName token i files (before ++ results, visited, st)
  = fmap (M := outcome) (prepend before)
      <$> scanFiles h storeFilePath storeName token i files (results, visited, st).
Proof.
  induction files as [|f files IH]; intros i results visited st;
    cbn [scanFiles]; [done|].
  destruct (token i); [done|].
  rewrite scanFile_prepend.
  destruct (scanFile h storeFilePath storeName f (results, visited, st))
    as [[[[results1 visited1] st1]|st1]|]; [|done..].
  simpl. apply IH.
Qed.

(** A fragment inside the modelled syntax is none that [hasImportedStore]
    rejects. *)
Lemma of_source_repeat (w : text) :
  is_Some (of_source w) → nothing_to_repeat w = false.
Proof.
  unfold of_source. destruct w as [|c w]; [done|]. simpl.
  destruct (plain c) eqn:Hc; [|by intros [? ?]]. intros _.
  destruct (Ascii.eqb c "*") eqn:H1.
  { apply Ascii.eqb_eq in H1. by subst c. }
  destruct (Ascii.eqb c "+") eqn:H2; [|done].
  apply Ascii.eqb_eq in H2. by subst c.
Qed.

(** With patterns inside the modelled syntax, a turn of the loop and the
    loop itself return. *)
Lemma scanFile_total (h : Host) (storeFilePath storeName fsPath : text) acc :
  is_Some (of_source storeName) →
  is_Some (of_source (stripTs (basename storeFilePath))) →
  ∃ acc', scanFile h storeFilePath storeName fsPath acc = Some (Returns acc').
Proof.
  intros [name Hn] Hb. pose proof (of_source_repeat _ Hb) as Hr.
  destruct Hb as [base Hb]. destruct acc as [[results visited] st].
  unfold scanFile. case_bool_decide; [eauto|].
  destruct (getDocumentText h fsPath st) as [[[|c t]|] st1]; eauto.
  unfold hasImportedStore, findThisStoreReferences. rewrite Hn, Hr, Hb.
  destruct (test _ _); [|eauto].
  destruct (findImportReferences _ _ _ _) as [imports visited1].
  destruct (foldl _ _ _) as [accesses visited2]. eauto.
Qed.

Lemma scanFiles_total (h : Host) (storeFilePath storeName : text)
    (token : nat → bool) (files : list text) :
  is_Some (of_source storeName) →
  is_Some (of_source (stripTs (basename storeFilePath))) →
  ∀ i acc, ∃ acc',
    scanFiles h storeFilePath storeName token i files acc = Some (Returns acc').
Proof.
  intros Hn Hb. induction files as [|f files IH]; intros i acc;
    cbn [scanFiles]; [eauto|].
  destruct (token i); [eauto|].
  destruct (scanFile_total h storeFilePath storeName f acc Hn Hb) as [acc' ->].
  apply IH.
Qed.

Lemma findStoreDefinitions_total (h : Host) (storeFilePath storeName : text)
    (st : state) :
  is_Some (of_source storeName) →
  is_Some (findStoreDefinitions h storeFilePath storeName st).
Proof.
  intros [name Hn]. unfold findStoreDefinitions. cbv zeta.
  destruct (getDocumentText h (uriFile storeFilePath) st) as [[[|c t]|] st1];
    eauto.
  rewrite Hn. eauto.
Qed.

(** A token that is first seen signalled at the head of turn [k] stops
    the loop there: the loop does what the uncancelled loop does on the
    first [k] files. *)
Lemma scanFiles_cancelled (h : Host) (storeFilePath storeName : text)
    (token : nat → bool) (files : list text) :
  ∀ k i acc,
  (∀ j, j < k → token (i + j) = false) →
  token (i + k) = true →
  scanFiles h storeFilePath storeName token i files acc
  = scanFiles h storeFilePath storeName (fun _ => false) i (firstn k files) acc.
Proof.
  induction files as [|f files IH]; intros k i acc Hlt Hk.
  - by rewrite take_nil.
  - destruct k as [|k]; cbn [scanFiles firstn].
    + rewrite Nat.add_0_r in Hk. by rewrite Hk.
    + rewrite <- (Nat.add_0_r i) at 1. rewrite Hlt by lia.
      destruct (scanFile h storeFilePath storeName f acc) as [[acc'|st']|];
        [|done..].
      apply IH.
      * intros j Hj. replace (S i + j) with (i + S j) by lia. apply Hlt. lia.
      * by replace (S i + k) with (i + S k) by lia.
Qed.

(** When no pattern of the search is rejected and the token is first seen
    signalled after [k] files, the search returns the definitions of the
    store file followed by what the loop without cancellation finds in
    the first [k] files and in no other. *)
Lemma cancelled_scan_is_partial (h : Host) (storeFilePath storeName : text)
    (token : nat → bool) (st : state) (k : nat) :
  is_Some (of_source storeName) →
  is_Some (of_source (stripTs (basename storeFilePath))) →
  (∀ j, j < k → token j = false) →
  token k = true →
  ∃ definitions st1 references visited st2,
    findStoreDefinitions h storeFilePath storeName st = Some (definitions, st1)
    ∧ scanFiles h storeFilePath storeName (fun _ => false) 0
        (firstn k (findFiles h)) ([], ∅, st1)
      = Some (Returns (references, visited, st2))
    ∧ findStoreVariableReferences h storeFilePath storeName token st
      = Some (Returns (definitions ++ references, st2)).
Proof.
  intros Hn Hb Hlt Hk.
  destruct (findStoreDefinitions_total h storeFilePath storeName st Hn)
    as [[definitions st1] Hd].
  destruct (scanFiles_total h storeFilePath storeName (fun _ => false)
              (firstn k (findFiles h)) Hn Hb 0 ([], ∅, st1))
    as [[[references visited] st2] Hs].
  exists definitions, st1, references, visited, st2.
  split; [done|]. split; [done|].
  unfold findStoreVariableReferences. rewrite Hd.
  rewrite (scanFiles_cancelled _ _ _ _ _ k) by done.
  pose proof (scanFiles_prepend h storeFilePath storeName (fun _ => false)
                definitions (firstn k (findFiles h)) 0 [] ∅ st1) as Hp.
  rewrite app_nil_r in Hp. by rewrite Hp, Hs.
Qed.

End Cancellation.

(** C7, the code at the failing input.  The store file [+page.store.ts]
    is open and indexed with its name [count], and a component imports
    the name from it.  The token is first seen signalled after one file.
    The base name of the store file is spliced into the pattern of
    [hasImportedStore] after [.*], which leaves the [+] with nothing to
    repeat: the turn for the first file raises, and so do
    [findStoreVariableReferences] and the request, where the claim has
    them return the definition and the references of that file. *)
Theorem cancelled_search_raises :
  isStoreFile page = true
  ∧ isStoreVariable page (str "count") pageActivated = true
  ∧ stripTs (basename page) = str "+page.store"
  ∧ afterFirst 0 = false
  ∧ afterFirst 1 = true
  ∧ fst <$> findStoreDefinitions pageWorkspace page (str "count") pageActivated
    = Some [mkLocation page (mkRange (mkPosition 0 13) (mkPosition 0 18))]
  ∧ hasImportedStore (str "import { count } from './+page.store';") page
      (str "count") = Some Throw
  ∧ (∃ st, findStoreVariableReferences pageWorkspace page (str "count")
             afterFirst pageActivated = Some (Raises st))
  ∧ ∃ st, provideReferences pageWorkspace pageDocument (mkPosition 0 13)
            (Some (str "count")) afterFirst pageActivated = Some (Raises st).
Proof.
  repeat (split; [by_evaluation|]). split.
  - exists (match findStoreVariableReferences pageWorkspace page (str "count")
                    afterFirst pageActivated with
            | Some o => after o
            | None => initial
            end).
    by_evaluation.
  - exists (match provideReferences pageWorkspace pageDocument (mkPosition 0 13)
                    (Some (str "count")) afterFirst pageActivated with
            | Some o => after o
            | None => initial
            end).
    by_evaluation.
Qed.

(** The search of the workspace, cancelled after the first file: the
    definition and the two occurrences in that file. *)
Example cancelled_after_first :
  locations
    (findStoreVariableReferences workspace counter (str "count") afterFirst initial)
  = Some [mkLocation counter (mkRange (mkPosition 0 13) (mkPosition 0 18));
          mkLocation (str "/p/widget.ts") (mkRange (mkPosition 0 9) (mkPosition 0 14));
          mkLocation (str "/p/widget.ts") (mkRange (mkPosition 1 33) (mkPosition 1 38))].
Proof. by_evaluation. Qed.

(** ** Debouncing *)

(** C8, the code at the failing input.  After the run the clock is at
    400, and two timeouts are live for the same file, due at 600 and at
    700; [pendingAnalysis] knows the second only.  The callback of the
    first timeout rescheduled the file through [getDocumentText] and then
    deleted the entry of the new timeout, so the second save found nothing
    to cancel. *)
Theorem timeouts_stack :
  ∃ st, run_events twoSaves initial = Some st
    ∧ clock st = 400
    ∧ timers st !! 1 = Some (600, counter)
    ∧ timers st !! 2 = Some (700, counter)
    ∧ length (scheduledFor counter st) = 2
    ∧ pendingAnalysis st !! counter = Some 2.
Proof.
  exists (default initial (run_events twoSaves initial)). by_evaluation.
Qed.

(** ** Positions *)

Module PositionFacts.

Import Char.

Lemma exec_at_LINE_SEPARATOR prev pos s :
  (fun m => length (m_text m)) <$> exec_at LINE_SEPARATOR prev pos s = lineBreak s.
Proof.
  unfold exec_at, LINE_SEPARATOR, Opt, lineBreak.
  destruct s as [|c s]; [done|]. simpl.
  destruct (Ascii.eqb_spec c CR) as [->|Hcr].
  - destruct s as [|d s]; simpl.
    + by replace (S pos - pos) with 1 by lia.
    + destruct (Ascii.eqb d LF); simpl.
      * by replace (S (S pos) - pos) with 2 by lia.
      * by replace (S pos - pos) with 1 by lia.
  - destruct (Ascii.eqb_spec c LF) as [->|Hlf]; simpl; [|done].
    by replace (S pos - pos) with 1 by lia.
Qed.

Lemma split_from_line prev piece c s' :
  JsString.split_from LINE_SEPARATOR prev 0 piece (c :: s')
  = match lineBreak (c :: s') with
    | Some n =>
        piece :: JsString.split_from LINE_SEPARATOR (Some c) (n - 1) [] s'
    | None => JsString.split_from LINE_SEPARATOR (Some c) 0 (piece ++ [c]) s'
    end.
Proof.
  pose proof (exec_at_LINE_SEPARATOR prev 0 (c :: s')) as H.
  cbn [JsString.split_from].
  destruct (exec_at LINE_SEPARATOR prev 0 (c :: s')) as [m|].
  - change (Some (length (m_text m)) = lineBreak (c :: s')) in H.
    rewrite <- H.
    destruct (length (m_text m)) as [|j];
      [|by replace (S j - 1) with j by lia].
    exfalso. revert H. unfold lineBreak. repeat case_match; discriminate.
  - change (None = lineBreak (c :: s')) in H. by rewrite <- H.
Qed.

Lemma last_cons_nonempty (x : text) (l : list text) :
  l ≠ [] → List.last (x :: l) [] = List.last l [].
Proof. by destruct l. Qed.

Lemma split_lines s : ∀ prev piece,
  let pieces := JsString.split_from LINE_SEPARATOR prev 0 piece s in
  length pieces = S (fst (lineCol s))
  ∧ length (List.last pieces [])
    = if (fst (lineCol s) =? 0)%nat then length piece + snd (lineCol s)
      else snd (lineCol s).
Proof.
  induction s as [|c s IH]; intros prev piece.
  - simpl. split; [done|lia].
  - cbv zeta. rewrite split_from_line. cbn [lineBreak lineCol].
    destruct (Ascii.eqb_spec c CR) as [->|Hcr].
    + destruct s as [|d s].
      * simpl. done.
      * destruct (Ascii.eqb_spec d LF) as [->|Hlf].
        -- specialize (IH None []). cbv zeta in IH.
           rewrite split_from_line in IH. cbn [lineBreak] in IH.
           replace (Ascii.eqb LF CR) with false in IH by done.
           rewrite Ascii.eqb_refl in IH.
           change (2 - 1) with 1.
           change (JsString.split_from LINE_SEPARATOR (Some CR) 1 [] (LF :: s))
             with (JsString.split_from LINE_SEPARATOR (Some LF) 0 [] s).
           replace (1 - 1) with 0 in IH by done.
           set (X := JsString.split_from LINE_SEPARATOR (Some LF) 0 [] s) in *.
           destruct IH as [IH1 IH2]. cbn [length] in IH1.
           assert (HX : X ≠ []) by (intros E; rewrite E in IH1; simpl in IH1; lia).
           rewrite last_cons_nonempty in IH2 by done.
           rewrite last_cons_nonempty by done. cbn [length].
           split; [done|]. rewrite IH2.
           destruct (fst (lineCol (LF :: s))) eqn:E; [by simpl in E|done].
        -- specialize (IH (Some CR) []). cbv zeta in IH. destruct IH as [IH1 IH2].
           replace (1 - 1) with 0 by done.
           set (X := JsString.split_from LINE_SEPARATOR (Some CR) 0 [] (d :: s)) in *.
           assert (HX : X ≠ []) by (intros E; rewrite E in IH1; simpl in IH1; lia).
           rewrite last_cons_nonempty by done. cbn [length bump fst snd].
           split; [lia|]. rewrite IH2. cbn [Nat.eqb length Nat.add].
           by destruct (fst (lineCol (d :: s)) =? 0)%nat.
    + destruct (Ascii.eqb_spec c LF) as [->|Hlf].
      * specialize (IH (Some LF) []). cbv zeta in IH. destruct IH as [IH1 IH2].
        replace (1 - 1) with 0 by done.
        set (X := JsString.split_from LINE_SEPARATOR (Some LF) 0 [] s) in *.
        assert (HX : X ≠ []) by (intros E; rewrite E in IH1; simpl in IH1; lia).
        rewrite last_cons_nonempty by done. cbn [length bump fst snd].
        split; [lia|]. rewrite IH2. cbn [Nat.eqb length Nat.add].
        by destruct (fst (lineCol s) =? 0)%nat.
      * specialize (IH (Some c) (piece ++ [c])). cbv zeta in IH.
        destruct IH as [IH1 IH2]. cbn [fst snd]. split; [done|].
        rewrite IH2, length_app. cbn [length].
        destruct (fst (lineCol s) =? 0)%nat; lia.
Qed.

Lemma slice0_nat (t : text) (o : nat) :
  JsString.slice0 t (Z.of_nat o) = firstn o t.
Proof.
  unfold JsString.slice0.
  replace (Z.of_nat o <? 0)%Z with false by (symmetry; apply Z.ltb_ge; lia).
  destruct (decide (o ≤ length t)) as [Hle|Hgt].
  - by rewrite Z.min_l, Nat2Z.id by lia.
  - rewrite Z.min_r, Nat2Z.id by lia. by rewrite !firstn_all2 by lia.
Qed.

Lemma nth_error_last (l : list text) :
  l ≠ [] → nth_error l (length l - 1) = Some (List.last l []).
Proof.
  induction l as [|x l IH]; [done|]. intros _.
  destruct l as [|y l]; [done|].
  replace (length (x :: y :: l) - 1) with (S (length (y :: l) - 1))
    by (simpl; lia).
  cbn [nth_error]. by rewrite IH.
Qed.

(** The position of an offset inside the text is the line and column of
    the end of the prefix. *)
Lemma position_of_offset (t : text) (o : nat) :
  getPositionFromOffset t (Z.of_nat o)
  = mkPosition (fst (lineCol (firstn o t))) (snd (lineCol (firstn o t))).
Proof.
  unfold getPositionFromOffset, JsString.split. rewrite slice0_nat.
  destruct (split_lines (firstn o t) None []) as [H1 H2].
  set (pieces := JsString.split_from LINE_SEPARATOR None 0 [] (firstn o t)) in *.
  assert (Hne : pieces ≠ []) by (intros E; by rewrite E in H1).
  rewrite nth_error_last by done. rewrite H1.
  replace (S (fst (lineCol (firstn o t))) - 1) with (fst (lineCol (firstn o t)))
    by lia.
  f_equal. cbn [length Nat.add] in H2.
  assert (H3 : length (List.last pieces []) = snd (lineCol (firstn o t)))
    by (by destruct (_ =? 0)%nat).
  rewrite <- H3. by destruct (List.last pieces []).
Qed.

Lemma combine_bump r1 r2 : lineColApp (bump r1) r2 = bump (lineColApp r1 r2).
Proof. done. Qed.

Lemma lineCol_app (s u : text) :
  head u ≠ Some LF → lineCol (s ++ u) = lineColApp (lineCol s) (lineCol u).
Proof.
  intros Hu. induction s as [|c s IH].
  - unfold lineColApp. simpl. destruct (lineCol u) as [n k]. simpl.
    by destruct (n =? 0)%nat.
  - cbn [app lineCol]. rewrite IH.
    destruct (Ascii.eqb c CR).
    + destruct s as [|d s].
      * cbn [app lineCol]. rewrite combine_bump.
        destruct u as [|d u]; [done|].
        destruct (Ascii.eqb_spec d LF) as [->|]; [by destruct Hu|done].
      * cbn [app]. destruct (Ascii.eqb d LF); [done|by rewrite combine_bump].
    + destruct (Ascii.eqb c LF); [by rewrite combine_bump|].
      unfold lineColApp. cbn [fst snd].
      destruct (lineCol s) as [n1 k1], (lineCol u) as [n2 k2]. cbn [fst snd].
      destruct n1, n2; simpl; f_equal; lia.
Qed.

Lemma is_word_not_break (c : ascii) :
  is_word c = true → Ascii.eqb c CR = false ∧ Ascii.eqb c LF = false.
Proof.
  intros H. split; apply Ascii.eqb_neq; intros ->; discriminate H.
Qed.

Lemma lineCol_no_break (u : text) :
  fst (lineCol u) = 0 → snd (lineCol u) = length u.
Proof.
  induction u as [|c u IH]; [done|]. cbn [lineCol].
  destruct (Ascii.eqb c CR).
  - destruct u as [|d u]; [done|].
    destruct (Ascii.eqb_spec d LF) as [->|]; [|done]. by simpl.
  - destruct (Ascii.eqb c LF); [done|]. cbn [fst snd].
    intros H. rewrite H. cbn [Nat.eqb length]. by rewrite IH.
Qed.

(** Two offsets with a word character at the first have different
    positions. *)
Lemma position_distinct (t a b : text) (c : ascii) (o : nat) :
  t = a ++ c :: b → is_word c = true → length a < o → o ≤ length t →
  getPositionFromOffset t (Z.of_nat (length a)) ≠ getPositionFromOffset t (Z.of_nat o).
Proof.
  intros -> Hc Hlt Hle. rewrite !position_of_offset.
  rewrite take_app_length.
  assert (Ho : firstn o (a ++ c :: b) = a ++ c :: firstn (o - S (length a)) b).
  { rewrite take_app_ge by lia.
    replace (o - length a) with (S (o - S (length a))) by lia. done. }
  rewrite Ho. set (u := c :: firstn (o - S (length a)) b).
  rewrite lineCol_app.
  2:{ simpl. intros [= ->]. discriminate Hc. }
  unfold lineColApp. cbn [fst snd].
  destruct (fst (lineCol u)) as [|n] eqn:E.
  - rewrite (lineCol_no_break u E). simpl. intros [= H1 H2]. lia.
  - intros [= H1 H2]. lia.
Qed.

Lemma lexLe_refl r : lexLe r r.
Proof. right. split; lia. Qed.

Lemma lexLe_trans r1 r2 r3 : lexLe r1 r2 → lexLe r2 r3 → lexLe r1 r3.
Proof. unfold lexLe. lia. Qed.

Lemma lexLe_combine r1 r2 : lexLe r1 (lineColApp r1 r2).
Proof.
  unfold lexLe, lineColApp. cbn [fst snd].
  destruct (fst r2) as [|n]; simpl; lia.
Qed.

Lemma lineCol_snoc_LF (s : text) :
  lineCol (s ++ [LF])
  = if bool_decide (last s = Some CR) then lineCol s
    else (S (fst (lineCol s)), 0).
Proof.
  induction s as [|c s IH]; [done|].
  cbn [app lineCol]. rewrite IH.
  destruct s as [|d s].
  - simpl. destruct (Ascii.eqb_spec c CR) as [->|Hc]; [done|].
    rewrite bool_decide_eq_false_2 by (by intros [= ->]).
    by destruct (Ascii.eqb c LF).
  - replace (last (c :: d :: s)) with (last (d :: s)) by done.
    cbn [app]. case_bool_decide.
    + done.
    + destruct (Ascii.eqb c CR); [by destruct (Ascii.eqb d LF)|].
      by destruct (Ascii.eqb c LF).
Qed.

Lemma lineCol_snoc_le (s : text) (c : ascii) : lexLe (lineCol s) (lineCol (s ++ [c])).
Proof.
  destruct (decide (c = LF)) as [->|Hc].
  - rewrite lineCol_snoc_LF. case_bool_decide; [apply lexLe_refl|].
    left. simpl. lia.
  - rewrite lineCol_app; [apply lexLe_combine|]. simpl. by intros [= ->].
Qed.

Lemma lineCol_app_le (u : text) : ∀ s, lexLe (lineCol s) (lineCol (s ++ u)).
Proof.
  induction u as [|c u IH]; intros s.
  - rewrite app_nil_r. apply lexLe_refl.
  - replace (s ++ c :: u) with ((s ++ [c]) ++ u) by (by rewrite <- app_assoc).
    eapply lexLe_trans; [apply lineCol_snoc_le|apply IH].
Qed.

(** Positions grow with offsets, so [locate] never swaps the ends of the
    range it builds. *)
Lemma locate_start (fsPath t : text) (o len : nat) :
  locate fsPath t (Z.of_nat o) len
  = mkLocation fsPath
      (mkRange (getPositionFromOffset t (Z.of_nat o))
               (getPositionFromOffset t (Z.of_nat (o + len)))).
Proof.
  unfold locate, newRange. rewrite <- Nat2Z.inj_add.
  rewrite !position_of_offset.
  assert (H : lexLe (lineCol (firstn o t)) (lineCol (firstn (o + len) t))).
  { replace (firstn (o + len) t)
      with (firstn o t ++ firstn len (skipn o t)) by apply take_take_drop.
    apply lineCol_app_le. }
  unfold isBeforeOrEqual. cbn [line character].
  replace (_ || _) with true; [done|]. symmetry.
  destruct H as [H|[H1 H2]].
  - apply orb_true_iff. left. by apply Nat.ltb_lt.
  - apply orb_true_iff. right. apply andb_true_iff.
    split; [by apply Nat.eqb_eq|by apply Nat.leb_le].
Qed.

End PositionFacts.

(** ** Occurrences *)

Module SearchFacts.

Import Char PositionFacts.

Lemma index_from_sound (w : text) : ∀ s i k,
  JsString.index_from w s i = Some k →
  ∃ a b, s = a ++ w ++ b ∧ k = i + length a.
Proof.
  induction s as [|c s IH]; intros i k; simpl.
  - destruct (starts_with w []) eqn:H; [|done]. intros [= <-].
    apply starts_with_spec in H as [b H]. exists [], b. split; [done|simpl; lia].
  - destruct (starts_with w (c :: s)) eqn:H.
    + intros [= <-]. apply starts_with_spec in H as [b H].
      exists [], b. split; [done|simpl; lia].
    + intros Hk. apply IH in Hk as (a & b & -> & ->).
      exists (c :: a), b. split; [done|simpl; lia].
Qed.

Lemma index_from_complete (w : text) : ∀ a b i,
  ∃ k, JsString.index_from w (a ++ w ++ b) i = Some k ∧ k ≤ i + length a.
Proof.
  induction a as [|c a IH]; intros b i.
  - exists i. split; [|lia]. cbn [app].
    assert (H : starts_with w (w ++ b) = true) by (apply starts_with_spec; eauto).
    destruct (w ++ b); simpl; by rewrite H.
  - cbn [app JsString.index_from].
    destruct (starts_with w (c :: a ++ w ++ b)); [exists i; split; [done|lia]|].
    destruct (IH b (S i)) as (k & Hk & Hle). exists k. split; [done|simpl; lia].
Qed.

(** Where [indexOf] finds a name that ends the text. *)
Lemma indexOf_suffix (pre w : text) :
  ∃ k a b, JsString.indexOf (pre ++ w) w = Z.of_nat k
    ∧ pre ++ w = a ++ w ++ b ∧ length a = k.
Proof.
  destruct (index_from_complete w pre [] 0) as (k & Hk & _).
  rewrite app_nil_r in Hk.
  destruct (index_from_sound w _ _ _ Hk) as (a & b & Hab & ->).
  exists (length a), a, b. unfold JsString.indexOf. by rewrite Hk.
Qed.

Lemma scan_spec (r : regex) : ∀ s pre prev skip,
  Forall (fun m => length pre + skip ≤ m_index m ∧ found r (pre ++ s) m)
    (scan r prev (length pre) skip s)
  ∧ StronglySorted apart (scan r prev (length pre) skip s).
Proof.
  induction s as [|c s IH]; intros pre prev skip.
  - destruct skip as [|j]; cbn [scan]; [|split; constructor].
    destruct (exec_at r prev (length pre) []) as [m|] eqn:E;
      [|split; constructor].
    apply exec_at_sound in E as (w & st' & Hm & -> & Hs).
    split; [|repeat constructor].
    repeat constructor; [simpl; lia|].
    exists pre, (ms_rest st'), prev, st'. cbn [m_text m_index m_caps].
    by rewrite <- Hs.
  - specialize (IH (pre ++ [c])).
    replace (length (pre ++ [c])) with (S (length pre)) in IH
      by (rewrite length_app; simpl; lia).
    replace ((pre ++ [c]) ++ s) with (pre ++ c :: s) in IH
      by (by rewrite <- app_assoc).
    destruct skip as [|j]; cbn [scan].
    + destruct (exec_at r prev (length pre) (c :: s)) as [m|] eqn:E.
      * destruct (IH (Some c) (length (m_text m) - 1)) as [IH1 IH2].
        apply exec_at_sound in E as (w & st' & Hm & -> & Hs).
        cbn [m_text] in *. split.
        -- constructor.
           ++ split; [simpl; lia|].
              exists pre, (ms_rest st'), prev, st'. cbn [m_text m_index m_caps].
              by rewrite <- Hs.
           ++ eapply Forall_impl; [exact IH1|]. simpl. intros m [H1 H2].
              split; [lia|done].
        -- constructor; [done|].
           eapply Forall_impl; [exact IH1|]. simpl. intros m [H1 H2].
           unfold apart, m_end. cbn [m_index m_text]. lia.
      * destruct (IH (Some c) 0) as [IH1 IH2]. split; [|done].
        eapply Forall_impl; [exact IH1|]. simpl. intros m [H1 H2].
        split; [lia|done].
    + destruct (IH (Some c) j) as [IH1 IH2]. split; [|done].
      eapply Forall_impl; [exact IH1|]. simpl. intros m [H1 H2].
      split; [lia|done].
Qed.

Lemma exec_all_spec (r : regex) (t : text) :
  Forall (found r t) (exec_all r t) ∧ StronglySorted apart (exec_all r t).
Proof.
  destruct (scan_spec r t [] None 0) as [H1 H2]. split; [|done].
  eapply Forall_impl; [exact H1|]. by intros m [_ H].
Qed.

Lemma is_word_plain (c : ascii) :
  is_word c = true → Ascii.eqb c "." = false ∧ syntax_character c = false.
Proof.
  intros H. split.
  - apply Ascii.eqb_neq. intros ->. discriminate H.
  - unfold syntax_character. cbn [str list_ascii_of_string existsb].
    repeat match goal with
    | |- context [Ascii.eqb c ?x] =>
        destruct (Ascii.eqb_spec c x) as [->|_]; [discriminate H|]
    end.
    done.
Qed.

Lemma of_source_identifier (w : text) :
  identifier w → of_source w = Some (atoms w).
Proof.
  intros [_ Hw]. unfold of_source.
  replace (forallb plain w) with true; [done|]. symmetry.
  apply forallb_forall. intros c Hc.
  rewrite Forall_forall in Hw. unfold plain.
  destruct (is_word_plain c) as [_ ->]; [|by rewrite orb_true_r].
  apply Hw. by apply list_elem_of_In.
Qed.

Lemma matches_atoms (w : text) :
  Forall (fun c => is_word c = true) w →
  ∀ u st st', matches (atoms w) u st st' → u = w.
Proof.
  induction 1 as [|c w Hc _ IH]; intros u st st'; cbn [atoms matches].
  - by intros [-> _].
  - intros (u1 & u2 & mid & -> & H1 & H2). apply IH in H2 as ->.
    unfold atom_of in H1. destruct (is_word_plain c Hc) as [Hdot _].
    rewrite Hdot in H1. by destruct H1 as [-> _].
Qed.

Lemma consumed_take (u : text) (st st' : mstate) :
  consumed u st st' → firstn (ms_pos st' - ms_pos st) (ms_rest st) = u.
Proof.
  intros (Hr & Hp & _). rewrite Hr, Hp.
  replace (ms_pos st + length u - ms_pos st) with (length u) by lia.
  by rewrite take_app_length.
Qed.

(** The second group of a match of [EXPORT_PATTERN] is a word. *)
Lemma export_name (t : text) (m : rmatch) :
  found EXPORT_PATTERN t m →
  ∃ w, group 2 m = Some w ∧ identifier w.
Proof.
  intros (a & b & prev & st' & _ & _ & Hm & Hcaps).
  unfold group. rewrite Hcaps. clear Hcaps.
  unfold EXPORT_PATTERN in Hm.
  do 4 (destruct Hm as (? & ? & ? & _ & _ & Hm)).
  destruct Hm as (u & v & mid & _ & (st1 & Hname & ->) & Hrest).
  pose proof (matches_consumed _ _ _ _ Hname) as Hc.
  rewrite (consumed_take _ _ _ Hc) in Hrest.
  cbn [matches] in Hrest.
  destruct Hrest as (? & ? & ? & _ & (_ & _ & ->) & (_ & ? & _ & ->)).
  exists u. split; [done|].
  cbn [Plus matches] in Hname.
  destruct Hname as (? & w & ? & -> & (c & ? & -> & Hc0 & _) & (Hw & _)).
  split; [done|]. by constructor.
Qed.

(** The patterns that the program runs in an [exec] loop start with a
    literal, so their matches are not empty and the loop advances. *)
Lemma consuming_Seq_l (r1 r2 : regex) : consuming r1 → consuming (Seq r1 r2).
Proof.
  intros H w st st' (u & v & mid & -> & H1 & _) E.
  apply app_eq_nil in E as [-> _]. by apply H in H1.
Qed.

Lemma consuming_Seq_r (r1 r2 : regex) : consuming r2 → consuming (Seq r1 r2).
Proof.
  intros H w st st' (u & v & mid & -> & _ & H2) E.
  apply app_eq_nil in E as [_ ->]. by apply H in H2.
Qed.

Lemma consuming_Chr (c : ascii) : consuming (Chr c).
Proof. by intros w st st' [-> _]. Qed.

Lemma consuming_patterns (name : regex) :
  consuming EXPORT_PATTERN ∧ consuming IMPORT_PATTERN
  ∧ consuming (definitionPattern name) ∧ consuming (thisPattern name).
Proof.
  repeat split.
  - apply consuming_Seq_l, consuming_Seq_l, consuming_Chr.
  - apply consuming_Seq_l, consuming_Seq_l, consuming_Chr.
  - apply consuming_Seq_l, consuming_Seq_l, consuming_Chr.
  - apply consuming_Seq_r, consuming_Seq_l, consuming_Seq_l, consuming_Chr.
Qed.

Lemma exec_all_consumes (r : regex) (t : text) :
  consuming r → Forall (fun m => m_text m ≠ []) (exec_all r t).
Proof.
  intros Hr. destruct (exec_all_spec r t) as [Hf _].
  eapply Forall_impl; [exact Hf|].
  intros m (a & b & prev & st' & _ & _ & Hm & _). by eapply Hr.
Qed.

Lemma matches_Seq_suffix (r1 r2 : regex) (name u : text) (st st' : mstate) :
  matches (Seq r1 r2) u st st' →
  (∀ v mid, matches r2 v mid st' → ∃ pre, v = pre ++ name) →
  ∃ pre, u = pre ++ name.
Proof.
  intros (u1 & u2 & mid & -> & _ & H2) Hk. destruct (Hk _ _ H2) as [pre ->].
  exists (u1 ++ pre). by rewrite app_assoc.
Qed.

(** The text of a match of the definition pattern ends with the name. *)
Lemma definition_text (name u : text) (st st' : mstate) :
  Forall (fun c => is_word c = true) name →
  matches (definitionPattern (atoms name)) u st st' →
  ∃ pre, u = pre ++ name.
Proof.
  intros Hw H. unfold definitionPattern in H.
  do 4 (eapply matches_Seq_suffix; [exact H|]; clear H; intros ? ? H).
  cbn [matches] in H.
  destruct H as (u1 & u2 & mid' & -> & (st1 & H1 & _) & (-> & _)).
  apply (matches_atoms _ Hw) in H1 as ->. exists []. by rewrite app_nil_r.
Qed.

End SearchFacts.

(** ** Deduplication *)

Module Dedup.

Import Char PositionFacts SearchFacts.

Lemma visitedKey_startKey (ls : list Location) :
  visitedKey <$> ls
  = (fun k => visitKey k.1.1 (mkPosition k.1.2 k.2)) <$> (startKey <$> ls).
Proof.
  rewrite <- list_fmap_compose. apply list_fmap_ext. intros _ l _.
  unfold visitedKey, startKey. simpl. by destruct (r_start (range l)).
Qed.

Lemma NoDup_startKey (ls : list Location) :
  NoDup (visitedKey <$> ls) → NoDup (startKey <$> ls).
Proof. rewrite visitedKey_startKey. apply NoDup_fmap_1. Qed.

Lemma fresh_start (before : gset text) (fsPath : text) :
  fresh before fsPath ([], before).
Proof.
  split; [constructor|]. split; [|done]. intros l Hl. by apply elem_of_nil in Hl.
Qed.

Lemma visit_fresh (before : gset text) (fsPath content : text) (startOff : Z)
    (len : nat) (acc : list Location * gset text) :
  (0 ≤ startOff)%Z → fresh before fsPath acc →
  fresh before fsPath (visit fsPath content startOff len acc).
Proof.
  intros Hoff (Hnd & Hin & Hsub). destruct acc as [results visited].
  unfold visit. case_bool_decide as Hkey; [done|].
  rewrite <- (Z2Nat.id startOff) in * by done.
  set (o := Z.to_nat startOff) in *. rewrite locate_start.
  set (p := getPositionFromOffset content (Z.of_nat o)) in *.
  unfold fresh. cbn [fst snd] in *. split; [|split].
  - rewrite fmap_app. apply NoDup_app. split; [done|]. split.
    + intros k Hk Hk'. apply list_elem_of_singleton in Hk'. subst k.
      apply list_elem_of_fmap in Hk as (l & Hl & Hlin).
      unfold visitedKey at 1 in Hl. cbn [uri range r_start] in Hl.
      apply Hkey. rewrite Hl. by apply Hin.
    + apply NoDup_singleton.
  - intros l Hl. apply elem_of_app in Hl as [Hl|Hl].
    + destruct (Hin l Hl) as (H1 & H2 & H3). split; [set_solver|done].
    + apply list_elem_of_singleton in Hl. subst l.
      unfold visitedKey. cbn [uri range r_start].
      split; [set_solver|]. split; [set_solver|done].
  - set_solver.
Qed.

Lemma findThisStoreReferences_fresh (fsPath content storeName : text)
    (visited : gset text) (acc : list Location * gset text) :
  findThisStoreReferences fsPath content storeName visited = Some acc →
  fresh visited fsPath acc.
Proof.
  unfold findThisStoreReferences. destruct (of_source storeName) as [name|]; [|done].
  intros [= <-]. generalize (exec_all (thisPattern name) content).
  intros ms. generalize (fresh_start visited fsPath).
  generalize ([] : list Location, visited).
  induction ms as [|m ms IH]; intros acc Hacc; [done|].
  cbn [foldl]. apply IH. apply visit_fresh; [lia|done].
Qed.

Lemma findImportReferences_fresh (fsPath content storeName : text)
    (visited : gset text) :
  fresh visited fsPath (findImportReferences fsPath content storeName visited).
Proof.
  unfold findImportReferences. generalize (exec_all IMPORT_PATTERN content).
  intros ms. generalize (fresh_start visited fsPath).
  generalize ([] : list Location, visited).
  induction ms as [|m ms IH]; intros acc Hacc; [done|].
  cbn [foldl]. apply IH.
  destruct (JsString.includes _ _); [|done].
  destruct (0 <=? _)%Z eqn:Hpos; [|done].
  apply visit_fresh; [by apply Z.leb_le|done].
Qed.

Section Workspace.

Context {path : PathModule}.

Lemma scanFile_distinct (h : Host) (storeFilePath storeName fsPath : text)
    (acc acc' : list Location * gset text * state) :
  distinct storeFilePath acc →
  scanFile h storeFilePath storeName fsPath acc = Some (Returns acc') →
  distinct storeFilePath acc'.
Proof.
  destruct acc as [[results visited] st]. intros [Hnd Hin].
  unfold scanFile. case_bool_decide as Hne; [by intros [= <-]|].
  destruct (getDocumentText h fsPath st) as [[[|c t]|] st1];
    try (by intros [= <-]).
  destruct (hasImportedStore _ _ _) as [[[|]|]|]; [|by intros [= <-]|done..].
  pose proof (findImportReferences_fresh fsPath (c :: t) storeName visited) as Hi.
  destruct (findImportReferences _ _ _ _) as [imports visited1].
  destruct (findThisStoreReferences _ _ _ _) as [[accesses visited2]|] eqn:Ha;
    [|done].
  apply findThisStoreReferences_fresh in Ha.
  destruct Hi as (Hi1 & Hi2 & Hi3), Ha as (Ha1 & Ha2 & Ha3).
  cbn [fst snd] in *. intros [= <-]. split; cbn [fst snd].
  - rewrite !fmap_app. apply NoDup_app. split; [done|]. split.
    + intros k Hk Hk'. apply list_elem_of_fmap in Hk as (l & -> & Hl).
      destruct (Hin l Hl) as [Hv _].
      apply elem_of_app in Hk' as [Hk'|Hk'];
        apply list_elem_of_fmap in Hk' as (l' & Heq & Hl').
      * destruct (Hi2 l' Hl') as (_ & Hn & _). apply Hn. by rewrite <- Heq.
      * destruct (Ha2 l' Hl') as (_ & Hn & _). apply Hn. rewrite <- Heq.
        by apply Hi3.
    + apply NoDup_app. split; [done|]. split; [|done].
      intros k Hk Hk'. apply list_elem_of_fmap in Hk as (l & -> & Hl).
      apply list_elem_of_fmap in Hk' as (l' & Heq & Hl').
      destruct (Hi2 l Hl) as (Hv & _ & _).
      destruct (Ha2 l' Hl') as (_ & Hn & _). apply Hn. by rewrite <- Heq.
  - intros l Hl. apply elem_of_app in Hl as [Hl|Hl].
    + destruct (Hin l Hl) as [Hv Hu]. split; [|done]. by apply Ha3, Hi3.
    + apply elem_of_app in Hl as [Hl|Hl].
      * destruct (Hi2 l Hl) as (Hv & _ & Hu). split; [by apply Ha3|].
        by rewrite Hu.
      * destruct (Ha2 l Hl) as (Hv & _ & Hu). split; [done|]. by rewrite Hu.
Qed.

Lemma scanFiles_distinct (h : Host) (storeFilePath storeName : text)
    (token : nat → bool) (files : list text) :
  ∀ i acc acc',
  distinct storeFilePath acc →
  scanFiles h storeFilePath storeName token i files acc = Some (Returns acc') →
  distinct storeFilePath acc'.
Proof.
  induction files as [|f files IH]; intros i acc acc' Hacc; cbn [scanFiles].
  - by intros [= <-].
  - destruct (token i); [by intros [= <-]|].
    destruct (scanFile h storeFilePath storeName f acc) as [[acc1|st1]|] eqn:E;
      [|done..].
    apply IH. by eapply scanFile_distinct.
Qed.

End Workspace.

(** Where [findStoreDefinitions] puts the start of a match: at an
    occurrence of the name inside the match. *)
Lemma definition_offset (t storeName : text) (m : rmatch) :
  identifier storeName →
  found (definitionPattern (atoms storeName)) t m →
  ∃ a b,
    (Z.of_nat (m_index m) + JsString.indexOf (m_text m) storeName)%Z
      = Z.of_nat (length a)
    ∧ t = a ++ storeName ++ b
    ∧ m_index m ≤ length a ∧ length a < m_end m.
Proof.
  intros [Hne Hw] (a0 & b0 & prev & st' & Ht & Hidx & Hm & _).
  apply (definition_text _ _ _ _ Hw) in Hm as [pre Hpre].
  destruct (indexOf_suffix pre storeName) as (k & a1 & b1 & Hk & Hsplit & Hlen).
  exists (a0 ++ a1), (b1 ++ b0). rewrite Hpre, Hk, Hidx, length_app, Hlen.
  split; [lia|]. split.
  - rewrite Ht, Hpre, Hsplit. by rewrite <- !app_assoc.
  - unfold m_end. rewrite Hidx, Hpre, Hsplit, !length_app, Hlen.
    destruct storeName; [done|]. simpl. lia.
Qed.

Lemma definitions_distinct (h : Host) (storeFilePath storeName : text)
    (st st1 : state) (definitions : list Location) :
  identifier storeName →
  findStoreDefinitions h storeFilePath storeName st = Some (definitions, st1) →
  NoDup (startKey <$> definitions)
  ∧ ∀ l, l ∈ definitions → uri l = uriFile storeFilePath.
Proof.
  intros Hid. unfold findStoreDefinitions. cbv zeta.
  destruct (getDocumentText h (uriFile storeFilePath) st) as [[[|c t]|] st'];
    try (intros [= <- <-]; split; [constructor|by intros l Hl%elem_of_nil]).
  rewrite (of_source_identifier _ Hid). intros [= <- <-].
  destruct (exec_all_spec (definitionPattern (atoms storeName)) (c :: t))
    as [Hfound Hsorted].
  revert Hfound Hsorted.
  generalize (exec_all (definitionPattern (atoms storeName)) (c :: t)).
  generalize (c :: t). clear c t. intros t ms Hfound Hsorted. split.
  - induction Hsorted as [|m ms Hsorted IH Hapart]; [constructor|].
    apply Forall_cons in Hfound as [Hm Hfound].
    cbn [map fmap list_fmap]. apply NoDup_cons. split; [|by apply IH].
    intros Hin. apply list_elem_of_fmap in Hin as (l & Heq & Hl).
    apply list_elem_of_In, in_map_iff in Hl as (m2 & <- & Hm2).
    apply list_elem_of_In in Hm2.
    rewrite Forall_forall in Hfound, Hapart.
    destruct (Hapart m2 Hm2) as [_ Hend].
    destruct (definition_offset t storeName m Hid Hm)
      as (a & b & Hoff & Ht & Hlo & Hhi).
    destruct (definition_offset t storeName m2 Hid (Hfound m2 Hm2))
      as (a2 & b2 & Hoff2 & Ht2 & Hlo2 & Hhi2).
    rewrite Hoff, Hoff2, !locate_start in Heq.
    unfold startKey in Heq. cbn [uri range r_start] in Heq.
    destruct Hid as [Hne Hw]. destruct storeName as [|c0 name]; [done|].
    apply Forall_cons in Hw as [Hc0 _].
    apply (position_distinct t a (name ++ b) c0 (length a2)); [done|done|lia| |].
    + rewrite Ht2, length_app. lia.
    + remember (getPositionFromOffset t (Z.of_nat (length a))) as p1 eqn:E1.
      remember (getPositionFromOffset t (Z.of_nat (length a2))) as p2 eqn:E2.
      clear E1 E2. injection Heq as H1 H2.
      destruct p1, p2. simpl in *. by subst.
  - intros l Hl. apply list_elem_of_In, in_map_iff in Hl as (m & <- & _).
    done.
Qed.

Lemma analyzeStoreFile_words (h : Host) (filePath : text) (st : state) :
  wordIndex st → wordIndex (analyzeStoreFile h filePath st).
Proof.
  intros Hst. unfold analyzeStoreFile.
  destruct (getDocumentText_index h filePath st) as [Hf _].
  destruct (getDocumentText h filePath st) as [t st1]. simpl in Hf.
  assert (Hst1 : wordIndex st1).
  { intros f n. unfold isStoreVariable. rewrite Hf. apply Hst. }
  destruct t as [[|c t]|]; [done| |done].
  destruct (exec_all_spec EXPORT_PATTERN (c :: t)) as [Hfound _].
  revert Hfound. generalize (exec_all EXPORT_PATTERN (c :: t)). intros ms Hfound.
  destruct (foldl_addExport filePath ms ∅ (storeNameToFilesMap st1))
    as (Hnew & _ & _).
  destruct (foldl (addExport filePath) _ _) as [newSet rev1].
  cbn [fst] in Hnew.
  intros file name. unfold isStoreVariable. cbn [with_index storeFileToNamesMap].
  destruct (decide (file = filePath)) as [->|Hne].
  - rewrite lookup_insert_eq. intros Hin%bool_decide_eq_true.
    apply Hnew in Hin as [Hin|Hin]; [by apply elem_of_empty in Hin|].
    apply list_elem_of_In, in_map_iff in Hin as (m & <- & Hm).
    rewrite Forall_forall in Hfound.
    destruct (export_name (c :: t) m) as (w & -> & Hw); [|done].
    apply Hfound. by apply list_elem_of_In.
  - rewrite lookup_insert_ne by done. apply Hst1.
Qed.

Lemma indexed_names_are_words (calls : list (Host * text)) :
  wordIndex (analyzeAll calls initial).
Proof.
  unfold analyzeAll.
  assert (H : wordIndex initial) by (intros f n; by vm_compute).
  revert H. generalize initial.
  induction calls as [|c calls IH]; intros st H; [done|].
  cbn [foldl]. apply IH. by apply analyzeStoreFile_words.
Qed.

End Dedup.

Import Dedup.

(** C4.  For a store name that is a word and a store file whose base
    name stays inside the modelled pattern syntax, the search returns,
    and no two of the locations it returns have the same file, start line
    and start column.  The path of the store file is the [fsPath] of the
    document of the request, which [vscode.Uri.file] gives back as it
    is. *)
Theorem references_without_duplicates {path : PathModule} (h : Host)
    (storeFilePath storeName : text) (token : nat → bool) (st : state) :
  identifier storeName →
  is_Some (of_source (stripTs (basename storeFilePath))) →
  uriFile storeFilePath = storeFilePath →
  ∃ results st',
    findStoreVariableReferences h storeFilePath storeName token st
      = Some (Returns (results, st'))
    ∧ NoDup ((fun l => (uri l, line (r_start (range l)),
                        character (r_start (range l)))) <$> results).
Proof.
  intros Hid Hbase Hfs.
  assert (Hname : is_Some (of_source storeName))
    by (rewrite (SearchFacts.of_source_identifier _ Hid); eauto).
  destruct (findStoreDefinitions_total h storeFilePath storeName st Hname)
    as [[definitions st1] Hd].
  destruct (scanFiles_total h storeFilePath storeName token (findFiles h)
              Hname Hbase 0 ([], ∅, st1)) as [[[references visited] st2] Hs].
  pose proof (scanFiles_prepend h storeFilePath storeName token definitions
                (findFiles h) 0 [] ∅ st1) as Hp.
  rewrite app_nil_r, Hs in Hp.
  exists (definitions ++ references), st2. split.
  { unfold findStoreVariableReferences. by rewrite Hd, Hp. }
  destruct (definitions_distinct _ _ _ _ _ _ Hid Hd) as [Hdefs Huri].
  assert (Hrefs : distinct storeFilePath (references, visited, st2)).
  { eapply scanFiles_distinct; [|exact Hs].
    split; [constructor|]. by intros l Hl%elem_of_nil. }
  destruct Hrefs as [Hnd Hin]. cbn [fst snd] in *.
  change (NoDup (startKey <$> definitions ++ references)).
  rewrite fmap_app. apply NoDup_app. split; [done|]. split.
  - intros k Hk Hk'.
    apply list_elem_of_fmap in Hk as (l & -> & Hl).
    apply list_elem_of_fmap in Hk' as (l' & Heq & Hl').
    destruct (Hin l' Hl') as [_ Hne]. apply Hne.
    rewrite <- Hfs, <- (Huri l Hl). unfold startKey in Heq.
    by injection Heq as <- _ _.
  - by apply NoDup_startKey.
Qed.

Lemma references_without_duplicates_witness :
  ∃ results st',
    findStoreVariableReferences workspace counter (str "count") (fun _ => false)
      initial = Some (Returns (results, st'))
    ∧ NoDup ((fun l => (uri l, line (r_start (range l)),
                        character (r_start (range l)))) <$> results).
Proof.
  apply (references_without_duplicates workspace counter (str "count")
           (fun _ => false) initial).
  - split; [done|]. repeat constructor.
  - vm_compute. eauto.
  - reflexivity.
Defined.

(** End to end: one definition, and one import occurrence and one
    access for each of the three components, each once. *)
Example three_components :
  length <$> locations (findStoreVariableReferences workspace counter (str "count")
                          (fun _ => false) initial)
  = Some 7.
Proof. by_evaluation. Qed.

(** * Further properties *)

(** ** Positions *)

Section MorePositions.

Import Char PositionFacts.

(** X1.  [getPositionFromOffset] is monotone: a later offset is not before
    an earlier one. *)
Theorem position_monotone (t : text) (o1 o2 : nat) :
  o1 ≤ o2 →
  isBeforeOrEqual (getPositionFromOffset t (Z.of_nat o1))
                  (getPositionFromOffset t (Z.of_nat o2)) = true.
Proof.
  intros Hle. rewrite !position_of_offset.
  assert (H : lexLe (lineCol (firstn o1 t)) (lineCol (firstn o2 t))).
  { replace o2 with (o1 + (o2 - o1)) by lia.
    rewrite <- take_take_drop. apply lineCol_app_le. }
  unfold isBeforeOrEqual. cbn [line character].
  destruct H as [H|[H1 H2]]; apply orb_true_iff.
  - left. by apply Nat.ltb_lt.
  - right. apply andb_true_iff.
    split; [by apply Nat.eqb_eq|by apply Nat.leb_le].
Qed.

Lemma position_monotone_witness :
  isBeforeOrEqual (getPositionFromOffset usesCount 10)
                  (getPositionFromOffset usesCount 50) = true.
Proof. apply (position_monotone usesCount 10 50). lia. Defined.

Lemma lineCol_plain (w : text) :
  Forall (fun c => is_line_terminator c = false) w → lineCol w = (0, length w).
Proof.
  induction 1 as [|c w Hc _ IH]; [done|].
  cbn [lineCol]. unfold is_line_terminator in Hc.
  apply orb_false_iff in Hc as [Hlf Hcr]. by rewrite Hcr, Hlf, IH.
Qed.

Lemma position_run (t a w b : text) :
  t = a ++ w ++ b →
  Forall (fun c => is_line_terminator c = false) w →
  getPositionFromOffset t (Z.of_nat (length a + length w))
  = mkPosition (line (getPositionFromOffset t (Z.of_nat (length a))))
      (character (getPositionFromOffset t (Z.of_nat (length a))) + length w).
Proof.
  intros -> Hw. rewrite !position_of_offset. cbn [line character].
  rewrite take_app_length.
  replace (firstn (length a + length w) (a ++ w ++ b)) with (a ++ w).
  2:{ rewrite app_assoc, <- length_app. by rewrite take_app_length. }
  rewrite lineCol_app.
  2:{ destruct Hw as [|c w Hc _]; [done|]. simpl. intros [= ->]. discriminate Hc. }
  rewrite (lineCol_plain w Hw). unfold lineColApp. cbn [fst snd Nat.eqb].
  by rewrite Nat.add_0_r.
Qed.

(** X2.  Inside a line the column advances by one per code unit: a run
    without line terminators ends on the line where it starts, as many
    columns further as it is long. *)
Theorem position_within_line (t a w b : text) :
  t = a ++ w ++ b →
  Forall (fun c => is_line_terminator c = false) w →
  getPositionFromOffset t (Z.of_nat (length a + length w))
  = mkPosition (line (getPositionFromOffset t (Z.of_nat (length a))))
      (character (getPositionFromOffset t (Z.of_nat (length a))) + length w).
Proof. apply position_run. Qed.

Lemma position_within_line_witness :
  getPositionFromOffset usesCount (Z.of_nat (length (str "import { ") + length (str "count")))
  = mkPosition
      (line (getPositionFromOffset usesCount (Z.of_nat (length (str "import { ")))))
      (character (getPositionFromOffset usesCount (Z.of_nat (length (str "import { "))))
       + length (str "count")).
Proof.
  apply (position_within_line usesCount (str "import { ") (str "count")
           (str " } from './counter.store';
class W { render() { return this.count; } }")).
  - reflexivity.
  - repeat constructor.
Defined.

(** X3.  A line break ends the line: after [CR], after [CR LF] and after a
    [LF] that does not follow a [CR], the position is column 0 of the next
    line. *)
Theorem position_after_break (t a brk b : text) :
  t = a ++ brk ++ b →
  brk = [CR] ∨ brk = [CR; LF] ∨ (brk = [LF] ∧ last a ≠ Some CR) →
  getPositionFromOffset t (Z.of_nat (length a + length brk))
  = mkPosition (S (line (getPositionFromOffset t (Z.of_nat (length a))))) 0.
Proof.
  intros -> Hbrk. rewrite !position_of_offset. cbn [line].
  rewrite take_app_length.
  replace (firstn (length a + length brk) (a ++ brk ++ b)) with (a ++ brk).
  2:{ rewrite app_assoc, <- length_app. by rewrite take_app_length. }
  destruct Hbrk as [->|[->|[-> Ha]]].
  - rewrite lineCol_app by done. unfold lineColApp. simpl.
    by rewrite Nat.add_1_r.
  - rewrite lineCol_app by done. unfold lineColApp. simpl.
    by rewrite Nat.add_1_r.
  - rewrite lineCol_snoc_LF. by rewrite bool_decide_eq_false_2.
Qed.

Lemma position_after_break_witness :
  getPositionFromOffset (str "a" ++ [CR; LF] ++ str "b")
    (Z.of_nat (length (str "a") + length [CR; LF]))
  = mkPosition
      (S (line (getPositionFromOffset (str "a" ++ [CR; LF] ++ str "b")
                  (Z.of_nat (length (str "a")))))) 0.
Proof.
  apply (position_after_break _ (str "a") [CR; LF] (str "b")); [done|].
  right. by left.
Defined.

(** X4.  Between the [CR] and the [LF] of a pair the position is already
    that of the next line: the two offsets around the [LF] have one
    position. *)
Theorem position_inside_crlf (t a b : text) :
  t = a ++ [CR; LF] ++ b →
  getPositionFromOffset t (Z.of_nat (length a + 1))
  = getPositionFromOffset t (Z.of_nat (length a + 2)).
Proof.
  intros ->. rewrite !position_of_offset.
  replace (firstn (length a + 1) (a ++ [CR; LF] ++ b)) with (a ++ [CR]).
  2:{ replace (a ++ [CR; LF] ++ b) with ((a ++ [CR]) ++ LF :: b)
        by (by rewrite <- app_assoc).
      replace (length a + 1) with (length (a ++ [CR]))
        by (by rewrite length_app).
      by rewrite take_app_length. }
  replace (firstn (length a + 2) (a ++ [CR; LF] ++ b)) with ((a ++ [CR]) ++ [LF]).
  2:{ replace (a ++ [CR; LF] ++ b) with (((a ++ [CR]) ++ [LF]) ++ b)
        by (by rewrite <- !app_assoc).
      replace (length a + 2) with (length ((a ++ [CR]) ++ [LF]))
        by (rewrite !length_app; simpl; lia).
      by rewrite take_app_length. }
  rewrite lineCol_snoc_LF, bool_decide_eq_true_2; [done|apply last_snoc].
Qed.

Lemma position_inside_crlf_witness :
  getPositionFromOffset (str "a" ++ [CR; LF] ++ str "b") (Z.of_nat (length (str "a") + 1))
  = getPositionFromOffset (str "a" ++ [CR; LF] ++ str "b") (Z.of_nat (length (str "a") + 2)).
Proof. by apply (position_inside_crlf _ (str "a") (str "b")). Defined.

(** X5.  Apart from that, positions tell offsets apart: two offsets inside
    the text have different positions unless the code unit at the first is a
    [LF]. *)
Theorem position_injective (t a b : text) (c : ascii) (o : nat) :
  t = a ++ c :: b → c ≠ LF → length a < o → o ≤ length t →
  getPositionFromOffset t (Z.of_nat (length a)) ≠ getPositionFromOffset t (Z.of_nat o).
Proof.
  intros -> Hc Hlt Hle. rewrite !position_of_offset.
  rewrite take_app_length.
  assert (Ho : firstn o (a ++ c :: b) = a ++ c :: firstn (o - S (length a)) b).
  { rewrite take_app_ge by lia.
    replace (o - length a) with (S (o - S (length a))) by lia. done. }
  rewrite Ho. set (u := c :: firstn (o - S (length a)) b).
  rewrite lineCol_app by (simpl; by intros [= ->]).
  unfold lineColApp. cbn [fst snd].
  destruct (fst (lineCol u)) as [|n] eqn:E.
  - rewrite (lineCol_no_break u E). simpl. intros [= H1 H2]. lia.
  - intros [= H1 H2]. lia.
Qed.

Lemma position_injective_witness :
  getPositionFromOffset (str "ab") (Z.of_nat (length (str "a")))
  ≠ getPositionFromOffset (str "ab") (Z.of_nat 2).
Proof.
  apply (position_injective (str "ab") (str "a") [] "b" 2); [done|done|..];
    simpl; lia.
Defined.

End MorePositions.

(** ** The text cache, further *)

Lemma scheduleAnalysisForStore_cache (filePath : text) (st : state) :
  fileCache (scheduleAnalysisForStore filePath st) = fileCache st
  ∧ analyzedFiles (scheduleAnalysisForStore filePath st) = analyzedFiles st
  ∧ componentImportsMap (scheduleAnalysisForStore filePath st)
    = componentImportsMap st
  ∧ sameIndex st (scheduleAnalysisForStore filePath st).
Proof.
  unfold scheduleAnalysisForStore, sameIndex. simpl.
  by destruct (pendingAnalysis st !! filePath).
Qed.

Lemma liveText_find (h : Host) (filePath t : text) :
  liveText h filePath = Some t →
  ∃ d, List.find (fun doc => bool_decide (fst doc = filePath)) (textDocuments h)
       = Some d ∧ snd d = t.
Proof.
  unfold liveText. destruct (List.find _ _) as [d|]; [|done].
  intros [= <-]. eauto.
Qed.

Lemma getDocumentText_open (h : Host) (filePath t : text) (st : state) :
  liveText h filePath = Some t →
  fst (getDocumentText h filePath st) = Some t
  ∧ fileCache (snd (getDocumentText h filePath st)) !! filePath = Some t.
Proof.
  intros (d & Hd & <-)%liveText_find. unfold getDocumentText. rewrite Hd.
  case_bool_decide as Hc; [done|]. split; [done|]. cbn [snd with_analyzedFiles fileCache].
  destruct (isStoreFile filePath).
  - destruct (scheduleAnalysisForStore_cache filePath
                (with_fileCache (<[filePath:=snd d]> (fileCache st)) st)) as [-> _].
    apply lookup_insert_eq.
  - apply lookup_insert_eq.
Qed.

Lemma getDocumentText_cached (h : Host) (filePath cached : text) (st : state) :
  liveText h filePath = None →
  fileCache st !! filePath = Some cached →
  getDocumentText h filePath st = (Some cached, st).
Proof.
  unfold liveText, getDocumentText. destruct (List.find _ _); [done|].
  by intros _ ->.
Qed.

Lemma getDocumentText_read (h h' : Host) (filePath t : text) (st : state) :
  liveText h filePath = None →
  fileCache st !! filePath = None →
  readFile h filePath = Ok t →
  liveText h' filePath = None →
  fst (getDocumentText h filePath st) = Some t
  ∧ getDocumentText h' filePath (snd (getDocumentText h filePath st))
    = (Some t, snd (getDocumentText h filePath st)).
Proof.
  intros Hopen Hcache Hread Hopen'.
  assert (Hget : getDocumentText h filePath st
                 = (Some t, with_fileCache (<[filePath:=t]> (fileCache st)) st)).
  { revert Hopen. unfold liveText, getDocumentText.
    destruct (List.find _ _); [done|]. by rewrite Hcache, Hread. }
  rewrite Hget. split; [done|].
  apply getDocumentText_cached; [done|]. apply lookup_insert_eq.
Qed.

(** X6.  An open buffer wins: whatever is cached or on disk, the text of an
    open file is its live text, and the cache holds that text afterwards. *)
Theorem open_buffer_wins (h : Host) (filePath t : text) (st : state) :
  liveText h filePath = Some t →
  fst (getDocumentText h filePath st) = Some t
  ∧ fileCache (snd (getDocumentText h filePath st)) !! filePath = Some t.
Proof. apply getDocumentText_open. Qed.

(** X7.  A successful read is cached: the text read is returned, and a later
    request under any host where the file is not open gets the same text
    without a read. *)
Theorem read_then_cached (h h' : Host) (filePath t : text) (st : state) :
  liveText h filePath = None →
  fileCache st !! filePath = None →
  readFile h filePath = Ok t →
  liveText h' filePath = None →
  fst (getDocumentText h filePath st) = Some t
  ∧ getDocumentText h' filePath (snd (getDocumentText h filePath st))
    = (Some t, snd (getDocumentText h filePath st)).
Proof. apply getDocumentText_read. Qed.

Lemma open_buffer_wins_witness :
  fst (getDocumentText workspace counter counterIndexed)
    = Some (str "export const count = 0;")
  ∧ fileCache (snd (getDocumentText workspace counter counterIndexed)) !! counter
    = Some (str "export const count = 0;").
Proof. apply (open_buffer_wins workspace counter). reflexivity. Defined.

Lemma read_then_cached_witness :
  fst (getDocumentText counterOnDisk counter initial)
    = Some (str "export const count = 0;")
  ∧ getDocumentText missing counter
      (snd (getDocumentText counterOnDisk counter initial))
    = (Some (str "export const count = 0;"),
       snd (getDocumentText counterOnDisk counter initial)).
Proof.
  apply (read_then_cached counterOnDisk missing counter); reflexivity.
Defined.

(** X8.  Asking twice is asking once: under the same host a second
    [getDocumentText] returns the same text and changes nothing. *)
Theorem getDocumentText_twice (h : Host) (filePath : text) (st : state) :
  getDocumentText h filePath (snd (getDocumentText h filePath st))
  = (fst (getDocumentText h filePath st), snd (getDocumentText h filePath st)).
Proof.
  destruct (liveText h filePath) as [t|] eqn:Hlive.
  - destruct (getDocumentText_open h filePath t st Hlive) as [H1 H2].
    rewrite H1. apply liveText_find in Hlive as (d & Hd & <-).
    unfold getDocumentText at 1. rewrite Hd.
    by rewrite bool_decide_eq_true_2.
  - destruct (fileCache st !! filePath) as [c|] eqn:Hc.
    + rewrite (getDocumentText_cached h filePath c st Hlive Hc). cbn [fst snd].
      by apply getDocumentText_cached.
    + destruct (readFile h filePath) as [t|] eqn:Hr.
      * destruct (getDocumentText_read h h filePath t st Hlive Hc Hr Hlive) as [H1 H2].
        by rewrite H2, H1.
      * assert (Hget : getDocumentText h filePath st = (None, st)).
        { revert Hlive. unfold liveText, getDocumentText.
          destruct (List.find _ _); [done|]. by rewrite Hc, Hr. }
        by rewrite !Hget.
Qed.

(** X9.  What [getDocumentText] leaves alone: both index maps, the import
    bindings, and the cached text of every other file. *)
Theorem getDocumentText_frame (h : Host) (filePath : text) (st : state) :
  let st' := snd (getDocumentText h filePath st) in
  storeFileToNamesMap st' = storeFileToNamesMap st
  ∧ storeNameToFilesMap st' = storeNameToFilesMap st
  ∧ componentImportsMap st' = componentImportsMap st
  ∧ ∀ other, other ≠ filePath → fileCache st' !! other = fileCache st !! other.
Proof.
  cbv zeta. destruct (getDocumentText_index h filePath st) as [H1 H2].
  split; [done|]. split; [done|].
  split; [apply getDocumentText_componentImportsMap|].
  intros other Hne. unfold getDocumentText. destruct (List.find _ _) as [d|].
  - case_bool_decide; [done|]. cbn [snd with_analyzedFiles fileCache].
    destruct (isStoreFile filePath).
    + destruct (scheduleAnalysisForStore_cache filePath
                  (with_fileCache (<[filePath:=snd d]> (fileCache st)) st))
        as [-> _].
      by apply lookup_insert_ne.
    + by apply lookup_insert_ne.
  - destruct (fileCache st !! filePath); [done|].
    destruct (readFile h filePath); [|done]. by apply lookup_insert_ne.
Qed.

(** X10.  A reindex is scheduled only for a store file: for any other path
    [getDocumentText] and [invalidateCache] leave the timers and
    [pendingAnalysis] as they are. *)
Theorem only_store_files_are_scheduled (h : Host) (filePath : text) (st : state) :
  isStoreFile filePath = false →
  timers (snd (getDocumentText h filePath st)) = timers st
  ∧ pendingAnalysis (snd (getDocumentText h filePath st)) = pendingAnalysis st
  ∧ timers (invalidateCache filePath st) = timers st
  ∧ pendingAnalysis (invalidateCache filePath st) = pendingAnalysis st.
Proof.
  intros Hs. unfold invalidateCache, getDocumentText. rewrite Hs.
  destruct (List.find _ _) as [d|].
  - by case_bool_decide.
  - destruct (fileCache st !! filePath); [done|]. by destruct (readFile h filePath).
Qed.

Lemma only_store_files_are_scheduled_witness :
  timers (snd (getDocumentText workspace (str "/p/widget.ts") counterIndexed))
    = timers counterIndexed
  ∧ pendingAnalysis (snd (getDocumentText workspace (str "/p/widget.ts") counterIndexed))
    = pendingAnalysis counterIndexed
  ∧ timers (invalidateCache (str "/p/widget.ts") counterIndexed)
    = timers counterIndexed
  ∧ pendingAnalysis (invalidateCache (str "/p/widget.ts") counterIndexed)
    = pendingAnalysis counterIndexed.
Proof.
  apply (only_store_files_are_scheduled workspace (str "/p/widget.ts")).
  reflexivity.
Defined.

(** ** Debouncing, further *)

Lemma tracked_initial : tracked initial.
Proof.
  split.
  - intros id due file. simpl. by rewrite lookup_empty.
  - intros id [x H]. simpl in H. by rewrite lookup_empty in H.
Qed.

Lemma scheduleAnalysisForStore_tracked (filePath : text) (st : state) :
  tracked st → tracked (scheduleAnalysisForStore filePath st).
Proof.
  intros [Hrec Hfresh]. unfold scheduleAnalysisForStore.
  set (st1 := match pendingAnalysis st !! filePath with
              | Some id => clearTimeout id st
              | None => st
              end).
  assert (Hp : pendingAnalysis st1 = pendingAnalysis st)
    by (unfold st1; by destruct (pendingAnalysis st !! filePath)).
  assert (Hn : nextTimer st1 = nextTimer st)
    by (unfold st1; by destruct (pendingAnalysis st !! filePath)).
  assert (Ht : ∀ id due file, timers st1 !! id = Some (due, file) →
                 timers st !! id = Some (due, file) ∧ file ≠ filePath).
  { intros id due file. unfold st1.
    destruct (pendingAnalysis st !! filePath) as [id0|] eqn:E.
    - cbn [clearTimeout with_timers timers].
      destruct (decide (id = id0)) as [->|Hne].
      + by rewrite lookup_delete_eq.
      + rewrite lookup_delete_ne by done. intros H. split; [done|].
        intros ->. apply Hrec in H. congruence.
    - intros H. split; [done|]. intros ->. apply Hrec in H. congruence. }
  unfold tracked. simpl. rewrite Hp, Hn. split.
  - intros id due file. destruct (decide (id = nextTimer st)) as [->|Hne].
    + rewrite lookup_insert_eq. intros [= _ <-]. apply lookup_insert_eq.
    + rewrite lookup_insert_ne by done. intros H. apply Ht in H as [H Hfile].
      rewrite lookup_insert_ne by done. by apply Hrec in H.
  - intros id [[due file] H]. destruct (decide (id = nextTimer st)) as [->|Hne];
      [lia|].
    rewrite lookup_insert_ne in H by done. apply Ht in H as [H _].
    assert (id < nextTimer st) by (apply Hfresh; eauto). lia.
Qed.

Lemma getDocumentText_tracked (h : Host) (filePath : text) (st : state) :
  tracked st → tracked (snd (getDocumentText h filePath st)).
Proof.
  intros Hst. unfold getDocumentText. destruct (List.find _ _) as [d|].
  - case_bool_decide; [done|]. cbn [snd].
    destruct (isStoreFile filePath); [|done].
    by apply (scheduleAnalysisForStore_tracked filePath
                (with_fileCache (<[filePath:=snd d]> (fileCache st)) st)).
  - destruct (fileCache st !! filePath); [done|].
    by destruct (readFile h filePath).
Qed.

Lemma invalidateCache_tracked (filePath : text) (st : state) :
  tracked st → tracked (invalidateCache filePath st).
Proof.
  intros Hst. unfold invalidateCache. destruct (isStoreFile filePath); [|done].
  by apply (scheduleAnalysisForStore_tracked filePath
              (with_analyzedFiles _ (with_fileCache _ st))).
Qed.

Lemma quiet_tracked (es : list (Host * event)) : ∀ st st',
  Forall (fun he => quiet (snd he) = true) es →
  tracked st → run_events es st = Some st' → tracked st'.
Proof.
  induction es as [|[h e] es IH]; intros st st' Hq Hst; cbn [run_events].
  - by intros [= <-].
  - apply Forall_cons in Hq as [He Hq].
    destruct (handle h e st) as [st1|] eqn:E; [|done].
    apply IH; [done|].
    destruct e; try discriminate He; cbn [handle] in E; injection E as <-.
    + by apply invalidateCache_tracked.
    + by apply getDocumentText_tracked.
    + done.
Qed.

(** X11.  Coalescing: after any burst of saves and edits, under any hosts
    and with any delays between them, as long as no timeout callback has
    run, at most one timeout is live for each file, and it is the one that
    [pendingAnalysis] records. *)
Theorem saves_and_edits_coalesce (es : list (Host * event)) (st : state)
    (id1 id2 due1 due2 : nat) (file : text) :
  Forall (fun he => quiet (snd he) = true) es →
  run_events es initial = Some st →
  timers st !! id1 = Some (due1, file) →
  timers st !! id2 = Some (due2, file) →
  id1 = id2 ∧ pendingAnalysis st !! file = Some id1.
Proof.
  intros Hq Hrun H1 H2.
  destruct (quiet_tracked es initial st Hq tracked_initial Hrun) as [Hrec _].
  apply Hrec in H1. apply Hrec in H2. split; [congruence|done].
Qed.

Lemma saves_and_edits_coalesce_witness :
  2 = 2
  ∧ pendingAnalysis (default initial (run_events threeSaves initial)) !! counter
    = Some 2.
Proof.
  apply (saves_and_edits_coalesce threeSaves
           (default initial (run_events threeSaves initial)) 2 2 500 500 counter).
  - repeat constructor.
  - by_evaluation.
  - by_evaluation.
  - by_evaluation.
Defined.

(** ** The store index, further *)

(** What [analyzeStoreFile] makes of the index when the file has text. *)
Lemma analyzeStoreFile_index (h : Host) (filePath : text) (st st1 : state)
    (c : ascii) (t : text) :
  getDocumentText h filePath st = (Some (c :: t), st1) →
  let ms := exec_all EXPORT_PATTERN (c :: t) in
  let st' := analyzeStoreFile h filePath st in
  (∀ n, n ∈ namesOf (storeFileToNamesMap st') filePath ↔ n ∈ exported ms)
  ∧ (∀ g, g ≠ filePath →
       storeFileToNamesMap st' !! g = storeFileToNamesMap st !! g)
  ∧ (∀ n g, g ∈ filesOf (storeNameToFilesMap st') n
            ↔ (g ∈ filesOf (storeNameToFilesMap st) n
               ∨ (g = filePath ∧ n ∈ exported ms))
              ∧ ¬ (g = filePath
                   ∧ n ∈ namesOf (storeFileToNamesMap st) filePath
                   ∧ n ∉ exported ms)).
Proof.
  intros Hget. cbv zeta.
  destruct (getDocumentText_index h filePath st) as [Hf Hr].
  unfold analyzeStoreFile. rewrite Hget in *. simpl in Hf, Hr.
  generalize (exec_all EXPORT_PATTERN (c :: t)). intros ms.
  destruct (foldl_addExport filePath ms ∅ (storeNameToFilesMap st1))
    as (Hnew & Hrev1 & _).
  destruct (foldl (addExport filePath) _ _) as [newSet rev1].
  cbn [fst snd] in Hnew, Hrev1.
  destruct (foldl_dropExport filePath newSet
              (elements (default ∅ (storeFileToNamesMap st1 !! filePath))) rev1)
    as [Hrev2 _].
  rewrite Hf, Hr in *. cbn [with_index storeFileToNamesMap storeNameToFilesMap].
  assert (Hn : ∀ n, n ∈ newSet ↔ n ∈ exported ms).
  { intros n. rewrite Hnew, elem_of_empty. tauto. }
  split; [|split].
  - intros n. unfold namesOf. rewrite lookup_insert_eq. apply Hn.
  - intros g Hg. by rewrite lookup_insert_ne.
  - intros n g. rewrite Hrev2, Hrev1, elem_of_elements, <- Hn. done.
Qed.

Lemma analyzeStoreFile_same (h : Host) (filePath : text) (st : state) :
  fst (getDocumentText h filePath st) = None
  ∨ fst (getDocumentText h filePath st) = Some [] →
  sameIndex st (analyzeStoreFile h filePath st).
Proof.
  intros H. unfold analyzeStoreFile, sameIndex.
  destruct (getDocumentText_index h filePath st) as [Hf Hr].
  destruct (getDocumentText h filePath st) as [[[|c t]|] st1]; try done.
  by destruct H.
Qed.

(** X12.  Reindexing replaces: after [analyzeStoreFile] on a file with text,
    the names known for the file are exactly those the export pattern finds
    in the current text, and when the two index maps agreed before, the file
    is in the reverse entry of exactly those names. *)
Theorem reindex_replaces (h : Host) (filePath : text) (st st1 : state)
    (c : ascii) (t : text) (name : text) :
  getDocumentText h filePath st = (Some (c :: t), st1) →
  (isStoreVariable filePath name (analyzeStoreFile h filePath st) = true
   ↔ name ∈ exported (exec_all EXPORT_PATTERN (c :: t)))
  ∧ (consistent (storeFileToNamesMap st) (storeNameToFilesMap st) →
     (filePath ∈ filesOf (storeNameToFilesMap (analyzeStoreFile h filePath st)) name
      ↔ name ∈ exported (exec_all EXPORT_PATTERN (c :: t)))).
Proof.
  intros Hget.
  destruct (analyzeStoreFile_index h filePath st st1 c t Hget) as (H1 & _ & H3).
  split.
  - rewrite <- H1. unfold isStoreVariable, namesOf.
    destruct (storeFileToNamesMap _ !! filePath) as [names|]; simpl.
    + apply bool_decide_eq_true.
    + split; [done|]. by intros ?%elem_of_empty.
  - intros Hc. rewrite H3, <- (Hc name filePath).
    destruct (decide (name ∈ exported (exec_all EXPORT_PATTERN (c :: t))));
      intuition.
Qed.

(** X13.  Reindexing one file leaves every other file's names and reverse
    memberships as they are. *)
Theorem reindex_frame (h : Host) (filePath other name : text) (st : state) :
  other ≠ filePath →
  isStoreVariable other name (analyzeStoreFile h filePath st)
    = isStoreVariable other name st
  ∧ (other ∈ filesOf (storeNameToFilesMap (analyzeStoreFile h filePath st)) name
     ↔ other ∈ filesOf (storeNameToFilesMap st) name).
Proof.
  intros Hne.
  destruct (getDocumentText h filePath st) as [[[|c t]|] st1] eqn:Hget.
  2:{ destruct (analyzeStoreFile_index h filePath st st1 c t Hget) as (_ & H2 & H3).
      split.
      - unfold isStoreVariable. by rewrite H2.
      - rewrite H3. intuition. }
  all: destruct (analyzeStoreFile_same h filePath st) as [Hf Hr];
    [rewrite Hget; auto|]; unfold isStoreVariable; by rewrite Hf, Hr.
Qed.

(** X14.  A store file whose text has become empty keeps its index entries:
    the empty string is falsy, so [analyzeStoreFile] returns before it
    touches the index. *)
Theorem emptied_file_keeps_its_names (h : Host) (filePath : text) (st : state) :
  fst (getDocumentText h filePath st) = Some [] →
  storeFileToNamesMap (analyzeStoreFile h filePath st) = storeFileToNamesMap st
  ∧ storeNameToFilesMap (analyzeStoreFile h filePath st) = storeNameToFilesMap st.
Proof. intros H. apply analyzeStoreFile_same. by right. Qed.

Lemma reindex_replaces_witness :
  (isStoreVariable counter (str "count")
     (analyzeStoreFile counterRenamed counter
        (analyzeStoreFile storeOpen counter initial)) = true
   ↔ str "count" ∈ exported (exec_all EXPORT_PATTERN (str "export const total = 0;")))
  ∧ (consistent
       (storeFileToNamesMap (analyzeStoreFile storeOpen counter initial))
       (storeNameToFilesMap (analyzeStoreFile storeOpen counter initial)) →
     (counter ∈ filesOf
        (storeNameToFilesMap
           (analyzeStoreFile counterRenamed counter
              (analyzeStoreFile storeOpen counter initial))) (str "count")
      ↔ str "count" ∈ exported (exec_all EXPORT_PATTERN (str "export const total = 0;")))).
Proof.
  apply (reindex_replaces counterRenamed counter
           (analyzeStoreFile storeOpen counter initial)
           (snd (getDocumentText counterRenamed counter
                   (analyzeStoreFile storeOpen counter initial)))
           "e"%char (str "xport const total = 0;") (str "count")).
  by_evaluation.
Defined.

Lemma reindex_frame_witness :
  isStoreVariable settings (str "port")
    (analyzeStoreFile storeOpen counter
       (analyzeStoreFile settingsOpen settings initial))
  = isStoreVariable settings (str "port")
      (analyzeStoreFile settingsOpen settings initial)
  ∧ (settings ∈ filesOf
       (storeNameToFilesMap
          (analyzeStoreFile storeOpen counter
             (analyzeStoreFile settingsOpen settings initial))) (str "port")
     ↔ settings ∈ filesOf
         (storeNameToFilesMap (analyzeStoreFile settingsOpen settings initial))
         (str "port")).
Proof.
  apply (reindex_frame storeOpen counter settings (str "port")).
  discriminate.
Defined.

Lemma emptied_file_keeps_its_names_witness :
  storeFileToNamesMap
    (analyzeStoreFile counterEmptied counter
       (analyzeStoreFile storeOpen counter initial))
  = storeFileToNamesMap (analyzeStoreFile storeOpen counter initial)
  ∧ storeNameToFilesMap
      (analyzeStoreFile counterEmptied counter
         (analyzeStoreFile storeOpen counter initial))
    = storeNameToFilesMap (analyzeStoreFile storeOpen counter initial).
Proof.
  apply (emptied_file_keeps_its_names counterEmptied counter).
  reflexivity.
Defined.

(** ** Reachable states *)

Lemma reads_refl (st : state) : reads st st.
Proof. by repeat split. Qed.

Lemma reads_trans (st1 st2 st3 : state) :
  reads st1 st2 → reads st2 st3 → reads st1 st3.
Proof.
  intros ([Ha1 Ha2] & Hb & Hc) ([Ha1' Ha2'] & Hb' & Hc'). repeat split.
  - by rewrite Ha1', Ha1.
  - by rewrite Ha2', Ha2.
  - by rewrite Hb', Hb.
  - by etrans.
Qed.

Lemma getDocumentText_reads (h : Host) (filePath : text) (st : state) :
  reads st (snd (getDocumentText h filePath st)).
Proof.
  split; [apply getDocumentText_index|].
  split; [apply getDocumentText_componentImportsMap|].
  unfold getDocumentText. destruct (List.find _ _) as [d|].
  - case_bool_decide; [done|]. cbn [snd with_analyzedFiles analyzedFiles].
    destruct (isStoreFile filePath).
    + destruct (scheduleAnalysisForStore_cache filePath
                  (with_fileCache (<[filePath:=snd d]> (fileCache st)) st))
        as (_ & -> & _).
      apply subseteq_difference_l. done.
    + apply subseteq_difference_l. done.
  - destruct (fileCache st !! filePath); [done|].
    by destruct (readFile h filePath).
Qed.

Lemma invalidateCache_reads (filePath : text) (st : state) :
  reads st (invalidateCache filePath st).
Proof.
  unfold invalidateCache.
  set (st2 := with_analyzedFiles _ _).
  assert (H2 : reads st st2).
  { repeat split. simpl. apply subseteq_difference_l. done. }
  destruct (isStoreFile filePath); [|done].
  eapply reads_trans; [exact H2|].
  destruct (scheduleAnalysisForStore_cache filePath st2) as (_ & Ha & Hc & Hi).
  repeat split; try apply Hi; [done|]. by rewrite Ha.
Qed.

Section Groups.

Import SearchFacts.

Lemma matches_groupless (r : regex) : ∀ w st st',
  groupless r = true → matches r w st st' → ms_caps st' = ms_caps st.
Proof.
  induction r as [|c|p|r1 IH1 r2 IH2|r1 IH1 r2 IH2|g p|n r1 IH1|n| | |];
    intros w st st'; cbn [groupless matches]; try done.
  - by intros _ [_ ->].
  - by intros _ [_ (s' & _ & ->)].
  - by intros _ (c & s' & _ & _ & _ & ->).
  - intros [H1 H2]%andb_true_iff (u & v & mid & _ & Hu & Hv).
    rewrite (IH2 _ _ _ H2 Hv). by apply (IH1 _ _ _ H1 Hu).
  - intros [H1 H2]%andb_true_iff [H|H]; eauto.
  - by intros _ (_ & _ & ->).
  - intros _. destruct (cap n (ms_caps st)).
    + by intros (_ & _ & ->).
    + by intros [_ ->].
  - by intros _ (_ & -> & _).
  - by intros _ (_ & -> & _).
  - by intros _ (_ & -> & _).
Qed.

Lemma groupless_Lit (w : text) : groupless (Lit w) = true.
Proof. induction w; simpl; auto. Qed.

Lemma matches_Plus (g : bool) (p : ascii → bool) (w : text) (st st' : mstate) :
  matches (Plus g p) w st st' →
  w ≠ [] ∧ Forall (fun c => p c = true) w ∧ ms_caps st' = ms_caps st.
Proof.
  intros H. pose proof (matches_groupless (Plus g p) w st st' eq_refl H) as Hc.
  cbn [Plus matches] in H.
  destruct H as (? & v & ? & -> & (c & ? & -> & Hp & _) & (Hv & _)).
  split; [done|]. split; [|done]. by constructor.
Qed.

(** The groups of a match of [IMPORT_NAME]: the first is a word, and the
    second, where it took part, is a word as well. *)
Lemma import_name_groups (n : text) (m : rmatch) :
  exec IMPORT_NAME n = Some m →
  ∃ w1, group 1 m = Some w1 ∧ identifier w1
    ∧ (group 2 m = None ∨ ∃ w2, group 2 m = Some w2 ∧ identifier w2).
Proof.
  unfold exec. intros H. apply search_sound in H as (a & b & _ & H).
  apply exec_at_sound in H as (w & st' & H & -> & _).
  unfold group. cbn [m_caps]. unfold IMPORT_NAME in H. cbn [matches Opt] in H.
  destruct H as (? & ? & ? & _ & (_ & -> & _) & H).
  destruct H as (u1 & v1 & mid1 & _ & (st1 & H1 & ->) & H).
  pose proof (matches_consumed _ _ _ _ H1) as Hc1.
  rewrite (consumed_take _ _ _ Hc1) in H.
  fold (Plus true Char.is_word) in H1.
  apply matches_Plus in H1 as (Hne1 & Hw1 & Hcaps1). cbn [ms_caps] in Hcaps1.
  rewrite Hcaps1 in H. exists u1.
  destruct H as [H|[_ ->]].
  - destruct H as (? & ? & m1 & _ & Hs1 & H).
    fold (Plus true Char.is_space) in Hs1.
    apply matches_Plus in Hs1 as (_ & _ & Hm1). cbn [ms_caps] in Hm1.
    destruct H as (? & ? & m2 & _ & Has & H).
    pose proof (matches_groupless (Lit (str "as")) _ _ _ eq_refl Has) as Hm2.
    clear Has.
    destruct H as (? & u2 & m3 & _ & Hs2 & (st2 & H2 & ->)).
    fold (Plus true Char.is_space) in Hs2.
    apply matches_Plus in Hs2 as (_ & _ & Hm3).
    pose proof (matches_consumed _ _ _ _ H2) as Hc2.
    rewrite (consumed_take _ _ _ Hc2).
    fold (Plus true Char.is_word) in H2.
    apply matches_Plus in H2 as (Hne2 & Hw2 & Hcaps2).
    cbn [ms_caps]. rewrite Hcaps2, Hm3, Hm2, Hm1.
    split; [done|]. split; [done|]. right. by exists u2.
  - cbn [ms_caps]. split; [done|]. split; [done|]. by left.
Qed.

Lemma addBinding_lookup (resolved : text) (storeMap : gmap text text)
    (n alias target : text) :
  addBinding resolved storeMap n !! alias = Some target →
  storeMap !! alias = Some target ∨ (identifier alias ∧ target = resolved).
Proof.
  unfold addBinding. destruct (exec IMPORT_NAME n) as [m|] eqn:E; [|auto].
  destruct (import_name_groups n m E) as (w1 & -> & Hw1 & H2). cbn [default].
  rewrite lookup_insert. case_decide as Ha; [|auto].
  intros [= <-]. right. split; [|done]. subst alias.
  destruct H2 as [->|(w2 & -> & Hw2)]; [done|].
  destruct w2; [by destruct Hw2|done].
Qed.

Lemma foldl_addBinding_lookup (resolved : text) (names : list text) :
  ∀ (storeMap : gmap text text) alias target,
  foldl (addBinding resolved) storeMap names !! alias = Some target →
  storeMap !! alias = Some target ∨ (identifier alias ∧ target = resolved).
Proof.
  induction names as [|n names IH]; intros storeMap alias target; simpl; [auto|].
  intros H. apply IH in H as [H|H]; [|auto]. by apply addBinding_lookup in H.
Qed.

End Groups.

Section Bound.

Context {path : PathModule}.

Lemma foldl_addImport_lookup (h : Host) (filePath : text) (ms : list rmatch) :
  ∀ (storeMap : gmap text text) alias target,
  foldl (addImport h filePath) storeMap ms !! alias = Some target →
  storeMap !! alias = Some target
  ∨ (identifier alias ∧ isStoreFile target = true).
Proof.
  induction ms as [|m ms IH]; intros storeMap alias target; simpl; [auto|].
  intros H. apply IH in H as [H|H]; [|auto].
  unfold addImport in H.
  destruct (isStoreFile (resolveImportPath _ _ _)) eqn:Hs; [|auto].
  apply foldl_addBinding_lookup in H as [H|[Hi ->]]; auto.
Qed.

End Bound.

Section Requests.

Context {path : PathModule}.

Lemma ensureImportsAnalyzed_sameIndex (h : Host) (filePath : text) (st : state) :
  sameIndex st (ensureImportsAnalyzed h filePath st).
Proof.
  unfold ensureImportsAnalyzed, analyzeComponentImports.
  destruct (componentImportsMap st !! filePath); [done|].
  case_bool_decide; [done|].
  destruct (getDocumentText_index h filePath st) as [Hf Hr].
  by destruct (getDocumentText h filePath st) as [[[|c t]|] st1].
Qed.

Lemma ensureImportsAnalyzed_storeTargets (h : Host) (filePath : text)
    (st : state) :
  storeTargets st → storeTargets (ensureImportsAnalyzed h filePath st).
Proof.
  intros Hst. unfold ensureImportsAnalyzed, analyzeComponentImports.
  destruct (componentImportsMap st !! filePath); [done|].
  case_bool_decide; [done|].
  pose proof (getDocumentText_componentImportsMap h filePath st) as Hc.
  destruct (getDocumentText h filePath st) as [[[|c t]|] st1]; cbn [snd] in Hc;
    try (unfold storeTargets; by rewrite Hc).
  intros file bindings alias target.
  cbn [with_analyzedFiles with_componentImportsMap componentImportsMap].
  rewrite Hc. destruct (decide (file = filePath)) as [->|Hne].
  - rewrite lookup_insert_eq. intros [= <-] Hb.
    apply foldl_addImport_lookup in Hb as [Hb|Hb]; [|done].
    by rewrite lookup_empty in Hb.
  - rewrite lookup_insert_ne by done. apply Hst.
Qed.

Lemma ensureImportsAnalyzed_memoized_files (h : Host) (filePath : text)
    (st : state) :
  analyzedAreMemoized st →
  analyzedAreMemoized (ensureImportsAnalyzed h filePath st).
Proof.
  intros Hst. unfold ensureImportsAnalyzed, analyzeComponentImports.
  destruct (componentImportsMap st !! filePath); [done|].
  case_bool_decide; [done|].
  destruct (getDocumentText_reads h filePath st) as (_ & Hc & Ha).
  destruct (getDocumentText h filePath st) as [[[|c t]|] st1];
    cbn [snd] in Hc, Ha;
    try (intros file Hin; rewrite Hc; by apply Hst, Ha).
  intros file.
  cbn [with_analyzedFiles with_componentImportsMap componentImportsMap
       analyzedFiles].
  rewrite Hc. destruct (decide (file = filePath)) as [->|Hne].
  - rewrite lookup_insert_eq. eauto.
  - rewrite lookup_insert_ne by done. intros Hin.
    apply elem_of_union in Hin as [Hin%elem_of_singleton|Hin]; [done|].
    by apply Hst, Ha.
Qed.

Lemma findStoreDefinitions_state (h : Host) (storeFilePath storeName : text)
    (st st' : state) (locations : list Location) :
  findStoreDefinitions h storeFilePath storeName st = Some (locations, st') →
  st' = snd (getDocumentText h (uriFile storeFilePath) st)
  ∧ ∀ l, l ∈ locations → uri l = uriFile storeFilePath.
Proof.
  unfold findStoreDefinitions. cbv zeta.
  destruct (getDocumentText h (uriFile storeFilePath) st) as [[[|c t]|] st1];
    try (intros [= <- <-]; split; [done|]; by intros l ?%elem_of_nil).
  destruct (of_source storeName); [|done]. intros [= <- <-]. split; [done|].
  by intros l (m & -> & _)%list_elem_of_fmap.
Qed.

Lemma findStoreDefinitions_reads (h : Host) (storeFilePath storeName : text)
    (st st' : state) (locations : list Location) :
  findStoreDefinitions h storeFilePath storeName st = Some (locations, st') →
  reads st st'.
Proof.
  intros [-> _]%findStoreDefinitions_state. apply getDocumentText_reads.
Qed.

Lemma scanFile_reads (h : Host) (storeFilePath storeName fsPath : text)
    (results : list Location) (visited : gset text) (st : state)
    (o : outcome (list Location * gset text * state)) :
  scanFile h storeFilePath storeName fsPath (results, visited, st) = Some o →
  reads st (after_scan o).
Proof.
  unfold scanFile. case_bool_decide.
  { intros [= <-]. apply reads_refl. }
  pose proof (getDocumentText_reads h fsPath st) as Hr.
  destruct (getDocumentText h fsPath st) as [[[|c t]|] st1]; cbn [snd] in Hr;
    try by intros [= <-].
  destruct (hasImportedStore _ _ _) as [[[|]|]|]; try by intros [= <-].
  destruct (findImportReferences _ _ _ _) as [imports visited1].
  destruct (findThisStoreReferences _ _ _ _) as [[accesses visited2]|]; [|done].
  by intros [= <-].
Qed.

Lemma scanFiles_reads (h : Host) (storeFilePath storeName : text)
    (token : nat → bool) (files : list text) :
  ∀ i results visited st o,
  scanFiles h storeFilePath storeName token i files (results, visited, st)
    = Some o →
  reads st (after_scan o).
Proof.
  induction files as [|f files IH]; intros i results visited st o;
    cbn [scanFiles].
  - intros [= <-]. apply reads_refl.
  - destruct (token i); [intros [= <-]; apply reads_refl|].
    destruct (scanFile h storeFilePath storeName f (results, visited, st))
      as [[[[results1 visited1] st1]|st1]|] eqn:E; [| |done];
      apply scanFile_reads in E; cbn [after_scan] in E.
    + intros H. eapply reads_trans; [done|by eapply IH].
    + by intros [= <-].
Qed.

Lemma findStoreVariableReferences_reads (h : Host)
    (storeFilePath storeName : text) (token : nat → bool) (st : state)
    (o : outcome (list Location * state)) :
  findStoreVariableReferences h storeFilePath storeName token st = Some o →
  reads st (after o).
Proof.
  unfold findStoreVariableReferences.
  destruct (findStoreDefinitions h storeFilePath storeName st)
    as [[definitions st1]|] eqn:Hd; [|done].
  apply findStoreDefinitions_reads in Hd.
  destruct (scanFiles _ _ _ _ _ _ _) as [[[[results visited] st2]|st2]|] eqn:Hs;
    [| |done]; apply scanFiles_reads in Hs; cbn [after_scan] in Hs;
    intros [= <-]; by eapply reads_trans.
Qed.

End Requests.

Section Stable.

Context {path : PathModule}.

Lemma stable_initial : stable initial.
Proof.
  split; [apply initial_invariant|]. split; [intros f n; by vm_compute|].
  split.
  - intros f b a t. simpl. by rewrite lookup_empty.
  - by intros f ?%elem_of_empty.
Qed.

Lemma sameIndex_invariants (st st' : state) :
  sameIndex st st' → indexInvariant st → wordIndex st →
  indexInvariant st' ∧ wordIndex st'.
Proof.
  intros [Hf Hr] Hi Hw. unfold indexInvariant, wordIndex, isStoreVariable.
  by rewrite Hf, Hr.
Qed.

Lemma stable_reads (st st' : state) : stable st → reads st st' → stable st'.
Proof.
  intros (Hi & Hw & Ht & Ha) (Hsame & Hc & Hs).
  destruct (sameIndex_invariants st st' Hsame Hi Hw) as [Hi' Hw'].
  split; [done|]. split; [done|]. split.
  - unfold storeTargets. by rewrite Hc.
  - intros file Hin. rewrite Hc. by apply Ha, Hs.
Qed.

Lemma analyzeStoreFile_imports (h : Host) (filePath : text) (st : state) :
  componentImportsMap (analyzeStoreFile h filePath st) = componentImportsMap st
  ∧ analyzedFiles (analyzeStoreFile h filePath st) ⊆ analyzedFiles st.
Proof.
  unfold analyzeStoreFile.
  destruct (getDocumentText_reads h filePath st) as (_ & Hc & Ha).
  destruct (getDocumentText h filePath st) as [[[|c t]|] st1]; try done.
  by destruct (foldl (addExport filePath) _ _).
Qed.

Lemma analyzeStoreFile_stable (h : Host) (filePath : text) (st : state) :
  stable st → stable (analyzeStoreFile h filePath st).
Proof.
  intros (Hi & Hw & Ht & Ha).
  destruct (analyzeStoreFile_imports h filePath st) as [Hc Hs].
  split; [by apply analyzeStoreFile_invariant|].
  split; [by apply analyzeStoreFile_words|]. split.
  - unfold storeTargets. by rewrite Hc.
  - intros file Hin. rewrite Hc. by apply Ha, Hs.
Qed.

Lemma fireTimeout_stable (h : Host) (id : nat) (st st' : state) :
  stable st → fireTimeout h id st = Some st' → stable st'.
Proof.
  intros Hst. unfold fireTimeout.
  destruct (timers st !! id) as [[due file]|]; [|done].
  destruct (due <=? clock st)%nat; [|done]. intros [= <-].
  by apply (analyzeStoreFile_stable h file
              (with_timers (delete id (timers st)) (nextTimer st) st)).
Qed.

Lemma handle_stable (h : Host) (e : event) (st st' : state) :
  stable st → handle h e st = Some st' → stable st'.
Proof.
  intros Hst. destruct e as [files|file|file|ms|id]; cbn [handle].
  - intros [= <-]. revert st Hst.
    induction files as [|f files IH]; intros st Hst; [done|].
    cbn [foldl]. by apply IH, analyzeStoreFile_stable.
  - intros [= <-]. eapply stable_reads; [done|apply invalidateCache_reads].
  - intros [= <-]. eapply stable_reads; [done|apply getDocumentText_reads].
  - by intros [= <-].
  - by apply fireTimeout_stable.
Qed.

Lemma ensureImportsAnalyzed_stable (h : Host) (filePath : text) (st : state) :
  stable st → stable (ensureImportsAnalyzed h filePath st).
Proof.
  intros (Hi & Hw & Ht & Ha).
  destruct (sameIndex_invariants st _
              (ensureImportsAnalyzed_sameIndex h filePath st) Hi Hw) as [Hi' Hw'].
  split; [done|]. split; [done|]. split.
  - by apply ensureImportsAnalyzed_storeTargets.
  - by apply ensureImportsAnalyzed_memoized_files.
Qed.

Lemma findImportedStoreDefinitions_stable (h : Host)
    (componentFilePath storeName : text) (st st' : state)
    (locations : list Location) :
  stable st →
  findImportedStoreDefinitions h componentFilePath storeName st
    = Some (locations, st') →
  stable st'.
Proof.
  intros Hst%(ensureImportsAnalyzed_stable h componentFilePath).
  unfold findImportedStoreDefinitions.
  destruct (componentImportsMap _ !! componentFilePath) as [compMap|];
    [|by intros [= _ <-]].
  destruct (compMap !! storeName) as [[|c target]|]; try by intros [= _ <-].
  intros H%findStoreDefinitions_reads. by eapply stable_reads.
Qed.

Lemma findImportedStoreReferences_stable (h : Host)
    (componentFilePath storeName : text) (st st' : state)
    (locations : list Location) :
  stable st →
  findImportedStoreReferences h componentFilePath storeName st
    = Some (locations, st') →
  stable st'.
Proof.
  intros Hst%(ensureImportsAnalyzed_stable h componentFilePath).
  unfold findImportedStoreReferences.
  destruct (componentImportsMap _ !! componentFilePath) as [compMap|];
    [|by intros [= _ <-]].
  destruct (compMap !! storeName) as [[|c target]|]; try by intros [= _ <-].
  destruct (findStoreDefinitions _ _ _ _) as [[definitions st2]|] eqn:Hd; [|done].
  apply findStoreDefinitions_reads in Hd.
  pose proof (getDocumentText_reads h componentFilePath st2) as Hr.
  destruct (getDocumentText h componentFilePath st2) as [content st3].
  cbn [snd] in Hr.
  assert (Hst3 : stable st3) by (eapply stable_reads; [|exact Hr];
    by eapply stable_reads).
  destruct content as [[|c' t]|]; try by intros [= _ <-].
  destruct (findThisStoreReferences _ _ _ _) as [[accesses v]|]; [|done].
  by intros [= _ <-].
Qed.

Lemma provideReferences_stable (h : Host) (d : Document) (position : Position)
    (word : option text) (token : nat → bool) (st : state)
    (o : outcome (list Location * state)) :
  stable st →
  provideReferences h d position word token st = Some o →
  stable (after o).
Proof.
  intros Hst. unfold provideReferences. destruct word as [word|];
    [|by intros [= <-]].
  destruct (_ && _).
  - intros H%findStoreVariableReferences_reads. by eapply stable_reads.
  - destruct (of_source word) as [w|]; [|done].
    destruct (exec _ _); [|by intros [= <-]].
    destruct (findImportedStoreReferences _ _ _ _) as [[locations st']|] eqn:E;
      [|done].
    intros [= <-]. by eapply findImportedStoreReferences_stable.
Qed.

Lemma provideDefinition_stable (h : Host) (d : Document) (position : Position)
    (word : option text) (st st' : state) (result : option (list Location)) :
  stable st →
  provideDefinition h d position word st = Some (result, st') →
  stable st'.
Proof.
  intros Hst. unfold provideDefinition. destruct word as [word|];
    [|by intros [= _ <-]].
  assert (Himp : ∀ r,
    match findImportedStoreDefinitions h (doc_path d) word st with
    | Some (locations, st'0) => Some (Some locations, st'0)
    | None => None
    end = Some (r, st') → stable st').
  { intros r.
    destruct (findImportedStoreDefinitions _ _ _ _) as [[locs st1]|] eqn:E;
      [|done].
    intros [= _ <-]. by eapply findImportedStoreDefinitions_stable. }
  destruct (_ && _).
  - destruct (findStoreDefinitions _ _ _ _) as [[locs st1]|] eqn:E; [|done].
    intros [= _ <-]. apply findStoreDefinitions_reads in E.
    by eapply stable_reads.
  - destruct (of_source word) as [w|]; [|done].
    destruct (exec _ _); [apply Himp|].
    destruct (isInAddStoresObjectLiteral d position); [apply Himp|].
    by intros [= _ <-].
Qed.

Lemma reachable_stable (st : state) : reachable st → stable st.
Proof.
  induction 1 as [|h e st st' _ IH He|h d p w tok st o _ IH Hp
                  |h d p w st st' res _ IH Hp].
  - apply stable_initial.
  - by eapply handle_stable.
  - by eapply provideReferences_stable.
  - by eapply provideDefinition_stable.
Qed.

End Stable.

(** ** Ranges *)

Section Ranges.

Import Char PositionFacts SearchFacts.

Lemma identifier_no_break (w : text) :
  identifier w → Forall (fun c => is_line_terminator c = false) w.
Proof.
  intros [_ Hw]. eapply Forall_impl; [exact Hw|]. intros c Hc.
  destruct (is_word_not_break c Hc) as [Hcr Hlf].
  unfold is_line_terminator. by rewrite Hcr, Hlf.
Qed.

(** The range of a name located at one of its occurrences: it starts at
    the occurrence and ends on the same line, as many columns further as
    the name is long. *)
Lemma locate_name (fsPath t a name b : text) :
  identifier name → t = a ++ name ++ b →
  locate fsPath t (Z.of_nat (length a)) (length name)
  = mkLocation fsPath
      (mkRange (getPositionFromOffset t (Z.of_nat (length a)))
         (mkPosition (line (getPositionFromOffset t (Z.of_nat (length a))))
            (character (getPositionFromOffset t (Z.of_nat (length a)))
             + length name))).
Proof.
  intros Hid Ht. rewrite locate_start.
  by rewrite (position_run t a name b Ht (identifier_no_break name Hid)).
Qed.

Lemma visit_result (fsPath content : text) (startOff : Z) (len : nat)
    (acc : list Location * gset text) (l : Location) :
  l ∈ fst (visit fsPath content startOff len acc) →
  l ∈ fst acc ∨ l = locate fsPath content startOff len.
Proof.
  destruct acc as [results visited]. unfold visit.
  case_bool_decide as Hk; [auto|]. cbn [fst].
  intros [Hl|Hl%list_elem_of_singleton]%elem_of_app; auto.
Qed.

Lemma findThisStoreReferences_results (fsPath content storeName : text)
    (visited visited' : gset text) (locations : list Location) (l : Location) :
  findThisStoreReferences fsPath content storeName visited
    = Some (locations, visited') →
  l ∈ locations →
  ∃ name m, of_source storeName = Some name
    ∧ m ∈ exec_all (thisPattern name) content
    ∧ l = locate fsPath content (Z.of_nat (m_index m) + 5) (length storeName).
Proof.
  unfold findThisStoreReferences.
  destruct (of_source storeName) as [name|]; [|done].
  intros [= H] Hl. exists name.
  assert (Hgen : ∀ ms acc,
    l ∈ fst (foldl (fun acc m =>
                 visit fsPath content (Z.of_nat (m_index m) + 5)%Z
                   (length storeName) acc) acc ms) →
    l ∈ fst acc ∨ ∃ m, m ∈ ms
      ∧ l = locate fsPath content (Z.of_nat (m_index m) + 5) (length storeName)).
  { induction ms as [|m ms IH]; intros acc; cbn [foldl]; [auto|].
    intros Hin. apply IH in Hin as [Hin|(m' & Hm' & ->)].
    - apply visit_result in Hin as [Hin| ->]; [auto|].
      right. exists m. split; [left|done].
    - right. exists m'. split; [by right|done]. }
  destruct (Hgen (exec_all (thisPattern name) content) ([], visited))
    as [Hin|(m & Hm & ->)].
  - by rewrite H.
  - by apply elem_of_nil in Hin.
  - eauto.
Qed.

Lemma matches_Lit (w u : text) (st st' : mstate) :
  matches (Lit w) u st st' → u = w.
Proof.
  revert u st. induction w as [|c w IH]; intros u st; cbn [Lit matches].
  - by intros [-> _].
  - intros (u1 & u2 & mid & -> & [-> _] & H). by rewrite (IH _ _ H).
Qed.

(** The text of a match of the access pattern, and what follows it. *)
Lemma this_text (name u : text) (st st' : mstate) :
  identifier name →
  matches (thisPattern (atoms name)) u st st' →
  u = str "this." ++ name ∧ is_word_at (head (ms_rest st')) = false.
Proof.
  intros [Hne Hw] H. unfold thisPattern in H. cbn [matches] in H.
  destruct H as (? & ? & ? & -> & (-> & -> & _) & H).
  destruct H as (u1 & ? & m1 & -> & H1 & H).
  apply matches_Lit in H1 as ->.
  destruct H as (? & ? & m2 & -> & [-> _] & H).
  destruct H as (u2 & ? & m3 & -> & H2 & (-> & -> & Hb)).
  pose proof (matches_consumed _ _ _ _ H2) as (_ & _ & Hprev).
  apply (matches_atoms _ Hw) in H2 as ->.
  split; [by rewrite app_nil_r|].
  rewrite Hprev in Hb.
  destruct (last name) as [c|] eqn:E; [|by apply last_None in E].
  apply last_Some_elem_of in E. rewrite Forall_forall in Hw.
  cbn [from_option is_word_at] in Hb. rewrite (Hw c E) in Hb.
  by destruct (is_word_at _).
Qed.

Lemma found_rest (r : regex) (t : text) (m : rmatch) :
  found r t m →
  ∃ a b prev st',
    t = a ++ m_text m ++ b ∧ m_index m = length a
    ∧ matches r (m_text m) (MState prev (m_text m ++ b) (length a) []) st'
    ∧ ms_rest st' = b.
Proof.
  intros (a & b & prev & st' & Ht & Hi & Hm & _).
  exists a, b, prev, st'. repeat (split; [done|]).
  apply matches_consumed in Hm as (Hr & _). cbn [ms_rest] in Hr.
  by apply app_inv_head in Hr.
Qed.

Lemma findThisStoreReferences_span (fsPath content storeName : text)
    (visited visited' : gset text) (locations : list Location) (l : Location) :
  identifier storeName →
  findThisStoreReferences fsPath content storeName visited
    = Some (locations, visited') →
  l ∈ locations →
  ∃ a b,
    content = a ++ str "this." ++ storeName ++ b
    ∧ is_word_at (head b) = false
    ∧ l = mkLocation fsPath
            (mkRange
               (getPositionFromOffset content (Z.of_nat (length a + 5)))
               (mkPosition
                  (line (getPositionFromOffset content (Z.of_nat (length a + 5))))
                  (character (getPositionFromOffset content (Z.of_nat (length a + 5)))
                   + length storeName))).
Proof.
  intros Hid Hfind Hl.
  destruct (findThisStoreReferences_results _ _ _ _ _ _ _ Hfind Hl)
    as (name & m & Hname & Hm & ->).
  rewrite (of_source_identifier _ Hid) in Hname. injection Hname as <-.
  destruct (exec_all_spec (thisPattern (atoms storeName)) content) as [Hfound _].
  rewrite Forall_forall in Hfound.
  destruct (found_rest _ _ _ (Hfound m Hm)) as (a & b & prev & st' & Ht & Hi & Hmatch & Hrest).
  destruct (this_text _ _ _ _ Hid Hmatch) as [Htext Hb].
  rewrite Hrest in Hb. rewrite Htext in Ht. exists a, b.
  split; [by rewrite <- app_assoc in Ht|]. split; [done|].
  rewrite Hi. replace (Z.of_nat (length a) + 5)%Z with (Z.of_nat (length a + 5)) by lia.
  replace (length a + 5) with (length (a ++ str "this."))
    by (rewrite length_app; done).
  apply (locate_name fsPath content (a ++ str "this.") storeName b Hid).
  rewrite Ht. by rewrite <- !app_assoc.
Qed.

(** X18.  An access that [findThisStoreReferences] returns is at an
    occurrence of [this.] followed by the name, with no word character after
    it; its range starts at the name and ends on the same line, as many
    columns further as the name is long. *)
Theorem access_reference_covers_the_name (fsPath content storeName : text)
    (visited visited' : gset text) (locations : list Location) (l : Location) :
  identifier storeName →
  findThisStoreReferences fsPath content storeName visited
    = Some (locations, visited') →
  l ∈ locations →
  ∃ a b,
    content = a ++ str "this." ++ storeName ++ b
    ∧ is_word_at (head b) = false
    ∧ l = mkLocation fsPath
            (mkRange
               (getPositionFromOffset content (Z.of_nat (length a + 5)))
               (mkPosition
                  (line (getPositionFromOffset content (Z.of_nat (length a + 5))))
                  (character (getPositionFromOffset content (Z.of_nat (length a + 5)))
                   + length storeName))).
Proof. apply findThisStoreReferences_span. Qed.

(** X19.  A location that [findStoreDefinitions] returns is in the file
    that [vscode.Uri.file] makes of the store path, and covers an
    occurrence of the name in the text of that file: its range starts
    there and ends on the same line, as many columns further as the name is
    long. *)
Theorem definition_covers_the_name (h : Host) (storeFilePath storeName : text)
    (st st' : state) (locations : list Location) (l : Location) :
  identifier storeName →
  findStoreDefinitions h storeFilePath storeName st = Some (locations, st') →
  l ∈ locations →
  ∃ t a b,
    fst (getDocumentText h (uriFile storeFilePath) st) = Some t
    ∧ t = a ++ storeName ++ b
    ∧ l = mkLocation (uriFile storeFilePath)
            (mkRange
               (getPositionFromOffset t (Z.of_nat (length a)))
               (mkPosition
                  (line (getPositionFromOffset t (Z.of_nat (length a))))
                  (character (getPositionFromOffset t (Z.of_nat (length a)))
                   + length storeName))).
Proof.
  intros Hid. unfold findStoreDefinitions. cbv zeta.
  destruct (getDocumentText h (uriFile storeFilePath) st) as [[[|c t]|] st1];
    try (by intros [= <- <-] ?%elem_of_nil).
  rewrite (of_source_identifier _ Hid). intros [= <- <-] Hl.
  apply list_elem_of_fmap in Hl as (m & -> & Hm).
  destruct (exec_all_spec (definitionPattern (atoms storeName)) (c :: t))
    as [Hfound _].
  rewrite Forall_forall in Hfound.
  destruct (definition_offset (c :: t) storeName m Hid (Hfound m Hm))
    as (a & b & Hoff & Ht & _).
  exists (c :: t), a, b. split; [done|]. split; [done|].
  rewrite Hoff. by apply (locate_name _ _ a storeName b).
Qed.

(** The first group of a match of [IMPORT_PATTERN] is part of the text of
    the match. *)
Lemma import_block (t : text) (m : rmatch) :
  found IMPORT_PATTERN t m →
  ∃ pre block post, group 1 m = Some block ∧ m_text m = pre ++ block ++ post.
Proof.
  intros (a & b & prev & st' & _ & _ & Hm & Hcaps).
  unfold group. rewrite Hcaps. clear Hcaps.
  unfold IMPORT_PATTERN in Hm.
  destruct Hm as (u1 & ? & ? & -> & _ & Hm).
  destruct Hm as (u2 & ? & ? & -> & _ & Hm).
  destruct Hm as (u3 & ? & ? & -> & _ & Hm).
  destruct Hm as (block & post & mid & -> & (st1 & Hblock & ->) & Hrest).
  pose proof (matches_consumed _ _ _ _ Hblock) as Hc.
  rewrite (consumed_take _ _ _ Hc) in Hrest.
  fold (Plus true (is_not "}")) in Hblock.
  apply matches_Plus in Hblock as (_ & _ & Hcaps1).
  exists (u1 ++ u2 ++ u3), block, post. split; [|by rewrite <- !app_assoc].
  cbn [matches] in Hrest.
  destruct Hrest as (? & ? & m1 & _ & (_ & ? & _ & ->) & Hrest).
  destruct Hrest as (? & ? & m2 & _ & Hs1 & Hrest).
  fold (Plus true is_space) in Hs1. apply matches_Plus in Hs1 as (_ & _ & Hm2).
  destruct Hrest as (? & ? & m3 & _ & Hfrom & Hrest).
  pose proof (matches_groupless (Lit (str "from")) _ _ _ eq_refl Hfrom) as Hm3.
  clear Hfrom.
  destruct Hrest as (? & ? & m4 & _ & Hs2 & Hrest).
  fold (Plus true is_space) in Hs2. apply matches_Plus in Hs2 as (_ & _ & Hm4).
  destruct Hrest as (? & ? & m5 & _ & (? & ? & _ & _ & _ & ->) & Hrest).
  destruct Hrest as (? & ? & m6 & _ & (st2 & Hspec & ->) & (? & ? & _ & _ & _ & ->)).
  fold (Plus false dot) in Hspec. apply matches_Plus in Hspec as (_ & _ & Hm6).
  cbn [step ms_caps] in *. unfold cap. cbn [List.find fst Nat.eqb].
  rewrite Hm6. cbn [step ms_caps]. rewrite Hm4, Hm3, Hm2. cbn [step ms_caps].
  by rewrite Hcaps1.
Qed.

Lemma includes_occurs (s w : text) :
  JsString.includes s w = true ↔ ∃ a b, s = a ++ w ++ b.
Proof.
  unfold JsString.includes. split.
  - destruct (JsString.index_from w s 0) as [k|] eqn:E; [|done]. intros _.
    apply index_from_sound in E as (a & b & -> & _). eauto.
  - intros (a & b & ->).
    by destruct (index_from_complete w a b 0) as (k & -> & _).
Qed.

Lemma findImportReferences_results (fsPath content storeName : text)
    (visited : gset text) (l : Location) :
  l ∈ fst (findImportReferences fsPath content storeName visited) →
  ∃ m, m ∈ exec_all IMPORT_PATTERN content
    ∧ JsString.includes (default [] (group 1 m)) storeName = true
    ∧ l = locate fsPath content
            (Z.of_nat (m_index m) + JsString.indexOf (m_text m) storeName)
            (length storeName).
Proof.
  unfold findImportReferences.
  assert (Hgen : ∀ ms acc,
    l ∈ fst (foldl (fun acc m =>
           let importBlock := default [] (group 1 m) in
           if JsString.includes importBlock storeName then
             let importPos :=
               (Z.of_nat (m_index m) + JsString.indexOf (m_text m) storeName)%Z in
             if (0 <=? importPos)%Z
             then visit fsPath content importPos (length storeName) acc
             else acc
           else acc) acc ms) →
    l ∈ fst acc ∨ ∃ m, m ∈ ms
      ∧ JsString.includes (default [] (group 1 m)) storeName = true
      ∧ l = locate fsPath content
              (Z.of_nat (m_index m) + JsString.indexOf (m_text m) storeName)
              (length storeName)).
  { induction ms as [|m ms IH]; intros acc; cbn [foldl]; [auto|].
    intros Hin. apply IH in Hin as [Hin|(m' & Hm' & H)].
    - cbv zeta in Hin.
      destruct (JsString.includes _ _) eqn:Hinc; [|auto].
      destruct (0 <=? _)%Z; [|auto].
      apply visit_result in Hin as [Hin| ->]; [auto|].
      right. exists m. split; [left|done].
    - right. exists m'. split; [by right|done]. }
  intros Hl. apply Hgen in Hl as [Hl|H]; [by apply elem_of_nil in Hl|done].
Qed.

(** X20.  A location that [findImportReferences] returns covers an
    occurrence of the name in the text: the guard on [importPos] never lets
    a position through that [indexOf] did not find. *)
Theorem import_reference_covers_the_name (fsPath content storeName : text)
    (visited : gset text) (l : Location) :
  identifier storeName →
  l ∈ fst (findImportReferences fsPath content storeName visited) →
  ∃ a b,
    content = a ++ storeName ++ b
    ∧ l = mkLocation fsPath
            (mkRange
               (getPositionFromOffset content (Z.of_nat (length a)))
               (mkPosition
                  (line (getPositionFromOffset content (Z.of_nat (length a))))
                  (character (getPositionFromOffset content (Z.of_nat (length a)))
                   + length storeName))).
Proof.
  intros Hid Hl.
  apply findImportReferences_results in Hl as (m & Hm & Hinc & ->).
  destruct (exec_all_spec IMPORT_PATTERN content) as [Hfound _].
  rewrite Forall_forall in Hfound. specialize (Hfound m Hm).
  destruct (import_block content m Hfound) as (pre & block & post & Hg & Htext).
  rewrite Hg in Hinc. simpl in Hinc.
  apply includes_occurs in Hinc as (x & y & ->).
  destruct Hfound as (a0 & b0 & _ & _ & Ht & Hi & _).
  unfold JsString.indexOf.
  destruct (JsString.index_from storeName (m_text m) 0) as [k|] eqn:E.
  2:{ rewrite Htext in E.
      destruct (index_from_complete storeName (pre ++ x) (y ++ post) 0)
        as (k & Hk & _).
      rewrite <- !app_assoc in Hk. rewrite <- !app_assoc in E. congruence. }
  apply index_from_sound in E as (a1 & b1 & Ha1 & ->).
  exists (a0 ++ a1), (b1 ++ b0). rewrite Hi.
  assert (Hc : content = (a0 ++ a1) ++ storeName ++ b1 ++ b0).
  { rewrite Ht, Ha1. by rewrite <- !app_assoc. }
  split; [done|].
  replace (Z.of_nat (length a0) + Z.of_nat (0 + length a1))%Z
    with (Z.of_nat (length (a0 ++ a1))) by (rewrite length_app; lia).
  by apply (locate_name _ _ (a0 ++ a1) storeName (b1 ++ b0)).
Qed.

End Ranges.

Lemma access_reference_covers_the_name_witness :
  ∃ a b,
    usesCount = a ++ str "this." ++ str "count" ++ b
    ∧ is_word_at (head b) = false
    ∧ mkLocation widget (mkRange (mkPosition 1 33) (mkPosition 1 38))
      = mkLocation widget
          (mkRange
             (getPositionFromOffset usesCount (Z.of_nat (length a + 5)))
             (mkPosition
                (line (getPositionFromOffset usesCount (Z.of_nat (length a + 5))))
                (character (getPositionFromOffset usesCount (Z.of_nat (length a + 5)))
                 + length (str "count")))).
Proof.
  apply (access_reference_covers_the_name widget usesCount (str "count") ∅
           (snd (default ([], ∅)
                   (findThisStoreReferences widget usesCount (str "count") ∅)))
           [mkLocation widget (mkRange (mkPosition 1 33) (mkPosition 1 38))]).
  - split; [done|]. repeat constructor.
  - by_evaluation.
  - by_evaluation.
Defined.

Lemma definition_covers_the_name_witness :
  ∃ t a b,
    fst (getDocumentText workspace counter initial) = Some t
    ∧ t = a ++ str "count" ++ b
    ∧ mkLocation counter (mkRange (mkPosition 0 13) (mkPosition 0 18))
      = mkLocation counter
          (mkRange
             (getPositionFromOffset t (Z.of_nat (length a)))
             (mkPosition
                (line (getPositionFromOffset t (Z.of_nat (length a))))
                (character (getPositionFromOffset t (Z.of_nat (length a)))
                 + length (str "count")))).
Proof.
  apply (definition_covers_the_name workspace counter (str "count") initial
           (snd (default ([], initial)
                   (findStoreDefinitions workspace counter (str "count") initial)))
           [mkLocation counter (mkRange (mkPosition 0 13) (mkPosition 0 18))]).
  - split; [done|]. repeat constructor.
  - by_evaluation.
  - by_evaluation.
Defined.

Lemma import_reference_covers_the_name_witness :
  ∃ a b,
    usesCount = a ++ str "count" ++ b
    ∧ mkLocation widget (mkRange (mkPosition 0 9) (mkPosition 0 14))
      = mkLocation widget
          (mkRange
             (getPositionFromOffset usesCount (Z.of_nat (length a)))
             (mkPosition
                (line (getPositionFromOffset usesCount (Z.of_nat (length a))))
                (character (getPositionFromOffset usesCount (Z.of_nat (length a)))
                 + length (str "count")))).
Proof.
  apply (import_reference_covers_the_name widget usesCount (str "count") ∅).
  - split; [done|]. repeat constructor.
  - by_evaluation.
Defined.

(** ** Sources of the locations *)

Section Uris.

Context {path : PathModule}.

Lemma scanFile_uris (h : Host) (storeFilePath storeName fsPath : text)
    (results results' : list Location) (visited visited' : gset text)
    (st st' : state) :
  scanFile h storeFilePath storeName fsPath (results, visited, st)
    = Some (Returns (results', visited', st')) →
  ∃ new, results' = results ++ new
    ∧ ∀ l, l ∈ new → uri l = fsPath ∧ fsPath ≠ storeFilePath.
Proof.
  assert (Hnil : ∃ new : list Location, results = results ++ new
            ∧ ∀ l, l ∈ new → uri l = fsPath ∧ fsPath ≠ storeFilePath).
  { exists []. split; [by rewrite app_nil_r|]. by intros l ?%elem_of_nil. }
  unfold scanFile. case_bool_decide as Hne; [by intros [= <- _ _]|].
  destruct (getDocumentText h fsPath st) as [[[|c t]|] st1];
    try by intros [= <- _ _].
  destruct (hasImportedStore _ _ _) as [[[|]|]|]; [|by intros [= <- _ _]|done..].
  pose proof (findImportReferences_fresh fsPath (c :: t) storeName visited) as Hi.
  destruct (findImportReferences _ _ _ _) as [imports visited1].
  destruct (findThisStoreReferences _ _ _ _) as [[accesses visited2]|] eqn:Ha;
    [|done].
  apply findThisStoreReferences_fresh in Ha.
  destruct Hi as (_ & Hi & _), Ha as (_ & Ha & _). cbn [fst snd] in *.
  intros [= <- _ _]. exists (imports ++ accesses). split; [done|].
  intros l [Hl|Hl]%elem_of_app; split; try done.
  - by apply Hi.
  - by apply Ha.
Qed.

Lemma scanFiles_uris (h : Host) (storeFilePath storeName : text)
    (token : nat → bool) (files : list text) :
  ∀ i results visited st results' visited' st',
  scanFiles h storeFilePath storeName token i files (results, visited, st)
    = Some (Returns (results', visited', st')) →
  ∃ new, results' = results ++ new
    ∧ ∀ l, l ∈ new → uri l ∈ files ∧ uri l ≠ storeFilePath.
Proof.
  induction files as [|f files IH];
    intros i results visited st results' visited' st'; cbn [scanFiles].
  - intros [= <- _ _]. exists []. split; [by rewrite app_nil_r|].
    by intros l ?%elem_of_nil.
  - destruct (token i).
    { intros [= <- _ _]. exists []. split; [by rewrite app_nil_r|].
      by intros l ?%elem_of_nil. }
    destruct (scanFile h storeFilePath storeName f (results, visited, st))
      as [[[[results1 visited1] st1]|st1]|] eqn:E; [|done..].
    apply scanFile_uris in E as (new1 & -> & H1).
    intros (new2 & -> & H2)%IH. exists (new1 ++ new2).
    split; [by rewrite app_assoc|].
    intros l [Hl|Hl]%elem_of_app.
    + destruct (H1 l Hl) as [-> Hne]. split; [left|done].
    + destruct (H2 l Hl) as [Hin Hne]. split; [by right|done].
Qed.

(** X21.  The references to a store variable are the definitions, all in the
    store file, which is the file that [vscode.Uri.file] makes of the path
    of the store file, followed by occurrences in files that [findFiles]
    listed, none of them under the path of the store file: the store file
    itself is not searched for imports and accesses. *)
Theorem store_references_skip_the_store_file (h : Host)
    (storeFilePath storeName : text) (token : nat → bool) (st st' : state)
    (locations : list Location) :
  findStoreVariableReferences h storeFilePath storeName token st
    = Some (Returns (locations, st')) →
  ∃ definitions references st1,
    findStoreDefinitions h storeFilePath storeName st = Some (definitions, st1)
    ∧ locations = definitions ++ references
    ∧ (∀ l, l ∈ definitions → uri l = uriFile storeFilePath)
    ∧ (∀ l, l ∈ references → uri l ∈ findFiles h ∧ uri l ≠ storeFilePath).
Proof.
  unfold findStoreVariableReferences.
  destruct (findStoreDefinitions h storeFilePath storeName st)
    as [[definitions st1]|] eqn:Hd; [|done].
  destruct (scanFiles _ _ _ _ _ _ _) as [[[[results visited] st2]|st2]|] eqn:Hs;
    [|done..].
  intros [= <- <-]. apply scanFiles_uris in Hs as (new & -> & Hnew).
  exists definitions, new, st1. split; [done|]. split; [done|].
  split; [|done]. by apply (findStoreDefinitions_state _ _ _ _ _ _ Hd).
Qed.

(** X22.  The references found from a component are the definitions in the
    store file that the component's bindings give for the name, which is
    the file that [vscode.Uri.file] makes of the target of the binding,
    and accesses in the component itself; no other file contributes. *)
Theorem component_references_stay_local (h : Host)
    (componentFilePath storeName : text) (st st' : state)
    (locations : list Location) (l : Location) :
  findImportedStoreReferences h componentFilePath storeName st
    = Some (locations, st') →
  l ∈ locations →
  uri l = componentFilePath
  ∨ (∃ bindings target,
       componentImportsMap st' !! componentFilePath = Some bindings
       ∧ bindings !! storeName = Some target
       ∧ uri l = uriFile target).
Proof.
  unfold findImportedStoreReferences.
  set (st1 := ensureImportsAnalyzed h componentFilePath st).
  destruct (componentImportsMap st1 !! componentFilePath) as [compMap|] eqn:Hc;
    [|by intros [= <- _] ?%elem_of_nil].
  destruct (compMap !! storeName) as [[|c target]|] eqn:Hn;
    try by intros [= <- _] ?%elem_of_nil.
  destruct (findStoreDefinitions _ _ _ _) as [[definitions st2]|] eqn:Hd; [|done].
  pose proof (findStoreDefinitions_reads _ _ _ _ _ _ Hd) as (_ & Hc2 & _).
  apply findStoreDefinitions_state in Hd as [_ Hdefs].
  pose proof (getDocumentText_reads h componentFilePath st2) as (_ & Hc3 & _).
  destruct (getDocumentText h componentFilePath st2) as [content st3].
  cbn [snd] in Hc3.
  assert (Hdef : ∀ l, l ∈ definitions →
            ∃ bindings target,
              componentImportsMap st3 !! componentFilePath = Some bindings
              ∧ bindings !! storeName = Some target
              ∧ uri l = uriFile target).
  { intros l' Hl'. exists compMap, (c :: target). rewrite Hc3, Hc2, Hc.
    split; [done|]. split; [done|]. by apply Hdefs. }
  destruct content as [[|c' t]|]; try (intros [= <- <-] Hl; right; by apply Hdef).
  destruct (findThisStoreReferences _ _ _ _) as [[accesses v]|] eqn:Ha; [|done].
  apply findThisStoreReferences_fresh in Ha as (_ & Ha & _). cbn [fst] in Ha.
  intros [= <- <-] [Hl|Hl]%elem_of_app.
  - right. by apply Hdef.
  - left. by apply Ha.
Qed.

Lemma findImportedStoreDefinitions_uris (h : Host)
    (componentFilePath storeName : text) (st st' : state)
    (locations : list Location) (l : Location) :
  storeTargets st →
  findImportedStoreDefinitions h componentFilePath storeName st
    = Some (locations, st') →
  l ∈ locations → isStoreFile (uri l) = true.
Proof.
  intros Hst%(ensureImportsAnalyzed_storeTargets h componentFilePath).
  unfold findImportedStoreDefinitions.
  destruct (componentImportsMap _ !! componentFilePath) as [compMap|] eqn:Hc;
    [|by intros [= <- _] ?%elem_of_nil].
  destruct (compMap !! storeName) as [[|c target]|] eqn:Hn;
    try by intros [= <- _] ?%elem_of_nil.
  intros [_ Hd]%findStoreDefinitions_state Hl. rewrite (Hd l Hl).
  apply isStoreFile_uriFile. by destruct (Hst _ _ _ _ Hc Hn).
Qed.

Lemma provideDefinition_uris (h : Host) (d : Document) (position : Position)
    (word : option text) (st st' : state) (locations : list Location)
    (l : Location) :
  storeTargets st →
  provideDefinition h d position word st = Some (Some locations, st') →
  l ∈ locations → isStoreFile (uri l) = true.
Proof.
  intros Hst. unfold provideDefinition. destruct word as [word|]; [|done].
  assert (Himp :
    match findImportedStoreDefinitions h (doc_path d) word st with
    | Some (locations, st'0) => Some (Some locations, st'0)
    | None => None
    end = Some (Some locations, st') → l ∈ locations → isStoreFile (uri l) = true).
  { destruct (findImportedStoreDefinitions _ _ _ _) as [[locs st1]|] eqn:E;
      [|done].
    intros [= <- <-]. by eapply findImportedStoreDefinitions_uris. }
  destruct (isStoreFile (doc_path d)) eqn:Hs; cbn [andb].
  - destruct (isStoreVariable _ _ _).
    + destruct (findStoreDefinitions _ _ _ _) as [[locs st1]|] eqn:E; [|done].
      intros [= <- <-] Hl.
      apply findStoreDefinitions_state in E as [_ E]. rewrite (E l Hl).
      by apply isStoreFile_uriFile.
    + destruct (of_source word) as [w|]; [|done].
      destruct (exec _ _); [apply Himp|].
      destruct (isInAddStoresObjectLiteral d position); [apply Himp|done].
  - destruct (of_source word) as [w|]; [|done].
    destruct (exec _ _); [apply Himp|].
    destruct (isInAddStoresObjectLiteral d position); [apply Himp|done].
Qed.

Lemma ensureImportsAnalyzed_first (h : Host) (filePath : text) (st : state)
    (c : ascii) (t : text) :
  analyzedAreMemoized st →
  componentImportsMap st !! filePath = None →
  fst (getDocumentText h filePath st) = Some (c :: t) →
  componentImportsMap (ensureImportsAnalyzed h filePath st) !! filePath
  = Some (foldl (addImport h filePath) ∅ (exec_all IMPORT_PATTERN (c :: t))).
Proof.
  intros Ha Hnone. unfold ensureImportsAnalyzed, analyzeComponentImports.
  rewrite Hnone. case_bool_decide as Hin.
  { apply Ha in Hin as [b Hb]. congruence. }
  destruct (getDocumentText h filePath st) as [t' st1]. cbn [fst].
  intros ->. cbn [with_analyzedFiles with_componentImportsMap componentImportsMap].
  apply lookup_insert_eq.
Qed.

End Uris.

Lemma store_references_skip_the_store_file_witness :
  ∃ definitions references st1,
    findStoreDefinitions workspace counter (str "count") initial
      = Some (definitions, st1)
    ∧ default []
        (locations (findStoreVariableReferences workspace counter (str "count")
                      (fun _ => false) initial))
      = definitions ++ references
    ∧ (∀ l, l ∈ definitions → uri l = uriFile counter)
    ∧ (∀ l, l ∈ references → uri l ∈ findFiles workspace ∧ uri l ≠ counter).
Proof.
  apply (store_references_skip_the_store_file (path := posix) workspace counter
           (str "count") (fun _ => false) initial
           (from_option after initial
              (findStoreVariableReferences workspace counter (str "count")
                 (fun _ => false) initial))).
  by_evaluation.
Defined.

Lemma component_references_stay_local_witness :
  uri (mkLocation (str "/pkg/shared.store.ts")
         (mkRange (mkPosition 0 13) (mkPosition 0 19))) = widget
  ∨ (∃ bindings target,
       componentImportsMap
         (snd (default ([], initial)
                 (findImportedStoreReferences sharedOpen widget (str "shared")
                    initial))) !! widget = Some bindings
       ∧ bindings !! str "shared" = Some target
       ∧ uri (mkLocation (str "/pkg/shared.store.ts")
                (mkRange (mkPosition 0 13) (mkPosition 0 19)))
         = uriFile target).
Proof.
  apply (component_references_stay_local (path := posix) sharedOpen widget
           (str "shared") initial
           (snd (default ([], initial)
                   (findImportedStoreReferences sharedOpen widget (str "shared")
                      initial)))
           (fst (default ([], initial)
                   (findImportedStoreReferences sharedOpen widget (str "shared")
                      initial)))).
  - by_evaluation.
  - by_evaluation.
Defined.

(** The references found from the component with the package import: the
    definition in the file with the slash in front, and the access. *)
Example package_binding_is_followed :
  fst <$> findImportedStoreReferences sharedOpen widget (str "shared") initial
  = Some [mkLocation (str "/pkg/shared.store.ts")
            (mkRange (mkPosition 0 13) (mkPosition 0 19));
          mkLocation widget (mkRange (mkPosition 1 33) (mkPosition 1 39))].
Proof. by_evaluation. Qed.

(** ** What holds in every state *)

(** X15.  From the empty tracker, whatever the handlers, the timeout
    callbacks and the providers do, the two index maps agree, the reverse
    map has no empty entry, and every indexed name is a word. *)
Theorem index_holds_in_every_state {path : PathModule} (st : state) :
  reachable st → indexInvariant st ∧ wordIndex st.
Proof. intros (Hi & Hw & _)%reachable_stable. by split. Qed.

Lemma index_holds_in_every_state_witness :
  indexInvariant counterActivated ∧ wordIndex counterActivated.
Proof.
  apply (index_holds_in_every_state (path := posix)).
  apply (reachable_event storeOpen (Activate [counter]) initial);
    [apply reachable_initial|reflexivity].
Defined.

(** X16.  A file in [analyzedFiles] always has memoized bindings, so the
    early return of [analyzeComponentImports] is never what
    [ensureImportsAnalyzed] runs into: a file without memoized bindings is
    not in [analyzedFiles], and when its text is there and not empty, its
    bindings are computed from that text. *)
Theorem first_analysis_is_not_skipped {path : PathModule} (h : Host)
    (filePath : text) (st : state) (c : ascii) (t : text) :
  reachable st →
  componentImportsMap st !! filePath = None →
  fst (getDocumentText h filePath st) = Some (c :: t) →
  (filePath ∉ analyzedFiles st)
  ∧ componentImportsMap (ensureImportsAnalyzed h filePath st) !! filePath
    = Some (foldl (addImport h filePath) ∅ (exec_all IMPORT_PATTERN (c :: t))).
Proof.
  intros (_ & _ & _ & Ha)%reachable_stable Hnone Ht. split.
  - intros [b Hb]%Ha. congruence.
  - by apply ensureImportsAnalyzed_first.
Qed.

Lemma first_analysis_is_not_skipped_witness :
  (widget ∉ analyzedFiles counterActivated)
  ∧ componentImportsMap (ensureImportsAnalyzed workspace widget counterActivated)
      !! widget
    = Some (foldl (addImport workspace widget) ∅
              (exec_all IMPORT_PATTERN
                 ("i" :: str "mport { count } from './counter.store';
class W { render() { return this.count; } }"))).
Proof.
  apply (first_analysis_is_not_skipped (path := posix) workspace widget
           counterActivated).
  - apply (reachable_event storeOpen (Activate [counter]) initial);
      [apply reachable_initial|reflexivity].
  - reflexivity.
  - reflexivity.
Defined.

(** X17.  Go to definition only ever lands in a store file: every location
    that [provideDefinition] returns is in a file whose path [isStoreFile]
    accepts. *)
Theorem definition_lands_in_store_file {path : PathModule} (h : Host)
    (d : Document) (position : Position) (word : option text) (st st' : state)
    (locations : list Location) (l : Location) :
  reachable st →
  line position < length (doc_lines d) →
  provideDefinition h d position word st = Some (Some locations, st') →
  l ∈ locations → isStoreFile (uri l) = true.
Proof.
  intros (_ & _ & Ht & _)%reachable_stable _. by apply provideDefinition_uris.
Qed.

Lemma definition_lands_in_store_file_witness :
  isStoreFile (uri (mkLocation counter (mkRange (mkPosition 0 13) (mkPosition 0 18))))
  = true.
Proof.
  apply (definition_lands_in_store_file (path := posix) workspace widgetDocument
           (mkPosition 1 33) (Some (str "count")) counterActivated
           (snd (default (None, initial)
                   (provideDefinition workspace widgetDocument (mkPosition 1 33)
                      (Some (str "count")) counterActivated)))
           [mkLocation counter (mkRange (mkPosition 0 13) (mkPosition 0 18))]).
  - apply (reachable_event storeOpen (Activate [counter]) initial);
      [apply reachable_initial|reflexivity].
  - simpl. lia.
  - by_evaluation.
  - by_evaluation.
Defined.

(** ** The matcher, further *)

Section Completeness.

Import Char.

Lemma advance_cons (c : ascii) (w s : text) (prev : option ascii) (pos : nat)
    (caps : list (nat * text)) :
  advance w (MState (Some c) s (S pos) caps)
  = advance (c :: w) (MState prev (c :: s) pos caps).
Proof.
  unfold advance. cbn [ms_prev ms_rest ms_pos ms_caps length skipn].
  f_equal; [|lia].
  destruct w as [|x w] using rev_ind; [done|].
  by rewrite app_comm_cons, !last_snoc.
Qed.

Lemma advance_nil (st : mstate) : advance [] st = st.
Proof.
  destruct st. unfold advance. simpl. by rewrite Nat.add_0_r.
Qed.

(** Whatever the order in which [star] tries them, a run of matching
    code units after which the continuation succeeds makes it succeed. *)
Lemma star_complete (greedy : bool) (p : ascii → bool)
    (k : mstate → option mstate) (w : text) :
  ∀ s' prev pos caps,
  Forall (fun c => p c = true) w →
  is_Some (k (advance w (MState prev (w ++ s') pos caps))) →
  is_Some (star greedy p k prev pos caps (w ++ s')).
Proof.
  induction w as [|c w IH]; intros s' prev pos caps Hw Hk.
  - rewrite advance_nil in Hk. cbn [app] in *.
    destruct s' as [|c s']; cbn [star]; [done|].
    destruct (p c); [|done]. destruct greedy.
    + destruct (star true p k (Some c) (S pos) caps s'); [eauto|done].
    + destruct Hk as [r ->]. eauto.
  - apply Forall_cons in Hw as [Hc Hw]. cbn [app star]. rewrite Hc.
    cbn [app] in Hk. rewrite <- advance_cons in Hk.
    specialize (IH s' (Some c) (S pos) caps Hw Hk). destruct IH as [r Hr].
    destruct greedy.
    + rewrite Hr. eauto.
    + rewrite Hr. destruct (k (MState prev _ pos caps)); eauto.
Qed.

(** Completeness of the matcher: where the pattern can reach a state on
    which the continuation succeeds, the matcher succeeds. *)
Lemma run_complete (r : regex) : ∀ w k st st',
  matches r w st st' → is_Some (k st') → is_Some (run r k st).
Proof.
  induction r as [|c|p|r1 IH1 r2 IH2|r1 IH1 r2 IH2|g p|n r1 IH1|n| | |];
    intros w k st st'; cbn [matches run].
  - by intros [_ ->].
  - intros [_ (s' & -> & ->)]. by rewrite Ascii.eqb_refl.
  - intros (c & s' & _ & Hp & -> & ->). by rewrite Hp.
  - intros (u & v & mid & _ & H1 & H2) Hk.
    eapply IH1; [exact H1|]. by eapply IH2.
  - intros [H|H] Hk.
    + destruct (IH1 _ _ _ _ H Hk) as [res ->]. eauto.
    + destruct (run r1 k st); [eauto|]. by eapply IH2.
  - intros (Hw & Hrest & ->) Hk. rewrite Hrest.
    apply star_complete; [done|]. rewrite <- Hrest. by destruct st.
  - intros (st1 & H1 & ->) Hk. by eapply IH1.
  - destruct (cap n (ms_caps st)) as [u|].
    + intros (_ & -> & ->). done.
    + by intros [_ ->].
  - intros (_ & -> & ->). done.
  - intros (_ & -> & ->). done.
  - intros (_ & -> & ->). done.
Qed.

(** [test] holds exactly when the pattern matches somewhere. *)
Lemma test_matches (r : regex) (s : text) :
  test r s = true ↔
  ∃ a b w st', s = a ++ b
    ∧ matches r w (MState (prev_after None a) b (length a) []) st'.
Proof.
  rewrite test_true. split.
  - intros (a & b & -> & [m H]).
    apply exec_at_sound in H as (w & st' & H & _). eauto 10.
  - intros (a & b & w & st' & -> & H). exists a, b. split; [done|].
    unfold exec_at.
    destruct (run_complete r w Some _ _ H) as [res ->]; eauto.
Qed.

Lemma exec_matches (r : regex) (s : text) :
  is_Some (exec r s) ↔
  ∃ a b w st', s = a ++ b
    ∧ matches r w (MState (prev_after None a) b (length a) []) st'.
Proof.
  rewrite <- test_matches. unfold test. destruct (exec r s); split; eauto.
  - by intros [? ?].
  - done.
Qed.

End Completeness.

Section Building.

Import Char SearchFacts.

Lemma step_advance (c : ascii) (s' : text) (st : mstate) :
  ms_rest st = c :: s' → step c s' st = advance [c] st.
Proof.
  intros H. unfold step, advance. rewrite H. simpl. f_equal. lia.
Qed.

Lemma advance_app (u v : text) (st : mstate) :
  advance v (advance u st) = advance (u ++ v) st.
Proof.
  unfold advance. cbn [ms_prev ms_rest ms_pos ms_caps]. f_equal.
  - apply last_app_from_option.
  - by rewrite drop_drop, length_app.
  - rewrite length_app. lia.
Qed.

Lemma advance_rest (w s' : text) (st : mstate) :
  ms_rest st = w ++ s' → ms_rest (advance w st) = s'.
Proof. intros H. simpl. rewrite H. apply drop_app_length. Qed.

Lemma matches_Chr_intro (c : ascii) (s' : text) (st : mstate) :
  ms_rest st = c :: s' → matches (Chr c) [c] st (advance [c] st).
Proof.
  intros H. split; [done|]. exists s'. split; [done|].
  by rewrite step_advance.
Qed.

Lemma matches_Cls_intro (p : ascii → bool) (c : ascii) (s' : text)
    (st : mstate) :
  p c = true → ms_rest st = c :: s' → matches (Cls p) [c] st (advance [c] st).
Proof.
  intros Hp H. exists c, s'. repeat (split; [done|]). by rewrite step_advance.
Qed.

Lemma matches_Star_intro (g : bool) (p : ascii → bool) (w s' : text)
    (st : mstate) :
  Forall (fun c => p c = true) w → ms_rest st = w ++ s' →
  matches (Star g p) w st (advance w st).
Proof.
  intros Hw H. split; [done|]. split; [|done].
  by rewrite (advance_rest w s' st H).
Qed.

Lemma matches_Plus_intro (g : bool) (p : ascii → bool) (w s' : text)
    (st : mstate) :
  w ≠ [] → Forall (fun c => p c = true) w → ms_rest st = w ++ s' →
  matches (Plus g p) w st (advance w st).
Proof.
  intros Hne Hw H. destruct w as [|c w]; [done|].
  apply Forall_cons in Hw as [Hc Hw].
  exists [c], w, (advance [c] st). split; [done|]. split.
  - by apply (matches_Cls_intro p c (w ++ s')).
  - replace (advance (c :: w) st) with (advance w (advance [c] st))
      by (by rewrite advance_app).
    apply (matches_Star_intro g p w s'); [done|].
    by apply (advance_rest [c]).
Qed.

Lemma matches_Lit_intro (w : text) : ∀ (s' : text) (st : mstate),
  ms_rest st = w ++ s' → matches (Lit w) w st (advance w st).
Proof.
  induction w as [|c w IH]; intros s' st H; cbn [Lit matches].
  - by rewrite advance_nil.
  - exists [c], w, (advance [c] st). split; [done|]. split.
    + by apply (matches_Chr_intro c (w ++ s')).
    + replace (advance (c :: w) st) with (advance w (advance [c] st))
        by (by rewrite advance_app).
      apply (IH s'). by apply (advance_rest [c]).
Qed.

Lemma matches_Seq_intro (r1 r2 : regex) (u v : text) (st mid st' : mstate) :
  matches r1 u st mid → matches r2 v mid st' → matches (Seq r1 r2) (u ++ v) st st'.
Proof. intros H1 H2. exists u, v, mid. eauto. Qed.

Lemma prev_after_None (a : text) : prev_after None a = None → a = [].
Proof.
  unfold prev_after. destruct a as [|c a] using rev_ind; [done|].
  by rewrite last_snoc.
Qed.

(** [/^[A-Za-z0-9_]+,?$/] holds of a word, alone or followed by a comma. *)
Lemma shorthand_prefix (p : text) :
  test SHORTHAND_PREFIX p = true
  ↔ ∃ w, identifier w ∧ (p = w ∨ p = w ++ str ",").
Proof.
  rewrite test_matches. split.
  - intros (a & b & w & st' & -> & H).
    pose proof (matches_consumed _ _ _ _ H) as (Hrest & _).
    unfold SHORTHAND_PREFIX in H.
    destruct H as (? & ? & ? & -> & (-> & -> & Hbol) & H).
    apply prev_after_None in Hbol as ->.
    destruct H as (u & ? & mid & -> & Hu & H).
    apply matches_Plus in Hu as (Hne & Hw & _).
    destruct H as (v & ? & mid2 & -> & Hv & (-> & -> & Heol)).
    cbn [ms_rest] in Hrest. rewrite Heol, !app_nil_r in Hrest. cbn [app] in *.
    subst b. exists u. split; [done|].
    destruct Hv as [[-> _]|[-> _]]; [by right|left; by rewrite app_nil_r].
  - intros (w & [Hne Hw] & Hp). exists [], p.
    set (st := MState (prev_after None []) p (length (@nil ascii)) []).
    destruct Hp as [->| ->].
    + exists w, (advance w st). split; [done|].
      exists [], w, st. split; [done|]. split; [done|].
      exists w, [], (advance w st). split; [by rewrite app_nil_r|]. split.
      * apply (matches_Plus_intro true is_word w []); [done|done|].
        simpl. by rewrite app_nil_r.
      * exists [], [], (advance w st). split; [done|]. split; [by right|].
        repeat split. simpl. apply drop_all.
    + exists (w ++ str ","), (advance (w ++ str ",") st). split; [done|].
      exists [], (w ++ str ","), st. split; [done|]. split; [done|].
      exists w, (str ","), (advance w st). split; [done|]. split.
      * by apply (matches_Plus_intro true is_word w (str ",")).
      * exists (str ","), [], (advance (w ++ str ",") st).
        split; [done|]. split.
        -- left. rewrite <- advance_app.
           apply (matches_Chr_intro "," []). by apply advance_rest.
        -- repeat split. simpl. apply drop_all.
Qed.

End Building.

Lemma scanUp_found (d : Document) : ∀ i curLine,
  scanUp d i curLine true = true
  ↔ ∃ a, a ≤ curLine ∧ curLine < a + i ∧ hasCall d a = true.
Proof.
  induction i as [|i IH]; intros curLine; cbn [scanUp negb andb].
  - split; [done|]. intros (a & ? & ? & _). lia.
  - fold (hasCall d curLine). destruct (hasCall d curLine) eqn:Hc.
    + split; [|done]. intros _. exists curLine. split; [lia|]. split; [lia|done].
    + destruct curLine as [|above].
      * split; [done|]. intros (a & Ha & _ & Hcall).
        assert (a = 0) as -> by lia. congruence.
      * rewrite IH. split.
        -- intros (a & Ha & Hi & Hcall). exists a. split; [lia|]. split; [lia|done].
        -- intros (a & Ha & Hi & Hcall).
           destruct (decide (a = S above)) as [->|Hne]; [congruence|].
           exists a. split; [lia|]. split; [lia|done].
Qed.

Lemma scanUp_search (d : Document) : ∀ i curLine,
  scanUp d i curLine false = true
  ↔ ∃ a b, a < b ∧ b ≤ curLine ∧ curLine < a + i
      ∧ hasBrace d b = true
      ∧ (∀ j, b < j → j ≤ curLine → hasBrace d j = false)
      ∧ hasCall d a = true.
Proof.
  induction i as [|i IH]; intros curLine; cbn [scanUp negb andb].
  - split; [done|]. intros (a & b & ? & ? & ? & _). lia.
  - fold (hasBrace d curLine). destruct (hasBrace d curLine) eqn:Hb.
    + assert (Hnear : ∀ b, b ≤ curLine → hasBrace d b = true →
                (∀ j, b < j → j ≤ curLine → hasBrace d j = false) → b = curLine).
      { intros b Hle _ Hno. destruct (decide (b = curLine)) as [|Hne]; [done|].
        rewrite Hno in Hb; [done|lia|lia]. }
      destruct curLine as [|above].
      * split; [done|]. intros (a & b & ? & ? & _). lia.
      * rewrite scanUp_found. split.
        -- intros (a & Ha & Hi & Hcall). exists a, (S above).
           split; [lia|]. split; [lia|]. split; [lia|]. split; [done|].
           split; [|done]. intros j ? ?. lia.
        -- intros (a & b & Hab & Hle & Hi & Hbrace & Hno & Hcall).
           assert (b = S above) as -> by by apply Hnear.
           exists a. split; [lia|]. split; [lia|done].
    + destruct curLine as [|above].
      * split; [done|]. intros (a & b & Hab & Hle & _ & Hbrace & _).
        assert (b = 0) as -> by lia. congruence.
      * rewrite IH. split.
        -- intros (a & b & Hab & Hle & Hi & Hbrace & Hno & Hcall).
           exists a, b. split; [done|]. split; [lia|]. split; [lia|].
           split; [done|]. split; [|done]. intros j H1 H2.
           destruct (decide (j = S above)) as [->|Hne]; [done|].
           apply Hno; lia.
        -- intros (a & b & Hab & Hle & Hi & Hbrace & Hno & Hcall).
           assert (b ≠ S above) by congruence.
           exists a, b. split; [done|]. split; [lia|]. split; [lia|].
           split; [done|]. split; [|done]. intros j H1 H2. apply Hno; lia.
Qed.

Lemma isInAddStoresObjectLiteral_true (d : Document) (position : Position) :
  isInAddStoresObjectLiteral d position = true
  ↔ (∃ w, identifier w
       ∧ (shorthandPrefix d position = w
          ∨ shorthandPrefix d position = w ++ str ","))
    ∧ ∃ a b, a < b ∧ b ≤ line position ∧ line position < a + 20
        ∧ hasBrace d b = true
        ∧ (∀ j, b < j → j ≤ line position → hasBrace d j = false)
        ∧ hasCall d a = true.
Proof.
  unfold isInAddStoresObjectLiteral. fold (shorthandPrefix d position).
  rewrite <- shorthand_prefix, <- scanUp_search.
  destruct (test SHORTHAND_PREFIX (shorthandPrefix d position)); cbn [negb].
  - tauto.
  - split; [done|]. by intros [? _].
Qed.

Section Greedy.

Import Char SearchFacts.

(** A greedy [star] whose continuation accepts the longest run returns
    what the continuation returns there. *)
Lemma star_greedy_max (p : ascii → bool) (k : mstate → option mstate)
    (w : text) :
  ∀ s' prev pos caps res,
  Forall (fun c => p c = true) w → stops p s' →
  k (advance w (MState prev (w ++ s') pos caps)) = Some res →
  star true p k prev pos caps (w ++ s') = Some res.
Proof.
  induction w as [|c w IH]; intros s' prev pos caps res Hw Hs Hk.
  - rewrite advance_nil in Hk. cbn [app] in *.
    destruct s' as [|c s']; cbn [star]; [done|].
    cbn [stops] in Hs. by rewrite Hs.
  - apply Forall_cons in Hw as [Hc Hw]. cbn [app star]. rewrite Hc.
    cbn [app] in Hk. rewrite <- advance_cons in Hk.
    by rewrite (IH s' (Some c) (S pos) caps res Hw Hs Hk).
Qed.

Lemma run_Plus_greedy_max (p : ascii → bool) (k : mstate → option mstate)
    (w s' : text) (st : mstate) (res : mstate) :
  ms_rest st = w ++ s' → w ≠ [] → Forall (fun c => p c = true) w →
  stops p s' →
  k (advance w st) = Some res →
  run (Plus true p) k st = Some res.
Proof.
  intros Hrest Hne Hw Hs Hk. destruct w as [|c w]; [done|].
  apply Forall_cons in Hw as [Hc Hw]. cbn [Plus run]. rewrite Hrest.
  cbn [app]. rewrite Hc. cbn [step ms_prev ms_pos ms_caps ms_rest].
  apply star_greedy_max; [done|done|].
  rewrite (advance_cons c w (w ++ s') (ms_prev st)).
  destruct st as [prev rest pos caps]. cbn [ms_rest ms_prev ms_pos ms_caps] in *.
  by subst rest.
Qed.

Lemma advance_take (w s' : text) (st : mstate) :
  ms_rest st = w ++ s' →
  firstn (ms_pos (advance w st) - ms_pos st) (ms_rest st) = w.
Proof.
  intros H. cbn [advance ms_pos]. rewrite H.
  replace (ms_pos st + length w - ms_pos st) with (length w) by lia.
  apply take_app_length.
Qed.

Lemma run_Group_Plus_max (n : nat) (p : ascii → bool)
    (k : mstate → option mstate) (w s' : text) (st : mstate) (res : mstate) :
  ms_rest st = w ++ s' → w ≠ [] → Forall (fun c => p c = true) w →
  stops p s' →
  k (with_cap n w (advance w st)) = Some res →
  run (Group n (Plus true p)) k st = Some res.
Proof.
  intros Hrest Hne Hw Hs Hk. cbn [run]. fold (Plus true p).
  apply (run_Plus_greedy_max p _ w s'); try done.
  by rewrite (advance_take w s' st Hrest).
Qed.

Lemma run_Lit (w : text) : ∀ (k : mstate → option mstate) (s' : text)
    (st : mstate),
  ms_rest st = w ++ s' → run (Lit w) k st = k (advance w st).
Proof.
  induction w as [|c w IH]; intros k s' st H; cbn [Lit run].
  - by rewrite advance_nil.
  - rewrite H. cbn [app]. rewrite Ascii.eqb_refl.
    rewrite (step_advance c (w ++ s') st H).
    rewrite (IH k s' (advance [c] st)); [|by apply (advance_rest [c])].
    by rewrite advance_app.
Qed.

Lemma word_not_space (c : ascii) : is_word c = true → is_space c = false.
Proof. destruct c as [[] [] [] [] [] [] [] []]; by vm_compute. Qed.

Lemma space_not_word (c : ascii) : is_space c = true → is_word c = false.
Proof. destruct c as [[] [] [] [] [] [] [] []]; by vm_compute. Qed.

Lemma stops_word (p : ascii → bool) (w s : text) :
  w ≠ [] → Forall (fun c => p c = false) w → stops p (w ++ s).
Proof. intros Hne Hw. destruct Hw; [done|]. done. Qed.

Lemma search_first (r : regex) (prev : option ascii) (pos : nat) (s : text)
    (m : rmatch) :
  exec_at r prev pos s = Some m → search r prev pos s = Some m.
Proof. intros H. destruct s; simpl; by rewrite H. Qed.

(** What [IMPORT_NAME] finds in a name and in a name with an alias. *)
Lemma import_name_plain (a : text) :
  identifier a →
  ∃ m, exec IMPORT_NAME a = Some m ∧ group 1 m = Some a ∧ group 2 m = None.
Proof.
  intros [Hne Hw]. unfold exec.
  set (st0 := MState None a 0 []).
  set (st1 := with_cap 1 a (advance a st0)).
  assert (Hrun : run IMPORT_NAME Some st0 = Some st1).
  { unfold IMPORT_NAME. cbn [run ms_prev st0].
    fold (Plus true is_word). fold st0.
    change (run (Plus true is_word) ?k st0)
      with (run (Group 1 (Plus true is_word))
              (run (Opt (Seq (Plus true is_space)
                 (Seq (Lit (str "as"))
                    (Seq (Plus true is_space) (Group 2 (Plus true is_word))))))
                 Some) st0).
    apply (run_Group_Plus_max 1 is_word _ a []); try done.
    - simpl. by rewrite app_nil_r.
    - fold st1. cbn [Opt run Plus].
      assert (Hr : ms_rest st1 = []) by (simpl; apply drop_all).
      by rewrite Hr. }
  eexists. split.
  - apply search_first. unfold exec_at. fold st0. rewrite Hrun. reflexivity.
  - by split.
Qed.

Lemma import_name_alias (a b sp1 sp2 : text) :
  identifier a → identifier b →
  sp1 ≠ [] → Forall (fun c => is_space c = true) sp1 →
  sp2 ≠ [] → Forall (fun c => is_space c = true) sp2 →
  ∃ m, exec IMPORT_NAME (a ++ sp1 ++ str "as" ++ sp2 ++ b) = Some m
    ∧ group 1 m = Some a ∧ group 2 m = Some b.
Proof.
  intros [Hnea Hwa] [Hneb Hwb] Hne1 Hs1 Hne2 Hs2. unfold exec.
  set (n := a ++ sp1 ++ str "as" ++ sp2 ++ b).
  set (st0 := MState None n 0 []).
  set (st1 := with_cap 1 a (advance a st0)).
  set (st2 := advance sp1 st1).
  set (st3 := advance (str "as") st2).
  set (st4 := advance sp2 st3).
  set (st5 := with_cap 2 b (advance b st4)).
  assert (H1 : ms_rest st1 = sp1 ++ str "as" ++ sp2 ++ b)
    by (apply (advance_rest a); done).
  assert (H2 : ms_rest st2 = str "as" ++ sp2 ++ b)
    by (by apply (advance_rest sp1)).
  assert (H3 : ms_rest st3 = sp2 ++ b) by (by apply (advance_rest (str "as"))).
  assert (H4 : ms_rest st4 = b ++ []).
  { rewrite app_nil_r. by apply (advance_rest sp2). }
  assert (Hrun : run IMPORT_NAME Some st0 = Some st5).
  { unfold IMPORT_NAME. cbn [run ms_prev st0].
    fold (Plus true is_word). fold st0.
    change (run (Plus true is_word) ?k st0)
      with (run (Group 1 (Plus true is_word))
              (run (Opt (Seq (Plus true is_space)
                 (Seq (Lit (str "as"))
                    (Seq (Plus true is_space) (Group 2 (Plus true is_word))))))
                 Some) st0).
    apply (run_Group_Plus_max 1 is_word _ a (sp1 ++ str "as" ++ sp2 ++ b));
      try done.
    { apply stops_word; [done|].
      eapply Forall_impl; [exact Hs1|]. apply space_not_word. }
    fold st1. unfold Opt. cbn [run].
    replace (run (Plus true is_space) _ st1) with (Some st5); [done|].
    symmetry.
    apply (run_Plus_greedy_max is_space _ sp1 (str "as" ++ sp2 ++ b)); try done.
    fold st2. rewrite (run_Lit (str "as") _ (sp2 ++ b) st2 H2). fold st3.
    apply (run_Plus_greedy_max is_space _ sp2 b); try done.
    { destruct Hwb as [|c b Hc _]; [done|]. by apply word_not_space. }
    fold st4.
    by apply (run_Group_Plus_max 2 is_word _ b []). }
  eexists. split.
  - apply search_first. unfold exec_at. fold st0. rewrite Hrun. reflexivity.
  - by split.
Qed.

Lemma import_name_none (n : text) :
  stops is_word n → exec IMPORT_NAME n = None.
Proof.
  intros Hs. destruct (exec IMPORT_NAME n) as [m|] eqn:E; [|done]. exfalso.
  unfold exec in E. apply search_sound in E as (a & b & -> & E).
  apply exec_at_sound in E as (w & st' & H & _).
  unfold IMPORT_NAME in H.
  destruct H as (? & ? & ? & _ & (_ & -> & Hbol) & H).
  apply prev_after_None in Hbol as ->.
  destruct H as (u & ? & ? & _ & (st1 & Hu & _) & _).
  pose proof (matches_consumed _ _ _ _ Hu) as (Hrest & _).
  fold (Plus true is_word) in Hu. apply matches_Plus in Hu as (Hne & Hw & _).
  cbn [ms_rest app] in *. rewrite Hrest in Hs.
  destruct Hw as [|c u Hc _]; [done|]. cbn [app stops] in Hs. congruence.
Qed.

(** X25.  What one name of an import clause binds: a word binds itself, a
    word with [as] and an alias binds the alias and not the word, and a
    piece that does not start with a word character binds nothing. *)
Theorem alias_is_bound (resolved : text) (storeMap : gmap text text)
    (a b sp1 sp2 n : text) :
  identifier a → identifier b →
  sp1 ≠ [] → Forall (fun c => is_space c = true) sp1 →
  sp2 ≠ [] → Forall (fun c => is_space c = true) sp2 →
  stops is_word n →
  addBinding resolved storeMap a = <[a := resolved]> storeMap
  ∧ addBinding resolved storeMap (a ++ sp1 ++ str "as" ++ sp2 ++ b)
    = <[b := resolved]> storeMap
  ∧ addBinding resolved storeMap n = storeMap.
Proof.
  intros Ha Hb Hne1 Hs1 Hne2 Hs2 Hn. unfold addBinding. split; [|split].
  - by destruct (import_name_plain a Ha) as (m & -> & -> & ->).
  - destruct (import_name_alias a b sp1 sp2 Ha Hb Hne1 Hs1 Hne2 Hs2)
      as (m & -> & -> & ->).
    cbn [default]. destruct Hb as [Hb _]. by destruct b.
  - by rewrite (import_name_none n Hn).
Qed.

End Greedy.

Lemma alias_is_bound_witness :
  addBinding counter ∅ (str "count") = <[str "count" := counter]> ∅
  ∧ addBinding counter ∅ (str "count" ++ str " " ++ str "as" ++ str " " ++ str "c")
    = <[str "c" := counter]> ∅
  ∧ addBinding counter ∅ (str "*") = ∅.
Proof.
  apply (alias_is_bound counter ∅ (str "count") (str "c") (str " ") (str " ")
           (str "*")).
  - split; [done|]. repeat constructor.
  - split; [done|]. repeat constructor.
  - done.
  - repeat constructor.
  - done.
  - repeat constructor.
  - reflexivity.
Defined.

(** ** Dispatch *)

Section Dispatch.

Import Char SearchFacts.

Context {path : PathModule}.

Lemma test_TS_SUFFIX (p : text) :
  test TS_SUFFIX p = true ↔ str ".ts" `suffix_of` p.
Proof.
  rewrite test_true. split.
  - intros (a & b & -> & [m H]).
    apply exec_at_sound in H as (w & st' & H & _).
    pose proof (matches_consumed _ _ _ _ H) as (Hr & _).
    unfold TS_SUFFIX in H. inv_matches; subst; simpl in *; subst.
    by exists a.
  - intros [a ->]. exists a. eexists. split; [done|].
    unfold exec_at; simpl; eauto.
Qed.

(** X26.  A relative specifier is resolved against the directory; the result
    is left alone when it ends in [.ts], and otherwise gets [.ts] appended
    exactly when the file with [.ts] appended exists. *)
Theorem resolved_path_gets_extension (h : Host) (importPath baseDir : text) :
  relative importPath = true →
  (str ".ts" `suffix_of` resolve baseDir importPath →
   resolveImportPath h importPath baseDir = resolve baseDir importPath)
  ∧ (¬ str ".ts" `suffix_of` resolve baseDir importPath →
     resolveImportPath h importPath baseDir
     = if existsSync h (resolve baseDir importPath ++ str ".ts")
       then resolve baseDir importPath ++ str ".ts"
       else resolve baseDir importPath).
Proof.
  intros Hrel. unfold resolveImportPath. unfold relative in Hrel. rewrite Hrel.
  split; intros Hs.
  - apply test_TS_SUFFIX in Hs. by rewrite Hs.
  - rewrite <- test_TS_SUFFIX in Hs. apply not_true_is_false in Hs.
    by rewrite Hs.
Qed.

Lemma matches_atoms_intro (w : text) : ∀ (s' : text) (st : mstate),
  Forall (fun c => is_word c = true) w →
  ms_rest st = w ++ s' → matches (atoms w) w st (advance w st).
Proof.
  induction w as [|c w IH]; intros s' st Hw H; cbn [atoms matches].
  - by rewrite advance_nil.
  - apply Forall_cons in Hw as [Hc Hw].
    exists [c], w, (advance [c] st). split; [done|]. split.
    + unfold atom_of. destruct (is_word_plain c Hc) as [-> _].
      by apply (matches_Chr_intro c (w ++ s')).
    + replace (advance (c :: w) st) with (advance w (advance [c] st))
        by (by rewrite advance_app).
      apply (IH s'); [done|]. by apply (advance_rest [c]).
Qed.

Lemma access_line (word lineText : text) :
  identifier word →
  is_Some (exec (accessPattern (atoms word)) lineText)
  ↔ ∃ a b, lineText = a ++ str "this." ++ word ++ b
      ∧ is_word_at (head b) = false.
Proof.
  intros [Hne Hw]. rewrite exec_matches. split.
  - intros (a & b & w & st' & -> & H). exists a.
    pose proof (matches_consumed _ _ _ _ H) as (Hrest & _).
    unfold accessPattern in H.
    destruct H as (u1 & ? & m1 & -> & H1 & H).
    apply matches_Lit in H1 as ->.
    destruct H as (? & ? & m2 & -> & [-> _] & H).
    destruct H as (u2 & ? & m3 & -> & (st1 & H2 & ->) & (-> & -> & Hb)).
    pose proof (matches_consumed _ _ _ _ H2) as (_ & _ & Hprev).
    apply (matches_atoms _ Hw) in H2 as ->.
    cbn [ms_rest ms_prev] in *. rewrite Hprev in Hb.
    exists (ms_rest st1). split.
    + rewrite Hrest. by rewrite app_nil_r, <- !app_assoc.
    + destruct (last word) as [c|] eqn:E; [|by apply last_None in E].
      apply last_Some_elem_of in E. rewrite Forall_forall in Hw.
      cbn [from_option is_word_at] in Hb. rewrite (Hw c E) in Hb.
      by destruct (is_word_at _).
  - intros (a & b & -> & Hb).
    set (st := MState (prev_after None a) (str "this." ++ word ++ b) (length a) []).
    set (st1 := advance (str "this") st).
    set (st2 := advance (str ".") st1).
    set (st3 := advance word st2).
    assert (H1 : ms_rest st1 = str "." ++ word ++ b)
      by (by apply (advance_rest (str "this"))).
    assert (H2 : ms_rest st2 = word ++ b) by (by apply (advance_rest (str "."))).
    assert (H3 : ms_rest st3 = b) by (by apply (advance_rest word)).
    exists a, (str "this." ++ word ++ b), (str "this" ++ str "." ++ word ++ []).
    eexists. split; [done|].
    apply (matches_Seq_intro _ _ _ _ st st1).
    { by apply (matches_Lit_intro (str "this") (str "." ++ word ++ b)). }
    apply (matches_Seq_intro _ _ _ _ st1 st2).
    { by apply (matches_Chr_intro "." (word ++ b)). }
    apply (matches_Seq_intro _ _ _ _ st2
             (with_cap 1 (firstn (ms_pos st3 - ms_pos st2) (ms_rest st2)) st3)).
    { exists st3. split; [|done]. by apply (matches_atoms_intro word b). }
    split; [done|]. split; [done|].
    cbn [with_cap ms_prev ms_rest]. rewrite H3, Hb.
    change (ms_prev st3) with (from_option Some (ms_prev st2) (last word)).
    destruct (last word) as [c|] eqn:E; [|by apply last_None in E].
    apply last_Some_elem_of in E. rewrite Forall_forall in Hw.
    cbn [from_option is_word_at]. by rewrite (Hw c E).
Qed.

(** X27.  A request for references on a word that is not a store variable of
    the document goes by the line alone: when the line has [this.] followed
    by the word, wherever the cursor is, the request returns the answer of
    [findImportedStoreReferences], and otherwise it returns the empty
    list. *)
Theorem references_request_on_component (h : Host) (d : Document)
    (position : Position) (word : text) (token : nat → bool) (st : state) :
  line position < length (doc_lines d) →
  identifier word →
  isStoreFile (doc_path d) && isStoreVariable (doc_path d) word st = false →
  (accessOnLine d position word →
   provideReferences h d position (Some word) token st
   = Returns <$> findImportedStoreReferences h (doc_path d) word st)
  ∧ (¬ accessOnLine d position word →
     provideReferences h d position (Some word) token st
     = Some (Returns ([], st))).
Proof.
  intros _ Hid Hs. unfold provideReferences. rewrite Hs.
  rewrite (of_source_identifier _ Hid).
  pose proof (access_line word (lineAt d (line position)) Hid) as Hacc.
  fold (accessOnLine d position word) in Hacc.
  destruct (exec _ _) as [m|]; split; try done.
  - intros Hno. destruct Hno. apply Hacc. eauto.
  - intros [m Hm]%Hacc. done.
Qed.

(** X28.  A request for a definition on such a word is answered by
    [findImportedStoreDefinitions] when the line has [this.] followed by the
    word or [isInAddStoresObjectLiteral] holds, and by nothing otherwise. *)
Theorem definition_request_on_component (h : Host) (d : Document)
    (position : Position) (word : text) (st : state) :
  line position < length (doc_lines d) →
  identifier word →
  isStoreFile (doc_path d) && isStoreVariable (doc_path d) word st = false →
  (accessOnLine d position word ∨ isInAddStoresObjectLiteral d position = true →
   provideDefinition h d position (Some word) st
   = definitions_of (findImportedStoreDefinitions h (doc_path d) word st))
  ∧ (¬ accessOnLine d position word →
     isInAddStoresObjectLiteral d position = false →
     provideDefinition h d position (Some word) st = Some (None, st)).
Proof.
  intros _ Hid Hs. unfold provideDefinition. rewrite Hs.
  rewrite (of_source_identifier _ Hid).
  pose proof (access_line word (lineAt d (line position)) Hid) as Hacc.
  fold (accessOnLine d position word) in Hacc.
  destruct (exec _ _) as [m|]; split; try done.
  - intros Hno. destruct Hno. apply Hacc. eauto.
  - intros [[m Hm]%Hacc| ->]; done.
  - intros _ ->. done.
Qed.

End Dispatch.

Lemma resolved_path_gets_extension_witness :
  (str ".ts" `suffix_of` resolve (str "/p") (str "./counter.store") →
   resolveImportPath workspace (str "./counter.store") (str "/p")
   = resolve (str "/p") (str "./counter.store"))
  ∧ (¬ str ".ts" `suffix_of` resolve (str "/p") (str "./counter.store") →
     resolveImportPath workspace (str "./counter.store") (str "/p")
     = if existsSync workspace (resolve (str "/p") (str "./counter.store") ++ str ".ts")
       then resolve (str "/p") (str "./counter.store") ++ str ".ts"
       else resolve (str "/p") (str "./counter.store")).
Proof.
  apply (resolved_path_gets_extension (path := posix) workspace
           (str "./counter.store") (str "/p")).
  reflexivity.
Defined.

Lemma references_request_on_component_witness :
  (accessOnLine widgetDocument (mkPosition 1 33) (str "count") →
   provideReferences workspace widgetDocument (mkPosition 1 33)
     (Some (str "count")) (fun _ => false) counterActivated
   = Returns <$> findImportedStoreReferences workspace (doc_path widgetDocument)
                   (str "count") counterActivated)
  ∧ (¬ accessOnLine widgetDocument (mkPosition 1 33) (str "count") →
     provideReferences workspace widgetDocument (mkPosition 1 33)
       (Some (str "count")) (fun _ => false) counterActivated
     = Some (Returns ([], counterActivated))).
Proof.
  apply (references_request_on_component (path := posix) workspace
           widgetDocument (mkPosition 1 33) (str "count") (fun _ => false)
           counterActivated).
  - simpl. lia.
  - split; [done|]. repeat constructor.
  - reflexivity.
Defined.

Lemma definition_request_on_component_witness :
  (accessOnLine bracedBelow (mkPosition 3 9) (str "count")
   ∨ isInAddStoresObjectLiteral bracedBelow (mkPosition 3 9) = true →
   provideDefinition workspace bracedBelow (mkPosition 3 9) (Some (str "count"))
     counterActivated
   = definitions_of
       (findImportedStoreDefinitions workspace (doc_path bracedBelow)
          (str "count") counterActivated))
  ∧ (¬ accessOnLine bracedBelow (mkPosition 3 9) (str "count") →
     isInAddStoresObjectLiteral bracedBelow (mkPosition 3 9) = false →
     provideDefinition workspace bracedBelow (mkPosition 3 9)
       (Some (str "count")) counterActivated
     = Some (None, counterActivated)).
Proof.
  apply (definition_request_on_component (path := posix) workspace bracedBelow
           (mkPosition 3 9) (str "count") counterActivated).
  - simpl. lia.
  - split; [done|]. repeat constructor.
  - reflexivity.
Defined.

(** ** The shorthand of an object literal *)

(** X23.  [isInAddStoresObjectLiteral] holds exactly when the text before
    the cursor, trimmed, is a word or a word and a comma, and the nearest
    line at or above the cursor with a brace has a line with [addStores(]
    strictly above it, fewer than 20 lines above the cursor. *)
Theorem shorthand_needs_call_above_brace (d : Document) (position : Position) :
  line position < length (doc_lines d) →
  isInAddStoresObjectLiteral d position = true
  ↔ (∃ w, identifier w
       ∧ (shorthandPrefix d position = w
          ∨ shorthandPrefix d position = w ++ str ","))
    ∧ ∃ a b, a < b ∧ b ≤ line position ∧ line position < a + 20
        ∧ hasBrace d b = true
        ∧ (∀ j, b < j → j ≤ line position → hasBrace d j = false)
        ∧ hasCall d a = true.
Proof. intros _. apply isInAddStoresObjectLiteral_true. Qed.

Lemma shorthand_needs_call_above_brace_witness :
  isInAddStoresObjectLiteral bracedBelow (mkPosition 3 9) = true
  ↔ (∃ w, identifier w
       ∧ (shorthandPrefix bracedBelow (mkPosition 3 9) = w
          ∨ shorthandPrefix bracedBelow (mkPosition 3 9) = w ++ str ","))
    ∧ ∃ a b, a < b ∧ b ≤ line (mkPosition 3 9) ∧ line (mkPosition 3 9) < a + 20
        ∧ hasBrace bracedBelow b = true
        ∧ (∀ j, b < j → j ≤ line (mkPosition 3 9) → hasBrace bracedBelow j = false)
        ∧ hasCall bracedBelow a = true.
Proof.
  apply (shorthand_needs_call_above_brace bracedBelow (mkPosition 3 9)).
  simpl. lia.
Defined.

(** X24.  The line of the brace is not looked at for the call: when no line
    strictly above the nearest brace has [addStores(] within the window, the
    answer is no, also when the call is on the line of the brace. *)
Theorem call_on_the_brace_line_is_missed (d : Document) (position : Position)
    (b : nat) :
  line position < length (doc_lines d) →
  b ≤ line position → hasBrace d b = true →
  (∀ j, b < j → j ≤ line position → hasBrace d j = false) →
  (∀ a, a < b → line position < a + 20 → hasCall d a = false) →
  isInAddStoresObjectLiteral d position = false.
Proof.
  intros _ Hle Hb Hno Hcall. apply not_true_is_false.
  intros (_ & a & b' & Hab & Hle' & Hi & Hb' & Hno' & Ha)%isInAddStoresObjectLiteral_true.
  assert (b' = b) as ->.
  { destruct (Nat.lt_trichotomy b' b) as [Hlt|[->|Hlt]]; [|done|].
    - rewrite Hno' in Hb; [done|lia|lia].
    - rewrite Hno in Hb'; [done|lia|lia]. }
  rewrite Hcall in Ha; [done|lia|lia].
Qed.

Lemma call_on_the_brace_line_is_missed_witness :
  hasCall bracedInline 0 = true
  ∧ isInAddStoresObjectLiteral bracedInline (mkPosition 1 8) = false.
Proof.
  split; [reflexivity|].
  apply (call_on_the_brace_line_is_missed bracedInline (mkPosition 1 8) 0).
  - simpl. lia.
  - simpl. lia.
  - reflexivity.
  - intros j H1 H2. assert (j = 1) as -> by (simpl in H2; lia). reflexivity.
  - intros a Ha. lia.
Defined.

(** ** Completeness of the search for accesses *)

Section ScanComplete.

Import Char SearchFacts.

Lemma exec_at_index (r : regex) (prev : option ascii) (pos : nat) (s : text)
    (m : rmatch) :
  exec_at r prev pos s = Some m → m_index m = pos.
Proof.
  unfold exec_at. destruct (run r Some _); [|done]. by intros [= <-].
Qed.

(** The loop misses no match: where the pattern matches at an offset, the
    loop reports a match that starts there or one that starts before and
    reaches beyond the offset. *)
Lemma scan_complete (r : regex) :
  ∀ (s pre : text) (prev : option ascii) (skip : nat) (a b : text),
  s = a ++ b → skip ≤ length a →
  is_Some (exec_at r (prev_after prev a) (length pre + length a) b) →
  ∃ m, m ∈ scan r prev (length pre) skip s
    ∧ (m_index m = length pre + length a
       ∨ (m_index m < length pre + length a ∧ length pre + length a < m_end m)).
Proof.
  induction s as [|c s IH]; intros pre prev skip a b Hs Hskip Hm.
  - symmetry in Hs. apply app_eq_nil in Hs as [-> ->].
    cbn [length] in *. assert (skip = 0) as -> by lia.
    rewrite Nat.add_0_r in *. cbn [scan]. change (prev_after prev []) with prev in Hm.
    destruct Hm as [m Hm]. rewrite Hm. exists m. split; [left|].
    left. by apply exec_at_index in Hm.
  - assert (Hstep : ∀ skip' a', a = c :: a' → skip' ≤ length a' →
      ∃ m, m ∈ scan r (Some c) (S (length pre)) skip' s
        ∧ (m_index m = length pre + length a
           ∨ (m_index m < length pre + length a ∧ length pre + length a < m_end m))).
    { intros skip' a' -> Hle. cbn [app] in Hs. injection Hs as ->.
      destruct (IH (pre ++ [c]) (Some c) skip' a' b eq_refl Hle) as (m & Hin & H).
      - rewrite prev_after_cons with (prev := prev).
        replace (length (pre ++ [c]) + length a') with (length pre + length (c :: a'))
          by (rewrite length_app; simpl; lia).
        done.
      - exists m. replace (length (pre ++ [c])) with (S (length pre)) in *
          by (rewrite length_app; simpl; lia).
        split; [done|]. cbn [length]. destruct H as [H|H]; [left|right]; lia. }
    destruct skip as [|j]; cbn [scan].
    + destruct a as [|c' a'].
      * cbn [app length] in *. subst b. rewrite Nat.add_0_r in *.
        change (prev_after prev []) with prev in Hm.
        destruct Hm as [m Hm]. rewrite Hm. exists m. split; [left|].
        left. by apply exec_at_index in Hm.
      * assert (c' = c) as -> by (cbn [app] in Hs; by injection Hs).
        destruct (exec_at r prev (length pre) (c :: s)) as [m0|] eqn:E.
        -- destruct (decide (length (m_text m0) - 1 ≤ length a')) as [Hle|Hgt].
           ++ destruct (Hstep _ a' eq_refl Hle) as (m & Hin & H).
              exists m. split; [by right|done].
           ++ exists m0. split; [left|]. right.
              apply exec_at_index in E. unfold m_end. rewrite E.
              cbn [length]. lia.
        -- destruct (Hstep 0 a' eq_refl) as (m & Hin & H); [lia|].
           by exists m.
    + destruct a as [|c' a']; [cbn [length] in Hskip; lia|].
      assert (c' = c) as -> by (cbn [app] in Hs; by injection Hs).
      cbn [length] in Hskip.
      destruct (Hstep j a' eq_refl) as (m & Hin & H); [lia|]. by exists m.
Qed.

Lemma exec_all_complete (r : regex) (t a b : text) :
  t = a ++ b →
  is_Some (exec_at r (prev_after None a) (length a) b) →
  ∃ m, m ∈ exec_all r t
    ∧ (m_index m = length a ∨ (m_index m < length a ∧ length a < m_end m)).
Proof.
  intros Ht Hm. apply (scan_complete r t [] None 0 a b Ht); [lia|done].
Qed.

End ScanComplete.

Section Keys.

Import Char PositionFacts SearchFacts.

Lemma of_nat_inj (n m : nat) : JsString.of_nat n = JsString.of_nat m → n = m.
Proof.
  unfold JsString.of_nat. intros H.
  apply (f_equal string_of_list_ascii) in H.
  rewrite !string_of_list_ascii_of_string in H.
  apply (f_equal NilEmpty.uint_of_string) in H. rewrite !NilEmpty.usu in H.
  injection H as H. apply (f_equal Nat.of_uint) in H.
  by rewrite !Unsigned.of_to in H.
Qed.

Lemma of_nat_digits (n : nat) : Forall (fun c => c ≠ ":") (JsString.of_nat n).
Proof.
  unfold JsString.of_nat. generalize (Nat.to_uint n). intros d.
  induction d; cbn [NilEmpty.string_of_uint list_ascii_of_string];
    constructor; done.
Qed.

Lemma colon_split (u u' v v' : text) :
  Forall (fun c => c ≠ ":") u → Forall (fun c => c ≠ ":") u' →
  u ++ ":" :: v = u' ++ ":" :: v' → u = u' ∧ v = v'.
Proof.
  intros Hu. revert u'. induction Hu as [|c u Hc Hu IH]; intros u' Hu' H.
  - destruct Hu' as [|c' u' Hc' _]; cbn [app] in H.
    + by injection H.
    + injection H as <- _. done.
  - destruct Hu' as [|c' u' Hc' Hu']; cbn [app] in H.
    + injection H as -> _. done.
    + injection H as -> H. destruct (IH u' Hu' H) as [-> ->]. done.
Qed.

(** The key of [visited] tells positions of one file apart. *)
Lemma visitKey_inj (fsPath : text) (p q : Position) :
  visitKey fsPath p = visitKey fsPath q → p = q.
Proof.
  unfold visitKey. intros H. apply app_inv_head in H.
  cbn [str list_ascii_of_string app] in H. injection H as H.
  apply colon_split in H as [H1 H2]; try apply of_nat_digits.
  apply of_nat_inj in H1, H2. destruct p, q. simpl in *. by subst.
Qed.

End Keys.

Section Found.

Import Char PositionFacts SearchFacts.

(** What the guarded loop keeps true: a visited key was visited before
    the loop or is the key of a result, and the key of every offset that
    the loop went through is visited. *)
Lemma visit_keys {A : Type} (off : A → Z) (fsPath content : text) (len : nat)
    (before : gset text) (xs : list A) :
  ∀ acc,
  (∀ k, k ∈ snd acc → k ∈ before ∨ ∃ l, l ∈ fst acc ∧ visitedKey l = k) →
  Forall (fun x => (0 ≤ off x)%Z) xs →
  let res := foldl (fun acc x => visit fsPath content (off x) len acc) acc xs in
  (∀ k, k ∈ snd res → k ∈ before ∨ ∃ l, l ∈ fst res ∧ visitedKey l = k)
  ∧ (∀ x, x ∈ xs →
       visitKey fsPath (getPositionFromOffset content (off x)) ∈ snd res)
  ∧ snd acc ⊆ snd res.
Proof.
  intros acc Hacc Hoff. revert acc Hacc.
  induction Hoff as [|x xs Ho Hoff IH]; intros acc Hacc; cbn [foldl].
  - cbv zeta. split; [done|]. split; [|done]. by intros o ?%elem_of_nil.
  - set (acc1 := visit fsPath content (off x) len acc).
    assert (H1 : (∀ k, k ∈ snd acc1 →
                    k ∈ before ∨ ∃ l, l ∈ fst acc1 ∧ visitedKey l = k)
                 ∧ visitKey fsPath (getPositionFromOffset content (off x)) ∈ snd acc1
                 ∧ snd acc ⊆ snd acc1).
    { unfold acc1, visit. destruct acc as [results visited].
      case_bool_decide as Hk; cbn [fst snd] in *; [by repeat split|].
      split; [|split; set_solver].
      intros k [Hin%elem_of_singleton|Hin]%elem_of_union.
      - right. exists (locate fsPath content (off x) len).
        split; [apply elem_of_app; right; left|].
        subst k. unfold visitedKey. rewrite <- (Z2Nat.id (off x)) by done.
        by rewrite locate_start.
      - destruct (Hacc k Hin) as [?|(l & Hl & <-)]; [by left|].
        right. exists l. split; [|done]. apply elem_of_app. by left. }
    destruct H1 as (Hinv & Hkey & Hsub).
    destruct (IH acc1 Hinv) as (IH1 & IH2 & IH3). cbv zeta.
    split; [done|]. split; [|set_solver].
    intros x' [->|Hin]%elem_of_cons; [by apply IH3|by apply IH2].
Qed.

Lemma occurrence_in (a w b : text) (p : nat) :
  p < length w → (a ++ w ++ b) !! (length a + p) = w !! p.
Proof.
  intros Hp. rewrite lookup_app_r by lia.
  replace (length a + p - length a) with p by lia. by apply lookup_app_l.
Qed.

Lemma occurrence_after (a w b : text) :
  (a ++ w ++ b) !! (length a + length w) = head b.
Proof.
  rewrite lookup_app_r by lia. rewrite lookup_app_r by lia.
  replace (length a + length w - length a - length w) with 0 by lia.
  by destruct b.
Qed.

Lemma occurrence_before (a w : text) :
  0 < length a → (a ++ w) !! (length a - 1) = last a.
Proof.
  intros Ha. rewrite lookup_app_l by lia. rewrite last_lookup.
  f_equal. lia.
Qed.

(** Two occurrences of [this.] and the name, each between word
    boundaries, do not overlap, unless the name is [this] itself. *)
Lemma accesses_apart (name content a0 b0 a b : text) :
  identifier name → name ≠ str "this" →
  content = a0 ++ (str "this." ++ name) ++ b0 →
  content = a ++ (str "this." ++ name) ++ b →
  is_word_at (head b0) = false → is_word_at (last a) = false →
  length a0 < length a → length a < length a0 + (5 + length name) → False.
Proof.
  intros [Hne Hw] Hthis H0 H1 Hb0 Ha Hlo Hhi.
  set (T := str "this." ++ name) in *.
  assert (HT : length T = 5 + length name) by done.
  assert (F1 : ∀ p, p < length T → content !! (length a0 + p) = T !! p).
  { intros p Hp. rewrite H0. by apply occurrence_in. }
  assert (F2 : ∀ p, p < length T → content !! (length a + p) = T !! p).
  { intros p Hp. rewrite H1. by apply occurrence_in. }
  assert (F3 : content !! (length a0 + length T) = head b0).
  { rewrite H0. apply occurrence_after. }
  assert (F4 : content !! (length a - 1) = last a).
  { rewrite H1. apply occurrence_before. lia. }
  assert (Hname : ∀ q c, name !! q = Some c → is_word c = true).
  { intros q c Hq. rewrite Forall_forall in Hw. apply Hw.
    by eapply list_elem_of_lookup_2. }
  assert (Hk : ∃ k, length a = length a0 + k ∧ 0 < k ∧ k < 5 + length name)
    by (exists (length a - length a0); lia).
  destruct Hk as (k & Hk & Hk0 & Hkn).
  pose proof (F2 0) as E0. rewrite Nat.add_0_r in E0.
  rewrite Hk in E0. rewrite F1 in E0 by lia. specialize (E0 ltac:(lia)).
  destruct k as [|[|[|[|[|q]]]]]; try done; try lia.
  (* the second occurrence starts inside the name of the first *)
  change (T !! S (S (S (S (S q))))) with (name !! q) in E0.
  clear E0.
  pose proof (F2 4 ltac:(lia)) as Edot. change (T !! 4) with (Some ".") in Edot.
  destruct (decide (q + 4 < length name)) as [Hin|Hout].
  { rewrite Hk in Edot.
    replace (length a0 + S (S (S (S (S q)))) + 4)
      with (length a0 + (5 + (q + 4))) in Edot by lia.
    rewrite F1 in Edot by lia.
    change (T !! (5 + (q + 4))) with (name !! (q + 4)) in Edot.
    by apply Hname in Edot. }
  assert (Hd : ∃ d, length name = q + d ∧ 0 < d ∧ d ≤ 4)
    by (exists (length name - q); lia).
  destruct Hd as (d & Hd & Hd0 & Hd4).
  assert (Eafter : head b0 = T !! d).
  { rewrite <- F3, HT, Hd.
    replace (length a0 + (5 + (q + d))) with (length a + d) by lia.
    apply F2. lia. }
  rewrite Eafter in Hb0.
  destruct d as [|[|[|[|[|d]]]]]; try done; try lia.
  clear Eafter Hb0.
  assert (Ebefore : last a = T !! (4 + q)).
  { rewrite <- F4.
    replace (length a - 1) with (length a0 + (4 + q)) by lia.
    apply F1. lia. }
  rewrite Ebefore in Ha.
  destruct q as [|q].
  2:{ change (T !! (4 + S q)) with (name !! q) in Ha.
      destruct (name !! q) as [c|] eqn:Eq.
      - apply Hname in Eq. cbn [is_word_at] in Ha. congruence.
      - apply lookup_ge_None in Eq. lia. }
  apply Hthis.
  assert (Eq : ∀ p, p < 4 → name !! p = T !! p).
  { intros p Hp. change (name !! p) with (T !! (5 + p)).
    rewrite <- F1 by lia. rewrite <- F2 by lia. f_equal. lia. }
  pose proof (Eq 0 ltac:(lia)) as E0. pose proof (Eq 1 ltac:(lia)) as E1.
  pose proof (Eq 2 ltac:(lia)) as E2. pose proof (Eq 3 ltac:(lia)) as E3.
  destruct name as [|c0 [|c1 [|c2 [|c3 [|c4 name]]]]]; simpl in Hd; try lia.
  cbn in E0, E1, E2, E3. by simplify_eq.
Qed.

End Found.

Section Found2.

Import Char PositionFacts SearchFacts.

Lemma from_option_last (a : text) : from_option Some None (last a) = last a.
Proof. by destruct (last a). Qed.

(** The access pattern matches at an occurrence between word boundaries. *)
Lemma this_matches_at (name a b : text) :
  identifier name →
  is_word_at (last a) = false → is_word_at (head b) = false →
  is_Some (exec_at (thisPattern (atoms name)) (prev_after None a) (length a)
             (str "this." ++ name ++ b)).
Proof.
  intros [Hne Hw] Ha Hb.
  set (st := MState (prev_after None a) (str "this." ++ name ++ b) (length a) []).
  set (st1 := advance (str "this") st).
  set (st2 := advance (str ".") st1).
  set (st3 := advance name st2).
  assert (H1 : ms_rest st1 = str "." ++ name ++ b)
    by (by apply (advance_rest (str "this"))).
  assert (H2 : ms_rest st2 = name ++ b) by (by apply (advance_rest (str "."))).
  assert (H3 : ms_rest st3 = b) by (by apply (advance_rest name)).
  assert (Hm : matches (thisPattern (atoms name))
                 ([] ++ str "this" ++ str "." ++ name ++ []) st st3).
  { apply (matches_Seq_intro _ _ _ _ st st).
    { split; [done|]. split; [done|]. cbn [st ms_prev ms_rest].
      unfold prev_after. rewrite from_option_last, Ha. done. }
    apply (matches_Seq_intro _ _ _ _ st st1).
    { by apply (matches_Lit_intro (str "this") (str "." ++ name ++ b)). }
    apply (matches_Seq_intro _ _ _ _ st1 st2).
    { by apply (matches_Chr_intro "." (name ++ b)). }
    apply (matches_Seq_intro _ _ _ _ st2 st3).
    { by apply (matches_atoms_intro name b). }
    split; [done|]. split; [done|]. rewrite H3, Hb.
    change (ms_prev st3) with (from_option Some (ms_prev st2) (last name)).
    destruct (last name) as [c|] eqn:E; [|by apply last_None in E].
    apply last_Some_elem_of in E. rewrite Forall_forall in Hw.
    cbn [from_option is_word_at]. by rewrite (Hw c E). }
  unfold exec_at. fold st.
  destruct (run_complete _ _ Some _ _ Hm) as [res ->]; eauto.
Qed.

Lemma findThisStoreReferences_complete (fsPath content storeName : text)
    (visited visited' : gset text) (locations : list Location) (a b : text) :
  identifier storeName → storeName ≠ str "this" →
  content = a ++ str "this." ++ storeName ++ b →
  is_word_at (last a) = false → is_word_at (head b) = false →
  findThisStoreReferences fsPath content storeName visited
    = Some (locations, visited') →
  mkLocation fsPath
    (mkRange
       (getPositionFromOffset content (Z.of_nat (length a + 5)))
       (mkPosition
          (line (getPositionFromOffset content (Z.of_nat (length a + 5))))
          (character (getPositionFromOffset content (Z.of_nat (length a + 5)))
           + length storeName))) ∈ locations
  ∨ visitKey fsPath (getPositionFromOffset content (Z.of_nat (length a + 5)))
      ∈ visited.
Proof.
  intros Hid Hthis Hc Ha Hb Hfind.
  pose proof (this_matches_at storeName a b Hid Ha Hb) as Hexec.
  destruct (exec_all_complete (thisPattern (atoms storeName)) content a
              (str "this." ++ storeName ++ b) Hc Hexec) as (m & Hm & Hidx).
  destruct (exec_all_spec (thisPattern (atoms storeName)) content) as [Hfound _].
  rewrite Forall_forall in Hfound.
  destruct (found_rest _ _ _ (Hfound m Hm))
    as (a0 & b0 & prev & st' & Ht & Hi & Hmatch & Hrest).
  destruct (this_text _ _ _ _ Hid Hmatch) as [Htext Hb0].
  rewrite Hrest in Hb0. rewrite Htext in Ht.
  assert (Hstart : m_index m = length a).
  { destruct Hidx as [?|[Hlt Hend]]; [done|]. exfalso.
    unfold m_end in Hend. rewrite Htext, Hi in *.
    apply (accesses_apart storeName content a0 b0 a b Hid Hthis); done. }
  pose proof Hfind as Hloop. unfold findThisStoreReferences in Hloop.
  rewrite (of_source_identifier _ Hid) in Hloop. injection Hloop as Hloop.
  destruct (visit_keys (fun m => (Z.of_nat (m_index m) + 5)%Z) fsPath content
              (length storeName) visited
              (exec_all (thisPattern (atoms storeName)) content) ([], visited))
    as (Hinv & Hkeys & _).
  { intros k Hk. by left. }
  { apply Forall_forall. intros x _. lia. }
  rewrite Hloop in Hinv, Hkeys. cbn [fst snd] in Hinv, Hkeys.
  specialize (Hkeys m Hm). rewrite Hstart in Hkeys.
  replace (Z.of_nat (length a) + 5)%Z with (Z.of_nat (length a + 5)) in Hkeys by lia.
  destruct (Hinv _ Hkeys) as [Hv|(l & Hl & Hkey)]; [by right|]. left.
  destruct (findThisStoreReferences_span _ _ _ _ _ _ _ Hid Hfind Hl)
    as (a' & b' & _ & _ & ->).
  unfold visitedKey in Hkey. cbn [uri range r_start] in Hkey.
  apply visitKey_inj in Hkey. by rewrite Hkey in Hl.
Qed.

End Found2.

(** X29.  No access is missed: for a name other than [this], every
    occurrence of [this.] and the name between word boundaries is among
    the locations that [findThisStoreReferences] returns, unless the key
    of its position was visited before the call. *)
Theorem every_access_is_found (fsPath content storeName : text)
    (visited visited' : gset text) (locations : list Location) (a b : text) :
  identifier storeName → storeName ≠ str "this" →
  content = a ++ str "this." ++ storeName ++ b →
  is_word_at (last a) = false → is_word_at (head b) = false →
  findThisStoreReferences fsPath content storeName visited
    = Some (locations, visited') →
  mkLocation fsPath
    (mkRange
       (getPositionFromOffset content (Z.of_nat (length a + 5)))
       (mkPosition
          (line (getPositionFromOffset content (Z.of_nat (length a + 5))))
          (character (getPositionFromOffset content (Z.of_nat (length a + 5)))
           + length storeName))) ∈ locations
  ∨ visitKey fsPath (getPositionFromOffset content (Z.of_nat (length a + 5)))
      ∈ visited.
Proof. apply findThisStoreReferences_complete. Qed.

Lemma every_access_is_found_witness :
  mkLocation widget
    (mkRange
       (getPositionFromOffset usesCount (Z.of_nat (length beforeAccess + 5)))
       (mkPosition
          (line (getPositionFromOffset usesCount (Z.of_nat (length beforeAccess + 5))))
          (character (getPositionFromOffset usesCount (Z.of_nat (length beforeAccess + 5)))
           + length (str "count"))))
    ∈ fst (default ([], ∅)
             (findThisStoreReferences widget usesCount (str "count") ∅))
  ∨ visitKey widget
      (getPositionFromOffset usesCount (Z.of_nat (length beforeAccess + 5)))
      ∈ (∅ : gset text).
Proof.
  apply (every_access_is_found widget usesCount (str "count") ∅
           (snd (default ([], ∅)
                   (findThisStoreReferences widget usesCount (str "count") ∅)))
           (fst (default ([], ∅)
                   (findThisStoreReferences widget usesCount (str "count") ∅)))
           beforeAccess (str "; } }")).
  - split; [done|]. repeat constructor.
  - done.
  - reflexivity.
  - reflexivity.
  - reflexivity.
  - by_evaluation.
Defined.

(** For the name [this] an access can be missed: of the two accesses in
    [this.this.this] the loop reports the first and resumes after it, in
    the middle of the second. *)
Example access_missed_for_this :
  fst <$> findThisStoreReferences widget (str "this.this.this") (str "this") ∅
  = Some [mkLocation widget (mkRange (mkPosition 0 5) (mkPosition 0 9))].
Proof. by_evaluation. Qed.

Section Found3.

Import Char PositionFacts SearchFacts.

Context {path : PathModule}.

(** X30.  From an open component with a binding for the name, the answer
    of [findImportedStoreReferences] has every access to the name in the
    text of the component: every occurrence of [this.] and the name
    between word boundaries, for a name other than [this]. *)
Theorem component_accesses_are_found (h : Host)
    (componentFilePath storeName content target : text)
    (bindings : gmap text text) (st st' : state) (locations : list Location)
    (a b : text) :
  identifier storeName → storeName ≠ str "this" →
  liveText h componentFilePath = Some content →
  componentImportsMap (ensureImportsAnalyzed h componentFilePath st)
    !! componentFilePath = Some bindings →
  bindings !! storeName = Some target → target ≠ [] →
  content = a ++ str "this." ++ storeName ++ b →
  is_word_at (last a) = false → is_word_at (head b) = false →
  findImportedStoreReferences h componentFilePath storeName st
    = Some (locations, st') →
  mkLocation componentFilePath
    (mkRange
       (getPositionFromOffset content (Z.of_nat (length a + 5)))
       (mkPosition
          (line (getPositionFromOffset content (Z.of_nat (length a + 5))))
          (character (getPositionFromOffset content (Z.of_nat (length a + 5)))
           + length storeName))) ∈ locations.
Proof.
  intros Hid Hthis Hlive Hb Hn Ht Hc Ha Hbnd.
  unfold findImportedStoreReferences. rewrite Hb, Hn.
  destruct target as [|c0 target]; [done|].
  destruct (findStoreDefinitions _ _ _ _) as [[definitions st2]|]; [|done].
  destruct (getDocumentText_open h componentFilePath content st2 Hlive) as [Hget _].
  destruct (getDocumentText h componentFilePath st2) as [t st3].
  cbn [fst] in Hget. subst t.
  destruct content as [|c content]; [by destruct a|].
  destruct (findThisStoreReferences _ _ _ _) as [[accesses v]|] eqn:Hfind; [|done].
  intros [= <- <-]. apply elem_of_app. right.
  destruct (findThisStoreReferences_complete _ _ _ _ _ _ a b Hid Hthis Hc Ha Hbnd Hfind)
    as [Hin|Hin]; [done|]. by apply elem_of_empty in Hin.
Qed.

End Found3.


Lemma component_accesses_are_found_witness :
  mkLocation widget
    (mkRange
       (getPositionFromOffset usesCount (Z.of_nat (length beforeAccess + 5)))
       (mkPosition
          (line (getPositionFromOffset usesCount (Z.of_nat (length beforeAccess + 5))))
          (character (getPositionFromOffset usesCount (Z.of_nat (length beforeAccess + 5)))
           + length (str "count"))))
    ∈ fst (default ([], initial)
             (findImportedStoreReferences workspace widget (str "count")
                counterActivated)).
Proof.
  apply (component_accesses_are_found (path := posix) workspace widget
           (str "count") usesCount counter
           (default ∅ (componentImportsMap
                         (ensureImportsAnalyzed workspace widget counterActivated)
                         !! widget))
           counterActivated
           (snd (default ([], initial)
                   (findImportedStoreReferences workspace widget (str "count")
                      counterActivated)))
           (fst (default ([], initial)
                   (findImportedStoreReferences workspace widget (str "count")
                      counterActivated)))
           beforeAccess (str "; } }")).
  - split; [done|]. repeat constructor.
  - done.
  - reflexivity.
  - by_evaluation.
  - by_evaluation.
  - done.
  - reflexivity.
  - reflexivity.
  - reflexivity.
  - by_evaluation.
Defined.
